(** * A shallow embedding of the retrieval pipeline of gemini-groq-rag-v3

    The development follows the JavaScript sources component by component:
    - [lib/pdf.js]    : the chunking engine ([chunkTextSemantic], [chunkLongSentence]);
    - [lib/db.js]     : the vector store ([deleteDocument], [searchChunks], [cosineSimilarity]);
    - [lib/groq.js]   : the batch partitioning of page images ([createBatches]);
    - [lib/ocr.js]    : the classifier and the hybrid extraction
                        ([detectImageBasedPDF], [hybridParsePDF]);
    - [lib/gemini.js] : the retrying embedding client ([withRetry], [getEmbedding]);
    - [App.jsx]       : the conversational turn ([handleSendMessage]).

    Conventions.
    - A JavaScript string is the list of its UTF-16 code units ([jsstring]), so
      that [.length], [substring] and [lastIndexOf] count what the engine counts
      (the full-width punctuation used by the chunker is one unit each).
    - A JavaScript number that holds a measured quantity (a similarity, a text
      density) is an IEEE-754 binary64 value: Rocq's primitive [float].  Indices,
      lengths and counters are integers ([Z]); payload sizes in megabytes, which
      the code obtains by dividing a length by 1024 twice, are exact rationals ([Q]).
    - [null]/[undefined] arguments are [None].
    - A promise that may reject is a value of [result]; a loop that the source
      writes as [while] takes fuel, and running out of it is [None]. *)

From Stdlib Require Import ZArith QArith Lqa Floats Lia String Ascii.
From stdpp Require Import base option list gmap sorting.

Local Open Scope Z_scope.

(* ===================================================================== *)
(** * JavaScript strings                                                   *)
(* ===================================================================== *)

Definition jsstring := list N.

(** ASCII literals of the sources, as code units. *)
Fixpoint js (s : string) : jsstring :=
  match s with
  | EmptyString => []
  | String c s' => N_of_ascii c :: js s'
  end.

Definition js_length (s : jsstring) : Z := Z.of_nat (length s).

(** [\s] of a regular expression and the white space removed by [trim()]:
    TAB, LF, VT, FF, CR, SP, NBSP, the Unicode space separators, LS, PS and
    the byte order mark. *)
Definition is_space (c : N) : bool :=
  ((9 <=? c) && (c <=? 13) || (c =? 32) || (c =? 160) || (c =? 5760)
   || (8192 <=? c) && (c <=? 8202) || (c =? 8232) || (c =? 8233)
   || (c =? 8239) || (c =? 8287) || (c =? 12288) || (c =? 65279))%N.

Fixpoint drop_while {A} (p : A → bool) (l : list A) : list A :=
  match l with
  | [] => []
  | x :: l' => if p x then drop_while p l' else l
  end.

Definition trimStart (s : jsstring) : jsstring := drop_while is_space s.
Definition trimEnd (s : jsstring) : jsstring := rev (drop_while is_space (rev s)).
Definition trim (s : jsstring) : jsstring := trimEnd (trimStart s).

(** [s.replace(/p+/g, r)]: every maximal run of units satisfying [p] becomes
    the single unit [r].  [in_run] records that the previous unit was in a run. *)
Fixpoint replace_runs (p : N → bool) (r : N) (in_run : bool) (s : jsstring) : jsstring :=
  match s with
  | [] => []
  | c :: s' =>
      if p c
      then (if in_run then replace_runs p r true s' else r :: replace_runs p r true s')
      else c :: replace_runs p r false s'
  end.

(** [parts.join(sep)]. *)
Fixpoint join (sep : jsstring) (parts : list jsstring) : jsstring :=
  match parts with
  | [] => []
  | [p] => p
  | p :: rest => p ++ sep ++ join sep rest
  end.

(** [s.substring(a, b)]: both ends clamped to [0, length], swapped if needed. *)
Definition substring (s : jsstring) (a b : Z) : jsstring :=
  let len := js_length s in
  let a' := Z.min (Z.max a 0) len in
  let b' := Z.min (Z.max b 0) len in
  let lo := Z.min a' b' in
  let hi := Z.max a' b' in
  take (Z.to_nat (hi - lo)) (drop (Z.to_nat lo) s).

(** [s.lastIndexOf(c, pos)] for a one-unit search string: the largest index
    [k <= clamp pos] holding [c], or [-1]. *)
Fixpoint lastIndexOf_from (s : jsstring) (c : N) (i pos best : Z) : Z :=
  match s with
  | [] => best
  | x :: s' =>
      lastIndexOf_from s' c (i + 1) pos
        (if (x =? c)%N && (i <=? pos) then i else best)
  end.

Definition lastIndexOf (s : jsstring) (c : N) (pos : Z) : Z :=
  lastIndexOf_from s c 0 (Z.max 0 pos) (-1).

Fixpoint starts_with (pat s : jsstring) : bool :=
  match pat, s with
  | [], _ => true
  | _ :: _, [] => false
  | p :: pat', c :: s' => (p =? c)%N && starts_with pat' s'
  end.

(** [s.includes(pat)]. *)
Fixpoint includes (s pat : jsstring) : bool :=
  starts_with pat s ||
  match s with
  | [] => false
  | _ :: s' => includes s' pat
  end.

(** [arr.slice(0, n)] ([n] negative counts from the end). *)
Definition slice0 {A} (l : list A) (n : Z) : list A :=
  if n <? 0 then take (Z.to_nat (Z.of_nat (length l) + n)) l
  else take (Z.to_nat n) l.

(** Promises: resolved with a value or rejected with an [Error]. *)
Record jsError := mkError { message : option jsstring }.

Inductive result (A : Type) : Type :=
| Ok (a : A)
| Err (e : jsError).
Arguments Ok {A} a.
Arguments Err {A} e.

(** [await] in an [async] function: continue with the value, or reject with
    the same error.  Written [x ← m; k] below. *)
#[global] Instance result_ret : MRet result := λ A a, Ok a.
#[global] Instance result_bind : MBind result := λ A B k m,
  match m with
  | Ok a => k a
  | Err e => Err e
  end.

(* ===================================================================== *)
(** * lib/db.js : cosine similarity                                        *)
(* ===================================================================== *)

(** The three accumulators of the [for] loop, run over the common prefix
    (the caller has checked that the lengths agree). *)
Fixpoint cosine_loop (vecA vecB : list float) (dotProduct normA normB : float)
  : float * float * float :=
  match vecA, vecB with
  | a :: vecA', b :: vecB' =>
      cosine_loop vecA' vecB'
        (dotProduct + a * b)%float (normA + a * a)%float (normB + b * b)%float
  | _, _ => (dotProduct, normA, normB)
  end.

Definition cosineSimilarity (vecA vecB : option (list float)) : float :=
  match vecA, vecB with
  | Some a, Some b =>
      if negb (length a =? length b)%nat then 0%float
      else
        let '(dotProduct, normA, normB) := cosine_loop a b 0 0 0 in
        (dotProduct / (PrimFloat.sqrt normA * PrimFloat.sqrt normB))%float
  | _, _ => 0%float
  end.

(** The sum of squares the loop accumulates for one vector. *)
Fixpoint sum_squares (acc : float) (v : list float) : float :=
  match v with
  | [] => acc
  | a :: v' => sum_squares (acc + a * a)%float v'
  end.

(** Where the rational [N / D] lies relative to the integer [m], in the
    terms in which the rounding of [SpecFloat] records it: at [m], below,
    at or above [m + 1/2]. *)
Definition located (N D m : Z) (l : location) : Prop :=
  match l with
  | loc_Exact => N = m * D
  | loc_Inexact Lt => m * D < N ∧ 2 * N < (2 * m + 1) * D
  | loc_Inexact Eq => 2 * N = (2 * m + 1) * D
  | loc_Inexact Gt => (2 * m + 1) * D < 2 * N ∧ N < (m + 1) * D
  end.

(** A binary64 value that is neither zero, infinite nor NaN. *)
Definition finite_nonzero (x : float) : Prop :=
  ∃ s m e, Prim2SF x = S754_finite s m e.

(* ===================================================================== *)
(** * lib/db.js : the object stores                                        *)
(* ===================================================================== *)

Inductive role := user | assistant.

Record chatMessage := mkMessage { msg_role : role; msg_content : jsstring }.

Record document := mkDocument {
  doc_name : jsstring;
  doc_category : option jsstring;
  chunkCount : Z;
  embeddingDimension : Z
}.

Record chunk := mkChunk {
  docId : N;
  chunk_content : jsstring;
  embedding : option (list float);
  ocrUsed : bool
}.

(** The IndexedDB database: [documents] and [chunks] are keyed by their
    auto-incremented [id]; [chatHistory] is kept in insertion order. *)
Record db := mkDB {
  documents : gmap N document;
  chunks : gmap N chunk;
  chatHistoryStore : list chatMessage
}.

Definition key_le {V} : relation (N * V) := λ x y, (x.1 ≤ y.1)%N.

#[global] Instance key_le_dec {V} (x y : N * V) : Decision (key_le x y) :=
  N.le_dec x.1 y.1.

(** [db.getAll(store)]: every record, in ascending key order. *)
Definition getAll {V} (store : gmap N V) : list (N * V) :=
  merge_sort key_le (map_to_list store).

(** The records that the index [docId] holds under the key [id]
    ([index.openCursor(IDBKeyRange.only(id))]), as primary keys. *)
Definition index_docId_only (store : gmap N chunk) (id : N) : list N :=
  (filter (λ kc, docId kc.2 = id) (getAll store)).*1.

(** [while (cursor) { await cursor.delete(); cursor = await cursor.continue(); }] *)
Fixpoint cursor_delete (keys : list N) (store : gmap N chunk) : gmap N chunk :=
  match keys with
  | [] => store
  | k :: keys' => cursor_delete keys' (delete k store)
  end.

Definition deleteDocument (st : db) (id : N) : db :=
  {| documents := delete id (documents st);
     chunks := cursor_delete (index_docId_only (chunks st) id) (chunks st);
     chatHistoryStore := chatHistoryStore st |}.

Definition saveChatMessage (st : db) (m : chatMessage) : db :=
  {| documents := documents st;
     chunks := chunks st;
     chatHistoryStore := chatHistoryStore st ++ [m] |}.

(** A stored chunk together with its score: [{...chunk, similarity}]. *)
Record scoredChunk := mkScored {
  sc_id : N;
  sc_chunk : chunk;
  similarity : float
}.

(** [arr.sort(cmp)] as a stable insertion sort: [x] moves behind [y] exactly
    when [cmp(x, y) > 0].  (When the comparator is consistent every conforming
    engine returns this list; a [NaN] score makes the order engine-specific,
    and here leaves the elements where they are.) *)
Fixpoint sort_insert {A} (cmp : A → A → float) (x : A) (l : list A) : list A :=
  match l with
  | [] => [x]
  | y :: l' => if (0 <? cmp x y)%float then y :: sort_insert cmp x l' else x :: l
  end.

Definition js_sort {A} (cmp : A → A → float) (l : list A) : list A :=
  foldr (sort_insert cmp) [] l.

(** The chunks that take part in a search: all of them, unless a non-empty
    list of document ids is given. *)
Definition candidates (st : db) (filterDocIds : option (list N)) : list (N * chunk) :=
  let all := getAll (chunks st) in
  match filterDocIds with
  | Some ids =>
      if 0 <? Z.of_nat (length ids)
      then filter (λ kc, docId kc.2 ∈ ids) all
      else all
  | None => all
  end.

Definition searchChunks (st : db) (queryEmbedding : option (list float))
    (filterDocIds : option (list N)) (limit : Z) : list scoredChunk :=
  let results :=
    map (λ kc, {| sc_id := kc.1; sc_chunk := kc.2;
                  similarity := cosineSimilarity queryEmbedding (embedding kc.2) |})
        (candidates st filterDocIds) in
  slice0
    (js_sort (λ a b, (similarity b - similarity a)%float) results)
    limit.

(** A knowledge base with two documents: chunks 1 and 3 belong to document 1,
    chunk 2 to document 2. *)
Definition two_documents : db :=
  {| documents :=
       {[ 1%N := {| doc_name := js "a.pdf"; doc_category := Some (js "A");
                    chunkCount := 2; embeddingDimension := 2 |};
          2%N := {| doc_name := js "b.pdf"; doc_category := Some (js "B");
                    chunkCount := 1; embeddingDimension := 2 |} ]};
     chunks :=
       {[ 1%N := {| docId := 1; chunk_content := js "one";
                    embedding := Some [3; 4]%float; ocrUsed := false |};
          2%N := {| docId := 2; chunk_content := js "two";
                    embedding := Some [4; 3]%float; ocrUsed := false |};
          3%N := {| docId := 1; chunk_content := js "three";
                    embedding := Some [0; 1]%float; ocrUsed := true |} ]};
     chatHistoryStore := [] |}.

(* ===================================================================== *)
(** * lib/groq.js : partitioning page images into batches                  *)
(* ===================================================================== *)

Record pageImage := mkImage {
  pageNum : Z;
  base64 : option jsstring;
  mimeType : option jsstring
}.

(** [img.base64?.length || 0] *)
Definition base64_length (img : pageImage) : Z :=
  match base64 img with
  | Some s => js_length s
  | None => 0
  end.

(** [calculateImagesSize]: the base64 payload of a list of images, in MB. *)
Definition calculateImagesSize (images : list pageImage) : Q :=
  inject_Z (foldl (λ sum img, sum + base64_length img) 0 images) / 1024 / 1024.

Definition Qgtb (x y : Q) : bool := negb (Qle_bool x y).

(** The three variables of the loop of [createBatches]. *)
Record batching := mkBatching {
  batches : list (list pageImage);
  currentBatch : list pageImage;
  currentSize : Q
}.

Definition createBatches_step (maxSizeMB : Q) (maxImages : Z)
    (st : batching) (img : pageImage) : batching :=
  let imgSize := (inject_Z (base64_length img) / 1024 / 1024)%Q in
  let wouldExceedSize :=
    Qgtb (currentSize st + imgSize) maxSizeMB
    && (0 <? Z.of_nat (length (currentBatch st))) in
  let wouldExceedCount := Z.of_nat (length (currentBatch st)) >=? maxImages in
  let st' :=
    if wouldExceedSize || wouldExceedCount
    then {| batches := batches st ++ [currentBatch st];
            currentBatch := []; currentSize := 0 |}
    else st in
  {| batches := batches st';
     currentBatch := currentBatch st' ++ [img];
     currentSize := (currentSize st' + imgSize)%Q |}.

Definition createBatches (images : list pageImage) (maxSizeMB : Q) (maxImages : Z)
  : list (list pageImage) :=
  let st :=
    foldl (createBatches_step maxSizeMB maxImages)
      {| batches := []; currentBatch := []; currentSize := 0 |} images in
  if 0 <? Z.of_nat (length (currentBatch st))
  then batches st ++ [currentBatch st]
  else batches st.

(** A page image whose base64 text has [n] characters. *)
Definition image_of_length (page : Z) (n : nat) : pageImage :=
  {| pageNum := page; base64 := Some (repeat 65%N n); mimeType := Some (js "image/jpeg") |}.

(** A batch respects the ceilings, up to the one allowance the code makes:
    an image that alone is larger than the size ceiling sits in a batch of
    its own. *)
Definition batch_ok (maxSizeMB : Q) (maxImages : Z) (batch : list pageImage) : Prop :=
  1 ≤ Z.of_nat (length batch) ≤ maxImages
  ∧ ((calculateImagesSize batch <= maxSizeMB)%Q
     ∨ ∃ img, batch = [img]
         ∧ (maxSizeMB < inject_Z (base64_length img) / 1024 / 1024)%Q).

(** The invariant of the loop of [createBatches]. *)
Definition batching_inv (maxSizeMB : Q) (maxImages : Z) (st : batching) : Prop :=
  Forall (batch_ok maxSizeMB maxImages) (batches st)
  ∧ (currentBatch st = [] ∨ batch_ok maxSizeMB maxImages (currentBatch st))
  ∧ (currentSize st == calculateImagesSize (currentBatch st))%Q.

(* ===================================================================== *)
(** * lib/pdf.js : the chunking engine                                     *)
(* ===================================================================== *)

(** The sentence terminators of [sentencePattern]: the ideographic full
    stop, the full-width [!] and [?], and [.], [!], [?], line feed. *)
Definition is_terminator (c : N) : bool :=
  ((c =? 12290) || (c =? 65281) || (c =? 65311)
   || (c =? 46) || (c =? 33) || (c =? 63) || (c =? 10))%N.

(** [s.match(/[^T]+[T]?/g)] for the terminator class [T]: a match is a maximal
    run of non-terminators followed by one terminator if there is one; a
    terminator that follows no run is skipped.  [cur] is the run read so far,
    last unit first. *)
Fixpoint match_sentences (cur : jsstring) (s : jsstring) : list jsstring :=
  match s with
  | [] =>
      match cur with
      | [] => []
      | _ :: _ => [rev cur]
      end
  | c :: s' =>
      if is_terminator c
      then
        match cur with
        | [] => match_sentences [] s'
        | _ :: _ => rev (c :: cur) :: match_sentences [] s'
        end
      else match_sentences (c :: cur) s'
  end.

(** [',', '，', ';', '；', ':', '：', ' '] *)
Definition breakPoints : list N := [44; 65292; 59; 65307; 58; 65306; 32]%N.

Definition overlap : Z := 50.

(** The [for (const bp of breakPoints)] loop: the first break character whose
    last occurrence at or before [end_] lies beyond [start + maxSize / 2]
    moves the end just behind that occurrence. *)
Fixpoint find_break (sentence : jsstring) (start maxSize end_ : Z) (bps : list N) : Z :=
  match bps with
  | [] => end_
  | bp :: bps' =>
      let lastBreak := lastIndexOf sentence bp end_ in
      if 2 * start + maxSize <? 2 * lastBreak
      then lastBreak + 1
      else find_break sentence start maxSize end_ bps'
  end.

(** The [while (start < sentence.length)] loop of [chunkLongSentence]; one
    unit of fuel per iteration. *)
Fixpoint chunkLongSentence_loop (fuel : nat) (sentence : jsstring) (maxSize start : Z)
    (chunks : list jsstring) : option (list jsstring) :=
  if start <? js_length sentence
  then
    match fuel with
    | O => None
    | S fuel' =>
        let end0 := start + maxSize in
        let end_ :=
          if end0 <? js_length sentence
          then find_break sentence start maxSize end0 breakPoints
          else end0 in
        chunkLongSentence_loop fuel' sentence maxSize (end_ - overlap)
          (chunks ++ [trim (substring sentence start end_)])
    end
  else Some chunks.

Definition chunkLongSentence (fuel : nat) (sentence : jsstring) (maxSize : Z)
  : option (list jsstring) :=
  chunkLongSentence_loop fuel sentence maxSize 0 [].

(** The variables of the loop of [chunkTextSemantic]. *)
Record chunking := mkChunking {
  out_chunks : list jsstring;
  currentChunk : list jsstring;
  currentLength : Z
}.

Definition space : jsstring := [32%N].

(** [chunks.push(currentChunk.join(' '))] *)
Definition flush_chunk (st : chunking) : list jsstring :=
  out_chunks st ++ [join space (currentChunk st)].

(** One iteration of the [for] loop over the sentences. *)
Definition chunk_step (fuel : nat) (maxSize overlapSentences : Z)
    (st : chunking) (raw : jsstring) : option chunking :=
  let sentence := trim raw in
  if js_length sentence =? 0 then Some st
  else
    let sentenceLength := js_length sentence in
    if maxSize <? sentenceLength
    then
      let st1 :=
        if 0 <? Z.of_nat (length (currentChunk st))
        then {| out_chunks := flush_chunk st; currentChunk := []; currentLength := 0 |}
        else st in
      subChunks ← chunkLongSentence fuel sentence maxSize;
      Some {| out_chunks := out_chunks st1 ++ subChunks;
              currentChunk := currentChunk st1;
              currentLength := currentLength st1 |}
    else
      let st1 :=
        if (maxSize <? currentLength st + sentenceLength)
           && (0 <? Z.of_nat (length (currentChunk st)))
        then
          let overlapStart :=
            Z.max 0 (Z.of_nat (length (currentChunk st)) - overlapSentences) in
          let kept := drop (Z.to_nat overlapStart) (currentChunk st) in
          {| out_chunks := flush_chunk st;
             currentChunk := kept;
             currentLength := foldl (λ sum s, sum + js_length s) 0 kept |}
        else st in
      Some {| out_chunks := out_chunks st1;
              currentChunk := currentChunk st1 ++ [sentence];
              currentLength := currentLength st1 + sentenceLength |}.

Fixpoint chunk_loop (fuel : nat) (maxSize overlapSentences : Z)
    (sentences : list jsstring) (st : chunking) : option chunking :=
  match sentences with
  | [] => Some st
  | raw :: rest =>
      st' ← chunk_step fuel maxSize overlapSentences st raw;
      chunk_loop fuel maxSize overlapSentences rest st'
  end.

(** [text.replace(/\s+/g, ' ').replace(/\n+/g, '\n').trim()] *)
Definition clean_text (text : jsstring) : jsstring :=
  trim (replace_runs (N.eqb 10) 10%N false (replace_runs is_space 32%N false text)).

(** [cleanedText.match(sentencePattern) || [cleanedText]] *)
Definition split_sentences (cleanedText : jsstring) : list jsstring :=
  match match_sentences [] cleanedText with
  | [] => [cleanedText]
  | m :: ms => m :: ms
  end.

(** The chunk survives the final [filter]. *)
Definition long_enough (chunk : jsstring) : Prop := 50 < js_length (trim chunk).

#[global] Instance long_enough_dec (chunk : jsstring) : Decision (long_enough chunk) :=
  Z_lt_dec 50 (js_length (trim chunk)).

(** [fuel] bounds the iterations of each forced split; [None] means that a
    forced split did not finish within it. *)
Definition chunkTextSemantic (fuel : nat) (text : jsstring)
    (maxSize overlapSentences : Z) : option (list jsstring) :=
  let cleanedText := clean_text text in
  if js_length cleanedText =? 0 then Some []
  else
    st ← chunk_loop fuel maxSize overlapSentences (split_sentences cleanedText)
           {| out_chunks := []; currentChunk := []; currentLength := 0 |};
    let chunks :=
      if 0 <? Z.of_nat (length (currentChunk st)) then flush_chunk st
      else out_chunks st in
    Some (filter long_enough chunks).

(** A sentence of [n] units: [n - 1] letters [a] and a full stop. *)
Definition sentence_of_length (n : nat) : jsstring := repeat 97%N (n - 1) ++ [46%N].

(** Three sentences of 600 units, separated by single spaces. *)
Definition three_sentences : jsstring :=
  sentence_of_length 600 ++ space ++ sentence_of_length 600 ++ space ++ sentence_of_length 600.

(* ===================================================================== *)
(** * lib/ocr.js : the classifier and the hybrid extraction                *)
(* ===================================================================== *)

(** A loaded PDF: for every page the strings of its text layer
    ([getTextContent().items[*].str]) and the viewport at scale 1. *)
Record pdfPage := mkPage {
  items : list jsstring;
  width : float;
  height : float
}.

Abbreviation pdfDoc := (list pdfPage).

Definition numPages (d : pdfDoc) : Z := Z.of_nat (length d).

(** [pdfDoc.getPage(i)]: pages are numbered from 1; any other request is
    rejected. *)
Definition getPage (d : pdfDoc) (i : Z) : result pdfPage :=
  match (if 1 <=? i then d !! Z.to_nat (i - 1) else None) with
  | Some page => Ok page
  | None => Err {| message := Some (js "Invalid page request.") |}
  end.

Fixpoint result_foldl {A B} (f : A → B → result A) (acc : A) (l : list B) : result A :=
  match l with
  | [] => Ok acc
  | x :: l' => acc' ← f acc x; result_foldl f acc' l'
  end.

(** [for (let i = 1; i <= n; i++) { const page = await pdfDoc.getPage(i); ... }] *)
Definition for_each_page {A} (d : pdfDoc) (n : Z) (body : A → Z → pdfPage → A) (acc : A)
  : result A :=
  result_foldl (λ acc i, page ← getPage d i; Ok (body acc i page)) acc (seqZ 1 n).

(** A character count as a JavaScript number (counts are far below 2^53). *)
Definition Z_to_float (z : Z) : float := of_uint63 (Uint63.of_Z z).

Inductive confidenceLabel := high | low.

Record detection := mkDetection {
  isImageBased : bool;
  textDensity : float;
  totalTextLength : Z;
  pagesChecked : Z;
  confidence : confidenceLabel
}.

(** [s.replace(/\s/g, '')] *)
Definition remove_spaces (s : jsstring) : jsstring :=
  filter (λ c, is_space c = false) s.

(** The decimal literal [0.001], rounded to binary64. *)
Definition density_threshold : float := 0x1.0624dd2f1a9fcp-10%float.

Definition detectImageBasedPDF (d : pdfDoc) (samplePages : Z) : result detection :=
  let pagesToCheck := Z.min samplePages (numPages d) in
  totals ← for_each_page d pagesToCheck
              (λ (acc : Z * float) _ page,
                 let pageText := join [] (items page) in
                 (acc.1 + js_length (remove_spaces pageText),
                  (acc.2 + width page * height page)%float))
              (0, 0%float);
  let totalTextLength := totals.1 in
  let totalArea := totals.2 in
  let textDensity := (Z_to_float totalTextLength / totalArea)%float in
  let isImageBased := (textDensity <? density_threshold)%float || (totalTextLength <? 100) in
  Ok {| isImageBased := isImageBased;
        textDensity := textDensity;
        totalTextLength := totalTextLength;
        pagesChecked := pagesToCheck;
        confidence := if isImageBased then high else low |}.

(** One entry of [pageTexts]. *)
Record pageText := mkPageText {
  pt_pageNum : Z;
  pt_text : jsstring;
  needsOCR : bool;
  ocrApplied : bool
}.

Record hybridStats := mkStats {
  totalPages : Z;
  textLayerPages : Z;
  ocrPages : Z
}.

Record hybridResult := mkHybrid {
  fullText : jsstring;
  pageTexts : list pageText;
  stats : hybridStats
}.

(** [content.items.map(item => item.str).join(' ').trim()] *)
Definition text_layer (page : pdfPage) : jsstring := trim (join space (items page)).

(** First round: the text layer of page [i], or a mark for OCR. *)
Definition extract_page (ocrThreshold : Z) (acc : list pageText * list Z)
    (i : Z) (page : pdfPage) : list pageText * list Z :=
  let text := text_layer page in
  if js_length text <? ocrThreshold
  then (acc.1 ++ [{| pt_pageNum := i; pt_text := []; needsOCR := true; ocrApplied := false |}],
        acc.2 ++ [i])
  else (acc.1 ++ [{| pt_pageNum := i; pt_text := text; needsOCR := false; ocrApplied := false |}],
        acc.2).

(** [ocrPDFPages]: every requested page is rendered and sent to the OCR
    service, whose answer for a page is [ocrPage pageNum]; the first failure
    rejects the whole call. *)
Definition ocrPDFPages (d : pdfDoc) (ocrPage : Z → result jsstring) (pageNumbers : list Z)
  : result (list (Z * jsstring)) :=
  result_foldl
    (λ results pageNum,
       _ ← getPage d pageNum;
       text ← ocrPage pageNum;
       Ok (results ++ [(pageNum, text)]))
    [] pageNumbers.

(** [arr.findIndex(p)], [None] for [-1]. *)
Fixpoint findIndex {A} (p : A → bool) (l : list A) : option nat :=
  match l with
  | [] => None
  | x :: l' => if p x then Some 0%nat else S <$> findIndex p l'
  end.

(** Merging one OCR result into [pageTexts]. *)
Definition merge_ocr_result (pts : list pageText) (r : Z * jsstring) : list pageText :=
  match findIndex (λ p, pt_pageNum p =? r.1) pts with
  | Some idx =>
      alter (λ p, {| pt_pageNum := pt_pageNum p; pt_text := r.2;
                     needsOCR := needsOCR p; ocrApplied := true |}) idx pts
  | None => pts
  end.

(** A string used as a condition: absent and empty strings are falsy. *)
Definition truthy (s : option jsstring) : bool :=
  match s with
  | Some (_ :: _) => true
  | _ => false
  end.

Definition page_separator : jsstring := [10; 10]%N.

Definition hybridParsePDF (d : pdfDoc) (groqApiKey : option jsstring)
    (ocrThreshold maxOCRPages : Z) (ocrPage : Z → result jsstring) : result hybridResult :=
  first ← for_each_page d (numPages d) (extract_page ocrThreshold) ([], []);
  let ocrNeededPages := first.2 in
  merged ←
    (if (0 <? Z.of_nat (length ocrNeededPages)) && truthy groqApiKey
     then
       let pagesToOCR := slice0 ocrNeededPages maxOCRPages in
       ocrResults ← ocrPDFPages d ocrPage pagesToOCR;
       Ok (foldl merge_ocr_result first.1 ocrResults)
     else Ok first.1);
  Ok {| fullText :=
          join page_separator
            (pt_text <$> filter (λ p, 0 < js_length (pt_text p)) merged);
        pageTexts := merged;
        stats := {| totalPages := numPages d;
                    textLayerPages :=
                      Z.of_nat (length (filter (λ p, needsOCR p = false) merged));
                    ocrPages :=
                      Z.of_nat (length (filter (λ p, ocrApplied p = true) merged)) |} |}.

(** A page whose text layer is one string of [n] letters. *)
Definition text_page (n : nat) : pdfPage :=
  {| items := [repeat 97%N n]; width := 612; height := 792 |}.

(** The pages of a document with their page numbers, 1, 2, ... *)
Definition numbered_pages (d : pdfDoc) : list (Z * pdfPage) :=
  zip (seqZ 1 (numPages d)) d.

(** The entry that the first round writes for a page. *)
Definition text_layer_entry (ocrThreshold : Z) (ip : Z * pdfPage) : pageText :=
  if js_length (text_layer ip.2) <? ocrThreshold
  then {| pt_pageNum := ip.1; pt_text := []; needsOCR := true; ocrApplied := false |}
  else {| pt_pageNum := ip.1; pt_text := text_layer ip.2; needsOCR := false;
          ocrApplied := false |}.

(** The numbers of the pages whose text layer is shorter than the threshold. *)
Definition short_pages (d : pdfDoc) (ocrThreshold : Z) : list Z :=
  (filter (λ ip, js_length (text_layer ip.2) < ocrThreshold) (numbered_pages d)).*1.

(** The pages that are submitted to the OCR service. *)
Definition pages_sent_to_ocr (d : pdfDoc) (groqApiKey : option jsstring)
    (ocrThreshold maxOCRPages : Z) : list Z :=
  if (0 <? Z.of_nat (length (short_pages d ocrThreshold))) && truthy groqApiKey
  then slice0 (short_pages d ocrThreshold) maxOCRPages
  else [].

(** The effect of merging one OCR result on one entry. *)
Definition apply_ocr_result (p : pageText) (r : Z * jsstring) : pageText :=
  if pt_pageNum p =? r.1
  then {| pt_pageNum := pt_pageNum p; pt_text := r.2;
          needsOCR := needsOCR p; ocrApplied := true |}
  else p.

(** The text PDF of the scenario: three pages of 1000 characters. *)
Definition three_text_pages : pdfDoc := [text_page 1000; text_page 1000; text_page 1000].

(* ===================================================================== *)
(** * lib/gemini.js : the embedding client                                 *)
(* ===================================================================== *)

(** What a turn does to the outside world, in order. *)
Inductive event :=
| EvIntentRequest                    (* analyzeQueryIntent asks the chat model *)
| EvEmbedRequest (attempt : Z)       (* one call of the embedding provider *)
| EvSleep (ms : Z)                   (* [setTimeout] awaited for [ms] *)
| EvGenerate (prompt : jsstring).    (* chatWithGroq asks for the answer *)

(** [error.message?.includes('429') || ...('quota') || ...('rate')] *)
Definition isRateLimit (error : jsError) : bool :=
  match message error with
  | Some m => includes m (js "429") || includes m (js "quota") || includes m (js "rate")
  | None => false
  end.

(** [15000 * Math.pow(2, attempt - 1)] *)
Definition backoffTime (attempt : Z) : Z := 15000 * 2 ^ (attempt - 1).

(** The [for (attempt = 1; attempt <= maxRetries; attempt++)] loop of
    [withRetry].  [fn attempt] is the outcome of the call made in that
    iteration; [remaining] counts the iterations left.  The promise resolves
    with [None] ([undefined]) when the loop ends without a [return]. *)
Fixpoint withRetry_loop {A} (fn : Z → result A) (maxRetries : Z) (remaining : nat)
    (attempt : Z) (log : list event) : result (option A) * list event :=
  match remaining with
  | O => (Ok None, log)
  | S remaining' =>
      match fn attempt with
      | Ok v => (Ok (Some v), log ++ [EvEmbedRequest attempt])
      | Err error =>
          if isRateLimit error && (attempt <? maxRetries)
          then
            withRetry_loop fn maxRetries remaining' (attempt + 1)
              (log ++ [EvEmbedRequest attempt; EvSleep (backoffTime attempt)])
          else (Err error, log ++ [EvEmbedRequest attempt])
      end
  end.

Definition withRetry {A} (fn : Z → result A) (maxRetries : Z)
  : result (option A) * list event :=
  withRetry_loop fn maxRetries (Z.to_nat maxRetries) 1 [].

(** [RATE_LIMIT], with the two constants of the free tier. *)
Record rateLimit := mkRateLimit {
  lastRequestTime : Z;
  requestCount : Z;
  windowStart : Z
}.

Definition maxRequestsPerMinute : Z := 15.
Definition minDelayMs : Z := 4500.

(** The module state of gemini.js; [clock] is what [Date.now()] returns, and
    an awaited timeout of [ms] advances it by [ms]. *)
Record gemini := mkGemini {
  genAI : option jsstring;
  RATE_LIMIT : rateLimit;
  clock : Z
}.

Definition waitForRateLimit (g : gemini) : gemini * list event :=
  let now := clock g in
  let rl := RATE_LIMIT g in
  let rl1 :=
    if 60000 <? now - windowStart rl
    then {| lastRequestTime := lastRequestTime rl; requestCount := 0; windowStart := now |}
    else rl in
  let waitTime := 60000 - (now - windowStart rl1) + 1000 in
  let '(rl2, clock2, log2) :=
    if (maxRequestsPerMinute <=? requestCount rl1) && (0 <? waitTime)
    then ({| lastRequestTime := lastRequestTime rl1; requestCount := 0;
             windowStart := now + waitTime |},
          now + waitTime, [EvSleep waitTime])
    else (rl1, now, []) in
  let timeSinceLastRequest := now - lastRequestTime rl2 in
  let '(clock3, log3) :=
    if timeSinceLastRequest <? minDelayMs
    then (clock2 + (minDelayMs - timeSinceLastRequest),
          log2 ++ [EvSleep (minDelayMs - timeSinceLastRequest)])
    else (clock2, log2) in
  ({| genAI := genAI g;
      RATE_LIMIT := {| lastRequestTime := clock3;
                       requestCount := requestCount rl2 + 1;
                       windowStart := windowStart rl2 |};
      clock := clock3 |},
   log3).

(** 'Gemini 未初始化，請先輸入 API Key' *)
Definition not_initialized : jsError :=
  {| message := Some [71; 101; 109; 105; 110; 105; 32; 26410; 21021; 22987; 21270;
                      65292; 35531; 20808; 36664; 20837; 32; 65; 80; 73; 32; 75;
                      101; 121]%N |}.

(** The time spent in awaited timeouts. *)
Fixpoint total_sleep (events : list event) : Z :=
  match events with
  | [] => 0
  | EvSleep ms :: rest => ms + total_sleep rest
  | _ :: rest => total_sleep rest
  end.

(** The clock moves on by [ms] while [RATE_LIMIT] is left as it is. *)
Definition elapse (g : gemini) (ms : Z) : gemini :=
  {| genAI := genAI g; RATE_LIMIT := RATE_LIMIT g; clock := clock g + ms |}.

(** [getEmbedding]: [embedContent attempt] is what the provider answers to the
    request made in the given iteration of [withRetry].  The backoff pauses
    awaited in [withRetry] move the clock on; [RATE_LIMIT] keeps what
    [waitForRateLimit] recorded before the first attempt. *)
Definition getEmbedding (g : gemini) (embedContent : Z → result (list float))
  : gemini * result (option (list float)) * list event :=
  match genAI g with
  | None => (g, Err not_initialized, [])
  | Some _ =>
      let '(g', waits) := waitForRateLimit g in
      let '(outcome, calls) := withRetry embedContent 3 in
      (elapse g' (total_sleep calls), outcome, waits ++ calls)
  end.

(** The requests and the pauses between them when [k] attempts are made:
    request 1, 15 s, request 2, 30 s, ..., request [k]. *)
Fixpoint retry_trace (attempt : Z) (k : nat) : list event :=
  match k with
  | O => []
  | 1%nat => [EvEmbedRequest attempt]
  | S k' => EvEmbedRequest attempt :: EvSleep (backoffTime attempt) :: retry_trace (attempt + 1) k'
  end.

Definition rate_limited : jsError := {| message := Some (js "429 Too Many Requests") |}.
Definition bad_request : jsError := {| message := Some (js "400 Bad Request") |}.

(** An initialised client that has been idle for more than a minute. *)
Definition idle_client : gemini :=
  {| genAI := Some (js "key");
     RATE_LIMIT := {| lastRequestTime := 0; requestCount := 0; windowStart := 0 |};
     clock := 100000 |}.

(** The attempt fails and the failure is classified as rate limiting. *)
Definition rate_limited_at {A} (fn : Z → result A) (attempt : Z) : Prop :=
  ∃ e, fn attempt = Err e ∧ isRateLimit e = true.

(** The attempt ends the loop: it succeeds, fails for another reason, or is
    the last one allowed. *)
Definition decisive_at {A} (fn : Z → result A) (maxRetries attempt : Z) : Prop :=
  match fn attempt with
  | Ok _ => True
  | Err e => isRateLimit e = false ∨ maxRetries ≤ attempt
  end.

(** What [withRetry] makes of the outcome of the deciding attempt. *)
Definition outcome_at {A} (fn : Z → result A) (attempt : Z) : result (option A) :=
  match fn attempt with
  | Ok v => Ok (Some v)
  | Err e => Err e
  end.

(* ===================================================================== *)
(** * App.jsx : one conversational turn                                    *)
(* ===================================================================== *)

(** The value that [analyzeQueryIntent] parses out of the model's answer;
    either field may be missing. *)
Record intent := mkIntent {
  intent_type : option jsstring;
  newQuery : option jsstring
}.

Inductive statusType := status_info | status_success | status_error.

Record statusBanner := mkStatus {
  status_type : statusType;
  status_message : jsstring
}.

(** The services a turn talks to.  [analyzeQueryIntent] never rejects (it
    falls back to a search intent itself) but may resolve with [null]
    ([None]); [embedContent q] answers the embedding requests for the query
    [q]; [chatWithGroq] is the answer-generation call. *)
Record services := mkServices {
  analyzeQueryIntent : jsstring → list chatMessage → option intent;
  embedContent : option jsstring → Z → result (list float);
  chatWithGroq : jsstring → list scoredChunk → list chatMessage → result jsstring
}.

(** The React state of [App], the database and the embedding client, and the
    log of what the turn did to the outside world. *)
Record appState := mkApp {
  app_documents : list (N * document);
  selectedCategories : list jsstring;
  chatHistory : list chatMessage;
  inputMessage : jsstring;
  lastChunks : list scoredChunk;
  isProcessing : bool;
  status : statusBanner;
  similarityThreshold : float;
  store : db;
  embedder : gemini;
  log : list event
}.

(** '知識庫中無相關資訊。請嘗試換個問法或上傳相關文件。' *)
Definition noResultMsg : chatMessage :=
  {| msg_role := assistant;
     msg_content :=
       [30693; 35672; 24235; 20013; 28961; 30456; 38364; 36039; 35338; 12290;
        35531; 22039; 35430; 25563; 20491; 21839; 27861; 25110; 19978; 20659;
        30456; 38364; 25991; 20214; 12290]%N |}.

(** 'Llama 4 處理中...', '向量化查詢...', 'Llama 4 生成回答...', '就緒' *)
Definition status_processing : statusBanner :=
  {| status_type := status_info;
     status_message := js "Llama 4 " ++ [34389; 29702; 20013; 46; 46; 46]%N |}.
Definition status_embedding : statusBanner :=
  {| status_type := status_info;
     status_message := [21521; 37327; 21270; 26597; 35426; 46; 46; 46]%N |}.
Definition status_generating : statusBanner :=
  {| status_type := status_info;
     status_message := js "Llama 4 " ++ [29983; 25104; 22238; 31572; 46; 46; 46]%N |}.
Definition status_ready : statusBanner :=
  {| status_type := status_info; status_message := [23601; 32210]%N |}.

(** [err.message] inside a template literal. *)
Definition message_text (e : jsError) : jsstring :=
  match message e with
  | Some m => m
  | None => js "undefined"
  end.

(** [`錯誤: ${err.message}`] *)
Definition errorMessage (e : jsError) : chatMessage :=
  {| msg_role := assistant;
     msg_content := [37679; 35492; 58; 32]%N ++ message_text e |}.

(** Reading a property of [null]. *)
Definition type_error : jsError :=
  {| message := Some (js "Cannot read properties of null (reading 'type')") |}.

(** The state in the middle of a turn: the fields a turn writes. *)
Definition update (st : appState) (history : list chatMessage) (chunks : list scoredChunk)
    (processing : bool) (banner : statusBanner) (database : db) (client : gemini)
    (events : list event) : appState :=
  {| app_documents := app_documents st;
     selectedCategories := selectedCategories st;
     chatHistory := history;
     inputMessage := [];
     lastChunks := chunks;
     isProcessing := processing;
     status := banner;
     similarityThreshold := similarityThreshold st;
     store := database;
     embedder := client;
     log := events |}.

(** [selectedCategories.length > 0
       ? documents.filter(d => selectedCategories.includes(d.category)).map(d => d.id)
       : null] *)
Definition category_selected (selected : list jsstring) (d : N * document) : Prop :=
  from_option (λ c, c ∈ selected) False (doc_category d.2).

#[global] Instance category_selected_dec selected d :
  Decision (category_selected selected d).
Proof. unfold category_selected. destruct (doc_category d.2); simpl; apply _. Defined.

Definition filterIds (st : appState) : option (list N) :=
  if 0 <? Z.of_nat (length (selectedCategories st))
  then Some ((filter (category_selected (selectedCategories st)) (app_documents st)).*1)
  else None.

(** The [catch] and [finally] blocks: the error is shown in the chat (and not
    saved), and processing ends. *)
Definition turn_failed (st : appState) (history : list chatMessage)
    (chunks : list scoredChunk) (database : db)
    (client : gemini) (events : list event) (err : jsError) : appState :=
  update st (history ++ [errorMessage err]) chunks false
    {| status_type := status_error; status_message := message_text err |}
    database client events.

(** Answer generation, the tail of the [try] block. *)
Definition generate (svc : services) (st : appState) (message : jsstring) (i : intent)
    (chunks : list scoredChunk) (history : list chatMessage) (database : db)
    (client : gemini) (events : list event) : appState :=
  let prompt := if truthy (newQuery i) then default message (newQuery i) else message in
  let events' := events ++ [EvGenerate prompt] in
  match chatWithGroq svc prompt chunks (chatHistory st) with
  | Ok aiResponse =>
      let assistantMessage := {| msg_role := assistant; msg_content := aiResponse |} in
      update st (history ++ [assistantMessage]) chunks false status_ready
        (saveChatMessage database assistantMessage) client events'
  | Err err => turn_failed st history chunks database client events' err
  end.

Definition handleSendMessage (svc : services) (st : appState) (message : jsstring) : appState :=
  if (js_length (trim message) =? 0) || isProcessing st then st
  else
    let userMessage := {| msg_role := user; msg_content := message |} in
    let history := chatHistory st ++ [userMessage] in
    let database := saveChatMessage (store st) userMessage in
    let events := log st ++ [EvIntentRequest] in
    match analyzeQueryIntent svc message (chatHistory st) with
    | None => turn_failed st history (lastChunks st) database (embedder st) events type_error
    | Some i =>
        if bool_decide (intent_type i = Some (js "search"))
        then
          let '(client, vec, requests) :=
            getEmbedding (embedder st) (embedContent svc (newQuery i)) in
          let events := events ++ requests in
          match vec with
          | Err err => turn_failed st history (lastChunks st) database client events err
          | Ok vec =>
              let results := searchChunks database vec (filterIds st) 5 in
              let shortCircuit :=
                match results with
                | [] => true
                | top :: _ => (similarity top <? similarityThreshold st)%float
                end in
              if shortCircuit
              then
                update st (history ++ [noResultMsg]) (lastChunks st) false status_ready
                  (saveChatMessage database noResultMsg) client events
              else generate svc st message i results history database client events
          end
        else
          generate svc st message i (lastChunks st) history database (embedder st) events
    end.

(** The event is a call of the answer-generation model. *)
Definition is_generate (e : event) : bool :=
  match e with
  | EvGenerate _ => true
  | _ => false
  end.

(** A knowledge base with one chunk, whose embedding [1, 5] has cosine
    similarity 0.196 with the query vector [1, 0]. *)
Definition one_chunk_store : db :=
  {| documents :=
       {[ 1%N := {| doc_name := js "a.pdf"; doc_category := None;
                    chunkCount := 1; embeddingDimension := 2 |} ]};
     chunks :=
       {[ 1%N := {| docId := 1; chunk_content := js "text";
                    embedding := Some [1; 5]%float; ocrUsed := false |} ]};
     chatHistoryStore := [] |}.

Definition search_services : services :=
  {| analyzeQueryIntent := λ query _,
       Some {| intent_type := Some (js "search"); newQuery := Some query |};
     embedContent := λ _ _, Ok [1; 0]%float;
     chatWithGroq := λ _ _ _, Ok (js "answer") |}.

Definition fresh_app : appState :=
  {| app_documents := getAll (documents one_chunk_store);
     selectedCategories := [];
     chatHistory := [];
     inputMessage := js "question";
     lastChunks := [];
     isProcessing := false;
     status := status_ready;
     similarityThreshold := 0.25;
     store := one_chunk_store;
     embedder := idle_client;
     log := [] |}.


(* ===================================================================== *)
(** * Further vocabulary for traces of a turn                              *)
(* ===================================================================== *)

(** The event is a request to the embedding provider. *)
Definition is_embed_request (e : event) : bool :=
  match e with
  | EvEmbedRequest _ => true
  | _ => false
  end.

(** The event is the intent-classification request. *)
Definition is_intent_request (e : event) : bool :=
  match e with
  | EvIntentRequest => true
  | _ => false
  end.

(** The prompt that answer generation receives: [intent.newQuery || message]. *)
Definition generation_prompt (i : intent) (message : jsstring) : jsstring :=
  if truthy (newQuery i) then default message (newQuery i) else message.

(** Services whose intent analysis answers 'chat'. *)
Definition chat_services : services :=
  {| analyzeQueryIntent := λ _ _,
       Some {| intent_type := Some (js "chat"); newQuery := None |};
     embedContent := λ _ _, Err bad_request;
     chatWithGroq := λ _ _ _, Ok (js "hello") |}.

(** Services whose answer generation fails. *)
Definition failing_services : services :=
  {| analyzeQueryIntent := analyzeQueryIntent chat_services;
     embedContent := embedContent chat_services;
     chatWithGroq := λ _ _ _, Err bad_request |}.

(** The number of events of a kind in a trace. *)
Definition count_events (kind : event → bool) (events : list event) : nat :=
  length (filter (λ e, kind e = true) events).

(** A knowledge base whose only chunk has the zero vector as embedding, so
    that its similarity with any query is 0 / 0. *)
Definition zero_vector_store : db :=
  {| documents := documents one_chunk_store;
     chunks :=
       {[ 1%N := {| docId := 1; chunk_content := js "text";
                    embedding := Some [0; 0]%float; ocrUsed := false |} ]};
     chatHistoryStore := [] |}.

Definition zero_vector_app : appState :=
  {| app_documents := app_documents fresh_app;
     selectedCategories := [];
     chatHistory := [];
     inputMessage := js "question";
     lastChunks := [];
     isProcessing := false;
     status := status_ready;
     similarityThreshold := 0.25;
     store := zero_vector_store;
     embedder := idle_client;
     log := [] |}.


(* ===================================================================== *)
(** * lib/gemini.js : pacing of requests and batch embedding               *)
(* ===================================================================== *)

(** The clock readings at which the requests of a trace are sent, the trace
    starting when the clock shows [now]. *)
Fixpoint send_times (now : Z) (events : list event) : list Z :=
  match events with
  | [] => []
  | EvSleep ms :: rest => send_times (now + ms) rest
  | EvEmbedRequest _ :: rest => now :: send_times now rest
  | _ :: rest => send_times now rest
  end.

(** Successive calls of [getEmbedding]: [idle] ms pass before a call and
    [embedContent] answers its requests.  For each call, the clock readings
    at which its requests are sent. *)
Fixpoint request_times (g : gemini) (calls : list (Z * (Z → result (list float))))
  : list (list Z) :=
  match calls with
  | [] => []
  | (idle, embedContent) :: rest =>
      let g0 := elapse g idle in
      let '(g', _, events) := getEmbedding g0 embedContent in
      send_times (clock g0) events :: request_times g' rest
  end.

(** A provider that answers 429 to the first request and embeds at the
    second, and one that embeds at once. *)
Definition limited_once (attempt : Z) : result (list float) :=
  if attempt =? 1 then Err rate_limited else Ok [1%float].

Definition embeds_at_once (attempt : Z) : result (list float) := Ok [1%float].

(** What [getEmbeddingsBatch] does, in order: progress reports to the
    callback and the events of the embedding client. *)
Inductive batchEvent :=
| BatchProgress (current total estimatedRemainingSeconds : Z)
| BatchClient (e : event).

(** [Math.ceil(remainingRequests * estimatedTimePerRequest)], the time per
    request being [RATE_LIMIT.minDelayMs / 1000]. *)
Definition estimatedRemainingTime (remainingRequests : Z) : Z :=
  (remainingRequests * minDelayMs + 999) / 1000.

(** The [for] loop of [getEmbeddingsBatch] from index [i] on.  [provider i]
    answers the requests made for the text of index [i]; [onProgress] tells
    whether a callback was given. *)
Fixpoint getEmbeddingsBatch_loop (provider : Z → Z → result (list float))
    (onProgress : bool) (total : Z) (texts : list jsstring) (i : Z) (g : gemini)
    (results : list (option (list float))) (events : list batchEvent)
  : gemini * result (list (option (list float))) * list batchEvent :=
  match texts with
  | [] => (g, Ok results, events)
  | _ :: rest =>
      let remainingRequests := total - i in
      let events :=
        if onProgress
        then events ++ [BatchProgress (i + 1) total (estimatedRemainingTime remainingRequests)]
        else events in
      let '(g', embedding, requests) := getEmbedding g (provider i) in
      let events := events ++ (BatchClient <$> requests) in
      match embedding with
      | Ok embedding =>
          getEmbeddingsBatch_loop provider onProgress total rest (i + 1) g'
            (results ++ [embedding]) events
      | Err err => (g', Err err, events)
      end
  end.

Definition getEmbeddingsBatch (g : gemini) (provider : Z → Z → result (list float))
    (texts : list jsstring) (onProgress : bool)
  : gemini * result (list (option (list float))) * list batchEvent :=
  getEmbeddingsBatch_loop provider onProgress (Z.of_nat (length texts)) texts 0 g [] [].

(** The events of the embedding client in a trace of [getEmbeddingsBatch]. *)
Fixpoint client_events (events : list batchEvent) : list event :=
  match events with
  | [] => []
  | BatchClient e :: rest => e :: client_events rest
  | BatchProgress _ _ _ :: rest => client_events rest
  end.

(** The embedding requests of a trace, as the attempt numbers in order. *)
Fixpoint attempts_of (events : list event) : list Z :=
  match events with
  | [] => []
  | EvEmbedRequest attempt :: rest => attempt :: attempts_of rest
  | _ :: rest => attempts_of rest
  end.

(** The requests [getEmbedding] sends for the text of index [i]. *)
Definition attempts_for (provider : Z → Z → result (list float)) (i : Z) : list Z :=
  attempts_of (withRetry (provider i) 3).2.

Definition is_progress (e : batchEvent) : bool :=
  match e with
  | BatchProgress _ _ _ => true
  | BatchClient _ => false
  end.

(** The progress reports of a trace, as (current, total, seconds). *)
Fixpoint progress_reports (events : list batchEvent) : list (Z * Z * Z) :=
  match events with
  | [] => []
  | BatchProgress c t s :: rest => (c, t, s) :: progress_reports rest
  | BatchClient _ :: rest => progress_reports rest
  end.

(** A provider that embeds the first two texts and rejects the third. *)
Definition third_fails (i attempt : Z) : result (list float) :=
  if i <? 2 then Ok [Z_to_float i; 1%float] else Err bad_request.

(** The progress reports for the texts of index [i], ..., [i + m - 1]. *)
Definition progress_for (total i m : Z) : list (Z * Z * Z) :=
  (λ k, (k + 1, total, estimatedRemainingTime (total - k))) <$> seqZ i m.

(** What the embedding client makes of the requests for the text of index [i]. *)
Definition embedding_outcome (provider : Z → Z → result (list float)) (i : Z)
  : result (option (list float)) :=
  (withRetry (provider i) 3).1.


(* ===================================================================== *)
(** * lib/pdf.js : measures of the chunking loop                           *)
(* ===================================================================== *)

(** The total length of a list of sentences. *)
Definition sentences_length (sentences : list jsstring) : Z :=
  foldl (λ sum s, sum + js_length s) 0 sentences.

(** The longest chunk that the sentence loop can build: one sentence more
    than the overlap, each of at most [maxSize] units, and the joining
    spaces. *)
Definition chunk_bound (maxSize overlapSentences : Z) : Z :=
  (Z.max 1 overlapSentences + 1) * maxSize + Z.max 1 overlapSentences.

(** Three sentences of 800 units, separated by single spaces. *)
Definition three_full_sentences : jsstring :=
  sentence_of_length 800 ++ space ++ sentence_of_length 800 ++ space
    ++ sentence_of_length 800.

(** The invariant of the sentence loop of [chunkTextSemantic]: the chunks
    flushed so far are within [chunk_bound], the sentences of the current
    chunk are non-empty and at most [maxSize] long, [currentLength] is their
    total length, and either that total is within [maxSize] or the chunk holds
    no more than the overlap and one sentence. *)
Definition chunking_inv (maxSize overlapSentences : Z) (st : chunking) : Prop :=
  Forall (λ c, js_length c ≤ chunk_bound maxSize overlapSentences) (out_chunks st)
  ∧ Forall (λ s, 1 ≤ js_length s ≤ maxSize) (currentChunk st)
  ∧ currentLength st = sentences_length (currentChunk st)
  ∧ (currentLength st ≤ maxSize
     ∨ Z.of_nat (length (currentChunk st)) ≤ Z.max 1 overlapSentences + 1).


(* ===================================================================== *)
(** * lib/ocr.js : rendering a page for OCR                                *)
(* ===================================================================== *)

(** [s.split(',')]: the pieces between the commas. *)
Fixpoint split_comma (cur : jsstring) (s : jsstring) : list jsstring :=
  match s with
  | [] => [rev cur]
  | c :: s' =>
      if (c =? 44)%N then rev cur :: split_comma [] s'
      else split_comma (c :: cur) s'
  end.

(** The decimal literals [0.9], [0.1] and [0.3], rounded to binary64. *)
Definition quality_start : float := 0x1.ccccccccccccdp-1%float.
Definition quality_step : float := 0x1.999999999999ap-4%float.
Definition quality_floor : float := 0x1.3333333333333p-2%float.

(** [3.5 * 1024 * 1024] *)
Definition max_data_url_length : Z := 3670016.

(** [while (dataUrl.length > 3.5 * 1024 * 1024 && quality > 0.3)
      { quality -= 0.1; dataUrl = canvas.toDataURL('image/jpeg', quality); }]
    with one unit of fuel per iteration. *)
Fixpoint reduce_quality (fuel : nat) (toDataURL : float → jsstring)
    (quality : float) (dataUrl : jsstring) : option (float * jsstring) :=
  if (max_data_url_length <? js_length dataUrl) && (quality_floor <? quality)%float
  then
    match fuel with
    | O => None
    | S fuel' =>
        let quality' := (quality - quality_step)%float in
        reduce_quality fuel' toDataURL quality' (toDataURL quality')
    end
  else Some (quality, dataUrl).

Record renderedImage := mkRendered {
  ri_base64 : option jsstring;
  ri_mimeType : jsstring;
  ri_width : Z;
  ri_height : Z;
  ri_quality : float
}.

(** [renderPageToImage], from the canvas on which the page has been drawn:
    its size and its JPEG encoder [toDataURL quality]. *)
Definition renderPageToImage (fuel : nat) (canvas_width canvas_height : Z)
    (toDataURL : float → jsstring) : option renderedImage :=
  '(quality, dataUrl) ← reduce_quality fuel toDataURL quality_start
                          (toDataURL quality_start);
  Some {| ri_base64 := split_comma [] dataUrl !! 1%nat;
          ri_mimeType := js "image/jpeg";
          ri_width := canvas_width;
          ri_height := canvas_height;
          ri_quality := quality |}.

(** The qualities that the loop can reach: 0.9 and seven reductions by 0.1
    in binary64 arithmetic. *)
Definition reachable_qualities : list float :=
  [ quality_start;
    (quality_start - quality_step)%float;
    (quality_start - quality_step - quality_step)%float;
    (quality_start - quality_step - quality_step - quality_step)%float;
    (quality_start - quality_step - quality_step - quality_step - quality_step)%float;
    (quality_start - quality_step - quality_step - quality_step - quality_step
       - quality_step)%float;
    (quality_start - quality_step - quality_step - quality_step - quality_step
       - quality_step - quality_step)%float;
    (quality_start - quality_step - quality_step - quality_step - quality_step
       - quality_step - quality_step - quality_step)%float ].

(** An encoder whose output is always too large. *)
Definition oversized_encoder (quality : float) : jsstring :=
  js "data:image/jpeg;base64," ++ repeat 65%N (Z.to_nat 3670016).

(** A document whose second page has next to no text layer. *)
Definition scanned_second_page : pdfDoc := [text_page 120; text_page 10; text_page 120].

(** An OCR service that recognises every page, and one that refuses. *)
Definition recognised (n : Z) : result jsstring := Ok (js "scan").
Definition refused (n : Z) : result jsstring := Err {| message := Some (js "quota") |}.

(* ===================================================================== *)
(** * lib/db.js : categories, validation, key generators, export, import   *)
(* ===================================================================== *)

(** The name of the default category, three code units. *)
Definition uncategorized : jsstring := [26410; 20998; 39006]%N.

(** [d.category || uncategorized] *)
Definition category_of (d : document) : jsstring :=
  if truthy (doc_category d) then default uncategorized (doc_category d)
  else uncategorized.

Definition deleteCategory (st : db) (categoryName : jsstring) : db :=
  let allDocs := getAll (documents st) in
  let targetDocs := filter (λ kd, category_of kd.2 = categoryName) allDocs in
  foldl (λ st kd, deleteDocument st kd.1) st targetDocs.

(** [doc.category = newName] *)
Definition set_category (d : document) (newName : jsstring) : document :=
  {| doc_name := doc_name d;
     doc_category := Some newName;
     chunkCount := chunkCount d;
     embeddingDimension := embeddingDimension d |}.

(** One step of the cursor of [updateCategory]: the record under the cursor is
    replaced when its category is [oldName]. *)
Definition updateCategory_step (oldName newName : jsstring)
    (store : gmap N document) (kd : N * document) : gmap N document :=
  if decide (category_of kd.2 = oldName)
  then <[kd.1 := set_category kd.2 newName]> store
  else store.

(** The cursor visits the records in key order; an update replaces the value
    under the cursor only, so the records still to come are those of the
    store as it was when the cursor was opened. *)
Definition updateCategory (st : db) (oldName newName : jsstring) : db :=
  {| documents :=
       foldl (updateCategory_step oldName newName) (documents st)
         (getAll (documents st));
     chunks := chunks st;
     chatHistoryStore := chatHistoryStore st |}.

(** [c.embedding?.length], [None] for [undefined]. *)
Definition embedding_length (c : chunk) : option Z :=
  (λ e, Z.of_nat (length e)) <$> embedding c.

Record validation := mkValidation {
  valid : bool;
  found : option Z;
  expected : option Z;
  count : Z
}.

Definition validateEmbeddingDimension (st : db) (expectedDim : Z) : validation :=
  let all := getAll (chunks st) in
  if Z.of_nat (length all) =? 0
  then {| valid := true; found := None; expected := None; count := 0 |}
  else
    match list_find (λ kc, embedding_length kc.2 ≠ Some expectedDim) all with
    | Some (_, mismatch) =>
        {| valid := false;
           found := embedding_length mismatch.2;
           expected := Some expectedDim;
           count := Z.of_nat (length all) |}
    | None =>
        {| valid := true; found := None; expected := None;
           count := Z.of_nat (length all) |}
    end.

(** The database with the key generators of the stores [documents] and
    [chunks] ([autoIncrement: true]).  A generator holds the next key; it
    starts at 1 and neither [delete] nor [clear] lowers it. *)
Record database := mkDatabase {
  stores : db;
  nextDocumentKey : N;
  nextChunkKey : N;
  settingsStore : gmap jsstring (option jsstring)
}.

(** Every key in use was generated: the property that IndexedDB maintains
    for a store with a key generator. *)
Definition keys_generated (st : database) : Prop :=
  (1 ≤ nextDocumentKey st)%N
  ∧ (1 ≤ nextChunkKey st)%N
  ∧ (∀ k, is_Some (documents (stores st) !! k) → (k < nextDocumentKey st)%N)
  ∧ (∀ k, is_Some (chunks (stores st) !! k) → (k < nextChunkKey st)%N).

(** A chunk as [handleUploadProcess] hands it to [saveDocument]. *)
Record newChunk := mkNewChunk {
  nc_content : jsstring;
  nc_embedding : option (list float);
  nc_ocrUsed : bool
}.

(** [{ docId, content: chunk.content, embedding: chunk.embedding,
      metadata: chunk.metadata }] *)
Definition stored_chunk (id : N) (c : newChunk) : chunk :=
  {| docId := id; chunk_content := nc_content c;
     embedding := nc_embedding c; ocrUsed := nc_ocrUsed c |}.

(** [chunkStore.add(...)]: the record goes under the next key. *)
Definition add_chunk (id : N) (acc : gmap N chunk * N) (c : newChunk)
  : gmap N chunk * N :=
  (<[acc.2 := stored_chunk id c]> acc.1, (acc.2 + 1)%N).

(** [chunks[0]?.embedding?.length || 0] *)
Definition first_embedding_length (newChunks : list newChunk) : Z :=
  match newChunks with
  | c :: _ =>
      match nc_embedding c with
      | Some e => Z.of_nat (length e)
      | None => 0
      end
  | [] => 0
  end.

(** [category] is [None] when the argument is [undefined]. *)
Definition saveDocument (st : database) (name : jsstring) (category : option jsstring)
    (newChunks : list newChunk) : database * N :=
  let id := nextDocumentKey st in
  let doc := {| doc_name := name;
                doc_category := Some (default uncategorized category);
                chunkCount := Z.of_nat (length newChunks);
                embeddingDimension := first_embedding_length newChunks |} in
  let added := foldl (add_chunk id) (chunks (stores st), nextChunkKey st) newChunks in
  ({| stores := {| documents := <[id := doc]> (documents (stores st));
                   chunks := added.1;
                   chatHistoryStore := chatHistoryStore (stores st) |};
      nextDocumentKey := (id + 1)%N;
      nextChunkKey := added.2;
      settingsStore := settingsStore st |},
   id).

(** An operation of [db.js] that touches the stores only. *)
Definition on_stores (f : db → db) (st : database) : database :=
  {| stores := f (stores st);
     nextDocumentKey := nextDocumentKey st;
     nextChunkKey := nextChunkKey st;
     settingsStore := settingsStore st |}.

Definition clearAllData (st : database) : database :=
  on_stores (λ _, {| documents := ∅; chunks := ∅; chatHistoryStore := [] |}) st.

(** Keys of the store [settings] are strings, ordered by code units. *)
Fixpoint code_units_le (s t : jsstring) : bool :=
  match s, t with
  | [], _ => true
  | _ :: _, [] => false
  | a :: s', b :: t' => ((a <? b) || ((a =? b) && code_units_le s' t'))%N
  end.

Definition setting_le : relation (jsstring * option jsstring) :=
  λ x y, code_units_le x.1 y.1 = true.

#[global] Instance setting_le_dec (x y : jsstring * option jsstring) :
  Decision (setting_le x y) := bool_eq_dec (code_units_le x.1 y.1) true.

Definition settings_getAll (store : gmap jsstring (option jsstring))
  : list (jsstring * option jsstring) :=
  merge_sort setting_le (map_to_list store).

(** The [data] of an export file; a field is [None] when it is missing. *)
Record exportPayload := mkPayload {
  ex_documents : option (list (N * document));
  ex_chunks : option (list (N * chunk));
  ex_chatHistory : option (list chatMessage);
  ex_settings : option (list (jsstring * option jsstring))
}.

(** An export file; its [exportDate], a time stamp, is left out. *)
Record exportFile := mkExportFile {
  version : Z;
  data : option exportPayload
}.

Definition exportKnowledgeBase (st : database) : exportFile :=
  {| version := 2;
     data := Some {| ex_documents := Some (getAll (documents (stores st)));
                     ex_chunks := Some (getAll (chunks (stores st)));
                     ex_chatHistory := Some (chatHistoryStore (stores st));
                     ex_settings := Some (settings_getAll (settingsStore st)) |} |}.

Record importStats := mkImportStats {
  documentsImported : Z;
  chunksImported : Z;
  messagesImported : Z
}.

(** [const newId = await add(doc); idMap[oldId] = newId] *)
Definition import_document (acc : gmap N document * N * gmap N N)
    (entry : N * document) : gmap N document * N * gmap N N :=
  let '(store, next, idMap) := acc in
  (<[next := entry.2]> store, (next + 1)%N, <[entry.1 := next]> idMap).

(** [idMap[docId] || docId] *)
Definition mapped_docId (idMap : gmap N N) (id : N) : N :=
  match idMap !! id with
  | Some newId => if (newId =? 0)%N then id else newId
  | None => id
  end.

Definition import_chunk (idMap : gmap N N) (acc : gmap N chunk * N)
    (entry : N * chunk) : gmap N chunk * N :=
  (<[acc.2 := {| docId := mapped_docId idMap (docId entry.2);
                 chunk_content := chunk_content entry.2;
                 embedding := embedding entry.2;
                 ocrUsed := ocrUsed entry.2 |}]> acc.1,
   (acc.2 + 1)%N).

Definition invalid_import : jsError :=
  {| message := Some [28961; 25928; 30340; 21295; 20837; 36039; 26009; 26684; 24335]%N |}.

Definition importKnowledgeBase (st : database) (importData : option exportFile)
    (clearExisting : bool) : result (database * importStats) :=
  match importData ≫= data with
  | None => Err invalid_import
  | Some payload =>
      let st0 := if clearExisting then clearAllData st else st in
      let '(docStore, nextDoc, idMap) :=
        foldl import_document
          (documents (stores st0), nextDocumentKey st0, ∅)
          (default [] (ex_documents payload)) in
      let added :=
        foldl (import_chunk idMap) (chunks (stores st0), nextChunkKey st0)
          (default [] (ex_chunks payload)) in
      Ok ({| stores :=
               {| documents := docStore;
                  chunks := added.1;
                  chatHistoryStore :=
                    chatHistoryStore (stores st0)
                    ++ default [] (ex_chatHistory payload) |};
             nextDocumentKey := nextDoc;
             nextChunkKey := added.2;
             settingsStore :=
               foldl (λ store kv, <[kv.1 := kv.2]> store) (settingsStore st0)
                 (default [] (ex_settings payload)) |},
          {| documentsImported :=
               Z.of_nat (length (default [] (ex_documents payload)));
             chunksImported := Z.of_nat (length (default [] (ex_chunks payload)));
             messagesImported :=
               Z.of_nat (length (default [] (ex_chatHistory payload))) |})
  end.

(** [two_documents] with its key generators after three chunks and two
    documents. *)
Definition two_documents_db : database :=
  {| stores := two_documents; nextDocumentKey := 3; nextChunkKey := 4;
     settingsStore := ∅ |}.

(* ===================================================================== *)
(** * lib/pdf.js : [parsePDFSmart]; App.jsx : the upload                   *)
(* ===================================================================== *)

Record parseStats := mkParseStats {
  ps_totalPages : Z;
  ps_isImageBased : bool;
  ps_ocrUsed : bool;
  ps_ocrPages : Z;
  ps_textLayerPages : option Z
}.

Record parseResult := mkParseResult {
  pr_chunks : list jsstring;
  pr_stats : parseStats;
  pr_fullText : jsstring
}.

(** [fullText += content.items.map(item => item.str).join(' ') + '\n'] *)
Definition append_page (fullText : jsstring) (i : Z) (page : pdfPage) : jsstring :=
  fullText ++ join space (items page) ++ [10%N].

(** The text and the statistics that [parsePDFSmart] hands to the chunker. *)
Definition extract_text (d : pdfDoc) (groqApiKey : option jsstring)
    (ocrPage : Z → result jsstring) : result (jsstring * parseStats) :=
  detection ← detectImageBasedPDF d 3;
  if isImageBased detection && truthy groqApiKey
  then
    r ← hybridParsePDF d groqApiKey 100 999 ocrPage;
    Ok (fullText r,
        {| ps_totalPages := numPages d;
           ps_isImageBased := isImageBased detection;
           ps_ocrUsed := true;
           ps_ocrPages := ocrPages (stats r);
           ps_textLayerPages := Some (textLayerPages (stats r)) |})
  else
    text ← for_each_page d (numPages d) append_page [];
    Ok (text,
        {| ps_totalPages := numPages d;
           ps_isImageBased := isImageBased detection;
           ps_ocrUsed := false;
           ps_ocrPages := 0;
           ps_textLayerPages := None |}).

(** [parsePDFSmart] for a file that loads as [d].  The chunker runs with the
    defaults 800 and 2 and with the length of the text as fuel; the outer
    [None] means that the fuel did not suffice. *)
Definition parsePDFSmart (d : pdfDoc) (groqApiKey : option jsstring)
    (ocrPage : Z → result jsstring) : option (result parseResult) :=
  match extract_text d groqApiKey ocrPage with
  | Ok (text, parse_stats) =>
      chunks ← chunkTextSemantic (length text) text 800 2;
      Some (Ok {| pr_chunks := chunks; pr_stats := parse_stats; pr_fullText := text |})
  | Err e => Some (Err e)
  end.

(** The decimal digits of a number, most significant first. *)
Fixpoint uint_units (d : Decimal.uint) : jsstring :=
  match d with
  | Decimal.Nil => []
  | Decimal.D0 d' => 48%N :: uint_units d'
  | Decimal.D1 d' => 49%N :: uint_units d'
  | Decimal.D2 d' => 50%N :: uint_units d'
  | Decimal.D3 d' => 51%N :: uint_units d'
  | Decimal.D4 d' => 52%N :: uint_units d'
  | Decimal.D5 d' => 53%N :: uint_units d'
  | Decimal.D6 d' => 54%N :: uint_units d'
  | Decimal.D7 d' => 55%N :: uint_units d'
  | Decimal.D8 d' => 56%N :: uint_units d'
  | Decimal.D9 d' => 57%N :: uint_units d'
  end.

(** An integer inside a template literal. *)
Definition number_text (z : Z) : jsstring :=
  match z with
  | Z0 => [48%N]
  | Zpos p => uint_units (Pos.to_uint p)
  | Zneg p => 45%N :: uint_units (Pos.to_uint p)
  end.

(** The message of the error thrown when the parser returns no chunk. *)
Definition no_text_error : jsError :=
  {| message :=
       Some ([28961; 27861; 24478; 32]%N ++ js "PDF"
             ++ [32; 25552; 21462; 25991; 23383; 65288; 25991; 23383; 23652; 28858;
                 31354; 19988; 32]%N
             ++ js "OCR" ++ [32; 22833; 25943; 65289]%N) |}.

(** The banner after a successful upload, with the OCR note when OCR was
    used. *)
Definition upload_success (chunkTotal : Z) (parse_stats : parseStats) : statusBanner :=
  {| status_type := status_success;
     status_message :=
       [34389; 29702; 23436; 25104; 65281; 20849; 32]%N ++ number_text chunkTotal
       ++ [32; 20491; 21312; 22602]%N
       ++ (if ps_ocrUsed parse_stats
           then js " (OCR: " ++ number_text (ps_ocrPages parse_stats) ++ [32; 38913; 41]%N
           else []) |}.

(** The banner of the [catch] branch. *)
Definition upload_failure (e : jsError) : statusBanner :=
  {| status_type := status_error;
     status_message := [37679; 35492; 58; 32]%N ++ message_text e |}.

(** What an upload reads and writes: the React state [documents],
    [isProcessing] and [status], the database, the embedding client, and the
    trace of the batch embedding. *)
Record uploadState := mkUpload {
  up_documents : list (N * document);
  up_isProcessing : bool;
  up_status : statusBanner;
  up_database : database;
  up_embedder : gemini;
  up_log : list batchEvent
}.

(** [textChunks.map((text, i) => ({ content: text, embedding: embeddings[i],
      metadata: { fileName, ocrUsed } }))]; a missing [embeddings[i]] is
    [undefined]. *)
Definition processed_chunks (textChunks : list jsstring)
    (embeddings : list (option (list float))) (ocr : bool) : list newChunk :=
  imap (λ i text, {| nc_content := text;
                     nc_embedding := mjoin (embeddings !! i);
                     nc_ocrUsed := ocr |}) textChunks.

(** [handleUploadProcess(file, category)] for a file named [fileName] that
    loads as [d].  The banners shown while the upload runs are overwritten
    at its end and are left out. *)
Definition handleUploadProcess (d : pdfDoc) (fileName : jsstring)
    (category groqApiKey : option jsstring) (ocrPage : Z → result jsstring)
    (provider : Z → Z → result (list float)) (st : uploadState) : option uploadState :=
  parsed ← parsePDFSmart d groqApiKey ocrPage;
  let failed (e : jsError) (client : gemini) (events : list batchEvent) :=
    {| up_documents := up_documents st;
       up_isProcessing := false;
       up_status := upload_failure e;
       up_database := up_database st;
       up_embedder := client;
       up_log := up_log st ++ events |} in
  Some
    match parsed with
    | Err e => failed e (up_embedder st) []
    | Ok result =>
        let textChunks := pr_chunks result in
        if Z.of_nat (length textChunks) =? 0
        then failed no_text_error (up_embedder st) []
        else
          let '(client, embeddings, events) :=
            getEmbeddingsBatch (up_embedder st) provider textChunks true in
          match embeddings with
          | Err e => failed e client events
          | Ok embeddings =>
              let processed :=
                processed_chunks textChunks embeddings (ps_ocrUsed (pr_stats result)) in
              let saved := (saveDocument (up_database st) fileName category processed).1 in
              {| up_documents := getAll (documents (stores saved));
                 up_isProcessing := false;
                 up_status :=
                   upload_success (Z.of_nat (length processed)) (pr_stats result);
                 up_database := saved;
                 up_embedder := client;
                 up_log := up_log st ++ events |}
          end
    end.

(* ===================================================================== *)
(** * lib/groq.js : page analysis; PDFPageAnalyzer.jsx : the two modes     *)
(* ===================================================================== *)

(** The four checks that [chatWithPDFPages] makes before it sends anything;
    each rejection stands for the [Error] thrown with its message. *)
Inductive pagesRejection :=
| NotInitialized
| NoPageSelected
| TooManyPages
| PayloadTooLarge (totalSize : Z).

(** [images.reduce((sum, img) => sum + (img.base64?.length || 0), 0)] *)
Definition totalSize (images : list pageImage) : Z :=
  foldl (λ sum img, sum + base64_length img) 0 images.

(** [None]: the request is made.  [3.5 * 1024 * 1024] is 3670016. *)
Definition chatWithPDFPages_checks (groqApiKey : option jsstring)
    (images : list pageImage) : option pagesRejection :=
  if negb (truthy groqApiKey) then Some NotInitialized
  else if Z.of_nat (length images) =? 0 then Some NoPageSelected
  else if 5 <? Z.of_nat (length images) then Some TooManyPages
  else if 3670016 <? totalSize images then Some (PayloadTooLarge (totalSize images))
  else None.

(** The state of the page analyzer that matters for the mode: the captured
    pages by page number, and the selection. *)
Record analyzer := mkAnalyzer {
  pageImages : gmap N jsstring;
  selectedPages : list N
}.

(** [Object.values(pageImages).reduce((s, b) => s + (b?.length || 0), 0)
      / 1024 / 1024] *)
Definition totalSizeMB (st : analyzer) : Q :=
  inject_Z (foldl (λ s b, s + js_length b) 0 (getAll (pageImages st)).*2) / 1024 / 1024.

(** [totalSizeMB > 3.0 || selectedPages.length > 5] *)
Definition needsBatchMode (st : analyzer) : bool :=
  Qgtb (totalSizeMB st) 3 || (5 <? Z.of_nat (length (selectedPages st))).

(** [selectedPages.map(pageNum => ({ pageNum, base64: pageImages[pageNum],
      mimeType: 'image/jpeg' }))] *)
Definition selected_images (st : analyzer) : list pageImage :=
  (λ p, {| pageNum := Z.of_N p;
           base64 := pageImages st !! p;
           mimeType := Some (js "image/jpeg") |}) <$> selectedPages st.

Inductive analysisRoute :=
| NotSent
| BatchMode (images : list pageImage)
| SingleRequest (images : list pageImage).

(** What [handleSend] does with a message: nothing when the input is blank,
    no page is selected or an analysis is running; otherwise one of the two
    modes. *)
Definition handleSend_route (input : jsstring) (isProcessing : bool) (st : analyzer)
  : analysisRoute :=
  if (js_length (trim input) =? 0)
     || (Z.of_nat (length (selectedPages st)) =? 0)
     || isProcessing
  then NotSent
  else if needsBatchMode st then BatchMode (selected_images st)
  else SingleRequest (selected_images st).

(** The result of [analyzeBatch]. *)
Record batchResult := mkBatchResult {
  batchIndex : Z;
  br_pages : list Z;
  summary : jsstring
}.

Inductive progressStage :=
| StageStart (totalBatches : Z)
| StageBatch (current totalBatches : Z) (pages : list Z)
| StageSynthesize
| StageComplete.

(** What a batch analysis does, in order: progress reports, the timeouts
    awaited in [waitForRateLimit], requests to the vision model and the
    arrival of their answers (or failures) [ms] later, the pauses between
    batches, the final synthesis request. *)
Inductive analysisEvent :=
| AnProgress (stage : progressStage)
| AnRateLimitWait (ms : Z)
| AnBatchRequest (batchIndex totalBatches : Z) (pages : list Z)
| AnResponse (ms : Z)
| AnSleep (ms : Z)
| AnSynthesisRequest (batchResults : list batchResult).

(** 'Groq 未初始化' *)
Definition groq_not_initialized : jsError :=
  {| message := Some (js "Groq " ++ [26410; 21021; 22987; 21270]%N) |}.

(** The model behind the two requests: [vision images batchIndex] is the
    summary returned for a batch, [synthesis batchResults] the final answer;
    either may fail.  [vision_ms] and [synthesis_ms] tell how long the model
    takes to answer or to fail. *)
Record visionServices := mkVision {
  vision : list pageImage → Z → result jsstring;
  synthesis : list batchResult → result jsstring;
  vision_ms : list pageImage → Z → Z;
  synthesis_ms : list batchResult → Z
}.

(** The module state of groq.js. *)
Module Groq.

(** [groqApiKey], [RATE_LIMIT.lastRequestTime], and [clock] for what
    [Date.now()] returns: an awaited timeout of [ms] and an answer that takes
    [ms] advance it by [ms]. *)
Record client := mkClient {
  groqApiKey : option jsstring;
  lastRequestTime : Z;
  clock : Z
}.

Definition minDelayMs : Z := 2000.

Definition elapse (g : client) (ms : Z) : client :=
  {| groqApiKey := groqApiKey g; lastRequestTime := lastRequestTime g;
     clock := clock g + ms |}.

Definition waitForRateLimit (g : client) : client * list analysisEvent :=
  let now := clock g in
  let timeSinceLastRequest := now - lastRequestTime g in
  let '(now', log) :=
    if timeSinceLastRequest <? minDelayMs
    then (now + (minDelayMs - timeSinceLastRequest),
          [AnRateLimitWait (minDelayMs - timeSinceLastRequest)])
    else (now, []) in
  ({| groqApiKey := groqApiKey g; lastRequestTime := now'; clock := now' |}, log).

(** A client with its key set that has not sent anything yet. *)
Definition fresh : client :=
  {| groqApiKey := Some (js "gsk"); lastRequestTime := 0; clock := 100000 |}.

End Groq.

Definition analyzeBatch (g : Groq.client) (svc : visionServices)
    (images : list pageImage) (index totalBatches : Z)
  : Groq.client * result batchResult * list analysisEvent :=
  if negb (truthy (Groq.groqApiKey g)) then (g, Err groq_not_initialized, [])
  else
    let '(g', waits) := Groq.waitForRateLimit g in
    let ms := vision_ms svc images index in
    (Groq.elapse g' ms,
     summary ← vision svc images index;
     Ok {| batchIndex := index; br_pages := pageNum <$> images; summary := summary |},
     waits ++ [AnBatchRequest index totalBatches (pageNum <$> images); AnResponse ms]).

(** [batchResults.sort((a, b) => a.batchIndex - b.batchIndex)], in place. *)
Fixpoint insert_by_index (x : batchResult) (l : list batchResult) : list batchResult :=
  match l with
  | [] => [x]
  | y :: l' =>
      if 0 <? batchIndex x - batchIndex y then y :: insert_by_index x l' else x :: l
  end.

Definition sort_by_index (l : list batchResult) : list batchResult :=
  foldr insert_by_index [] l.

(** The answer and the array as the sort has left it. *)
Definition synthesizeBatchResults (g : Groq.client) (svc : visionServices)
    (batchResults : list batchResult)
  : Groq.client * result jsstring * list batchResult * list analysisEvent :=
  if negb (truthy (Groq.groqApiKey g)) then (g, Err groq_not_initialized, batchResults, [])
  else
    let '(g', waits) := Groq.waitForRateLimit g in
    let sorted := sort_by_index batchResults in
    let ms := synthesis_ms svc sorted in
    (Groq.elapse g' ms, synthesis svc sorted, sorted,
     waits ++ [AnSynthesisRequest sorted; AnResponse ms]).

(** The loop over the batches, from index [i] on. *)
Fixpoint analyze_batches (g : Groq.client) (svc : visionServices)
    (onProgress : bool) (total : Z) (todo : list (list pageImage)) (i : Z)
    (batchResults : list batchResult) (events : list analysisEvent)
  : Groq.client * result (list batchResult) * list analysisEvent :=
  match todo with
  | [] => (g, Ok batchResults, events)
  | batch :: rest =>
      let events :=
        if onProgress
        then events ++ [AnProgress (StageBatch (i + 1) total (pageNum <$> batch))]
        else events in
      let '(g', outcome, requests) := analyzeBatch g svc batch i total in
      match outcome with
      | Err e => (g', Err e, events ++ requests)
      | Ok r =>
          let '(g', pause) :=
            if i <? total - 1 then (Groq.elapse g' 2000, [AnSleep 2000]) else (g', []) in
          analyze_batches g' svc onProgress total rest (i + 1)
            (batchResults ++ [r]) (events ++ requests ++ pause)
      end
  end.

Record batchAnalysis := mkBatchAnalysis {
  response : jsstring;
  ba_batchResults : list batchResult;
  totalBatches : Z
}.

Definition batchAnalyzePDFPages (g : Groq.client) (svc : visionServices)
    (images : list pageImage) (onProgress : bool)
  : Groq.client * result batchAnalysis * list analysisEvent :=
  let batches := createBatches images 3 5 in
  let total := Z.of_nat (length batches) in
  let events := if onProgress then [AnProgress (StageStart total)] else [] in
  let '(g', analysed, events) :=
    analyze_batches g svc onProgress total batches 0 [] events in
  match analysed with
  | Err e => (g', Err e, events)
  | Ok batchResults =>
      let events :=
        if onProgress then events ++ [AnProgress StageSynthesize] else events in
      let '(g', answer, sorted, requests) :=
        synthesizeBatchResults g' svc batchResults in
      match answer with
      | Err e => (g', Err e, events ++ requests)
      | Ok finalResponse =>
          (g',
           Ok {| response := finalResponse;
                 ba_batchResults := sorted;
                 totalBatches := total |},
           events ++ requests
           ++ (if onProgress then [AnProgress StageComplete] else []))
      end
  end.

(** The requests of a trace and the pauses between the batches; progress
    reports, the waits of the rate limiter and the arrivals of the answers
    are left out. *)
Definition is_request (e : analysisEvent) : bool :=
  match e with
  | AnBatchRequest _ _ _ | AnSleep _ | AnSynthesisRequest _ => true
  | _ => false
  end.

Definition requests_of (events : list analysisEvent) : list analysisEvent :=
  filter (λ e, is_request e = true) events.

(** The time that a trace takes: the timeouts awaited and the time spent
    waiting for answers. *)
Fixpoint elapsed (events : list analysisEvent) : Z :=
  match events with
  | [] => 0
  | AnRateLimitWait ms :: rest | AnResponse ms :: rest | AnSleep ms :: rest =>
      ms + elapsed rest
  | _ :: rest => elapsed rest
  end.

(** The clock readings at which the requests of a trace are sent, the trace
    starting when the clock shows [now]. *)
Fixpoint sent_at (now : Z) (events : list analysisEvent) : list Z :=
  match events with
  | [] => []
  | AnRateLimitWait ms :: rest | AnResponse ms :: rest | AnSleep ms :: rest =>
      sent_at (now + ms) rest
  | AnBatchRequest _ _ _ :: rest | AnSynthesisRequest _ :: rest =>
      now :: sent_at now rest
  | AnProgress _ :: rest => sent_at now rest
  end.

(** Every request is sent at least [minDelayMs] after the one before it, the
    first one at least [minDelayMs] after [last]. *)
Fixpoint paced (last : Z) (times : list Z) : bool :=
  match times with
  | [] => true
  | t :: rest => (last + Groq.minDelayMs <=? t) && paced t rest
  end.

(** The time of the last request sent, [last] if there is none. *)
Fixpoint last_sent (last : Z) (times : list Z) : Z :=
  match times with
  | [] => last
  | t :: rest => last_sent t rest
  end.

(** The trace [events] takes the client from [g] to [g']: the clock has
    moved on by the time the trace takes, the requests are paced, and
    [lastRequestTime] is the time of the last request. *)
Definition paced_run (g : Groq.client) (events : list analysisEvent) (g' : Groq.client)
  : Prop :=
  Groq.clock g' = Groq.clock g + elapsed events
  ∧ paced (Groq.lastRequestTime g) (sent_at (Groq.clock g) events) = true
  ∧ Groq.lastRequestTime g'
    = last_sent (Groq.lastRequestTime g) (sent_at (Groq.clock g) events)
  ∧ Groq.groqApiKey g' = Groq.groqApiKey g.

(** The requests of a complete analysis of the batches [todo], the first of
    which has index [i]: one request per batch, a pause of two seconds after
    every batch but the last. *)
Fixpoint batch_requests (total : Z) (todo : list (list pageImage)) (i : Z)
  : list analysisEvent :=
  match todo with
  | [] => []
  | batch :: rest =>
      AnBatchRequest i total (pageNum <$> batch)
        :: (if i <? total - 1 then [AnSleep 2000] else [])
        ++ batch_requests total rest (i + 1)
  end.

(** The batch results of a complete analysis. *)
Fixpoint batch_results (summaries : list jsstring) (todo : list (list pageImage)) (i : Z)
  : list batchResult :=
  match summaries, todo with
  | s :: summaries', batch :: rest =>
      {| batchIndex := i; br_pages := pageNum <$> batch; summary := s |}
        :: batch_results summaries' rest (i + 1)
  | _, _ => []
  end.

(** A vision model that answers every request, a batch within half a
    second and the synthesis within three seconds. *)
Definition answering : visionServices :=
  {| vision := λ _ _, Ok (js "summary"); synthesis := λ _, Ok (js "answer");
     vision_ms := λ _ _, 500; synthesis_ms := λ _, 3000 |}.

(** Seven captured pages of 1000 units each, all selected. *)
Definition seven_pages : analyzer :=
  {| pageImages := list_to_map ((λ p, (p, repeat 65%N 1000)) <$> [1; 2; 3; 4; 5; 6; 7]%N);
     selectedPages := [1; 2; 3; 4; 5; 6; 7]%N |}.

(** Two captured pages of 1000 units each, both selected. *)
Definition two_pages : analyzer :=
  {| pageImages := list_to_map ((λ p, (p, repeat 65%N 1000)) <$> [1; 2]%N);
     selectedPages := [1; 2]%N |}.

(* ===================================================================== *)
(** * Properties of the chunking engine                                    *)
(* ===================================================================== *)

Section Chunking.

Lemma drop_while_length {A} (p : A → bool) (l : list A) :
  (length (drop_while p l) ≤ length l)%nat.
Proof. induction l as [|x l IH]; simpl; [lia|]. destruct (p x); simpl; lia. Qed.

Lemma trim_length (s : jsstring) : js_length (trim s) ≤ js_length s.
Proof.
  unfold js_length, trim, trimEnd, trimStart. rewrite length_rev.
  pose proof (drop_while_length is_space (rev (drop_while is_space s))) as H1.
  pose proof (drop_while_length is_space s) as H2.
  rewrite length_rev in H1. lia.
Qed.

Lemma replace_runs_length (p : N → bool) (r : N) (b : bool) (s : jsstring) :
  (length (replace_runs p r b s) ≤ length s)%nat.
Proof.
  revert b. induction s as [|c s IH]; intros b; simpl; [lia|].
  pose proof (IH true). pose proof (IH false).
  destruct (p c); [destruct b|]; simpl; lia.
Qed.

Lemma clean_text_length (text : jsstring) : js_length (clean_text text) ≤ js_length text.
Proof.
  unfold clean_text. etrans; [apply trim_length|]. unfold js_length.
  pose proof (replace_runs_length (N.eqb 10) 10%N false
                (replace_runs is_space 32%N false text)).
  pose proof (replace_runs_length is_space 32%N false text). lia.
Qed.

Lemma match_sentences_length (cur s : jsstring) :
  Forall (λ m, (length m ≤ length cur + length s)%nat) (match_sentences cur s).
Proof.
  revert cur. induction s as [|c s IH]; intros cur; cbn [match_sentences].
  - destruct cur as [|x cur]; [constructor|].
    constructor; [|constructor]. rewrite length_rev. lia.
  - destruct (is_terminator c).
    + destruct cur as [|x cur].
      * eapply Forall_impl; [apply IH|]. cbn [length]. intros; lia.
      * constructor.
        -- rewrite length_rev. cbn [length]. lia.
        -- eapply Forall_impl; [apply IH|]. cbn [length]. intros; lia.
    + eapply Forall_impl; [apply IH|]. cbn [length]. intros; lia.
Qed.

Lemma split_sentences_length (cleanedText : jsstring) :
  Forall (λ m, js_length m ≤ js_length cleanedText) (split_sentences cleanedText).
Proof.
  unfold split_sentences.
  pose proof (match_sentences_length [] cleanedText) as H.
  destruct (match_sentences [] cleanedText) as [|m ms].
  - by constructor.
  - eapply Forall_impl; [exact H|]. unfold js_length. simpl. intros; lia.
Qed.

(** ** Forced splits finish when [maxSize] is at least 98 *)

Lemma find_break_progress (sentence : jsstring) (start maxSize end_ : Z) (bps : list N) :
  98 ≤ maxSize → start + maxSize ≤ end_ →
  start + overlap < find_break sentence start maxSize end_ bps.
Proof.
  unfold overlap. intros Hmax Hend.
  induction bps as [|bp bps IH]; simpl; [lia|].
  destruct (Z.ltb_spec (2 * start + maxSize) (2 * lastIndexOf sentence bp end_)); lia.
Qed.

Lemma chunkLongSentence_loop_terminates (fuel : nat) (sentence : jsstring)
    (maxSize start : Z) (chunks : list jsstring) :
  98 ≤ maxSize → js_length sentence - start ≤ Z.of_nat fuel →
  is_Some (chunkLongSentence_loop fuel sentence maxSize start chunks).
Proof.
  intros Hmax. revert start chunks.
  induction fuel as [|fuel IH]; intros start chunks Hfuel;
    cbn [chunkLongSentence_loop].
  - destruct (Z.ltb_spec start (js_length sentence)); [lia | done].
  - destruct (Z.ltb_spec start (js_length sentence)); [|done].
    apply IH.
    destruct (Z.ltb_spec (start + maxSize) (js_length sentence)).
    + pose proof (find_break_progress sentence start maxSize (start + maxSize)
                    breakPoints Hmax ltac:(lia)).
      unfold overlap in *. lia.
    + unfold overlap. lia.
Qed.

Lemma chunk_step_terminates (fuel : nat) (maxSize overlapSentences : Z)
    (st : chunking) (raw : jsstring) :
  98 ≤ maxSize → js_length raw ≤ Z.of_nat fuel →
  is_Some (chunk_step fuel maxSize overlapSentences st raw).
Proof.
  intros Hmax Hfuel. unfold chunk_step.
  destruct (js_length (trim raw) =? 0); [done|].
  destruct (maxSize <? js_length (trim raw)); [|done].
  destruct (chunkLongSentence_loop_terminates fuel (trim raw) maxSize 0 [] Hmax)
    as [subChunks Hsub].
  { pose proof (trim_length raw). lia. }
  unfold chunkLongSentence. rewrite Hsub. done.
Qed.

Lemma chunk_loop_terminates (fuel : nat) (maxSize overlapSentences : Z)
    (sentences : list jsstring) (st : chunking) :
  98 ≤ maxSize →
  Forall (λ raw, js_length raw ≤ Z.of_nat fuel) sentences →
  is_Some (chunk_loop fuel maxSize overlapSentences sentences st).
Proof.
  intros Hmax Hall. revert st.
  induction Hall as [|raw rest Hraw Hrest IH]; intros st; simpl; [done|].
  destruct (chunk_step_terminates fuel maxSize overlapSentences st raw Hmax Hraw)
    as [st' Hst'].
  rewrite Hst'. simpl. apply IH.
Qed.

(** The chunker returns for every text once [maxSize] is at least 98 (the
    default is 800): a forced split then advances by at least one unit per
    iteration, so fuel equal to the length of the text is enough. *)
Lemma chunkTextSemantic_terminates (text : jsstring) (maxSize overlapSentences : Z) :
  98 ≤ maxSize →
  is_Some (chunkTextSemantic (length text) text maxSize overlapSentences).
Proof.
  intros Hmax. unfold chunkTextSemantic.
  destruct (js_length (clean_text text) =? 0); [done|].
  destruct (chunk_loop_terminates (length text) maxSize overlapSentences
              (split_sentences (clean_text text))
              {| out_chunks := []; currentChunk := []; currentLength := 0 |} Hmax)
    as [st Hst].
  { eapply Forall_impl; [apply split_sentences_length|]. simpl.
    intros m Hm. pose proof (clean_text_length text). unfold js_length in *. lia. }
  rewrite Hst. done.
Qed.

(** Every chunk that the chunker returns has passed the final filter: its
    trimmed length exceeds 50. *)
Lemma chunkTextSemantic_long_enough (fuel : nat) (text : jsstring)
    (maxSize overlapSentences : Z) (chunks : list jsstring) :
  chunkTextSemantic fuel text maxSize overlapSentences = Some chunks →
  Forall (λ chunk, 50 < js_length (trim chunk)) chunks.
Proof.
  unfold chunkTextSemantic.
  destruct (js_length (clean_text text) =? 0).
  { intros [= <-]. constructor. }
  destruct (chunk_loop _ _ _ _ _) as [st|]; simpl; [|done].
  intros [= <-]. apply Forall_forall. intros chunk Hin.
  by apply list_elem_of_filter in Hin as [Hlong _].
Qed.

(** C2.  The code at the failing input: three sentences of 600 units under
    the default limits (maxSize 800, two sentences of overlap).  No sentence
    is longer than [maxSize], so no forced split takes place (the run needs
    no fuel), yet the chunks returned have 600, 1201 and 1802 units: the two
    sentences carried over as overlap are not counted against [maxSize]
    before the next sentence is added, nor are the joining spaces. *)
Theorem chunkTextSemantic_overlap_exceeds_maxSize :
  Forall (λ raw, js_length (trim raw) ≤ 800) (split_sentences (clean_text three_sentences))
  ∧ ∃ chunks,
      chunkTextSemantic 0 three_sentences 800 2 = Some chunks
      ∧ map js_length chunks = [600; 1201; 1802]
      ∧ Forall (λ chunk, 50 < js_length (trim chunk)) chunks
      ∧ Exists (λ chunk, 800 + 800 < js_length chunk) chunks.
Proof.
  split.
  - apply Forall_forall. intros raw Hin. revert raw Hin. apply Forall_forall.
    vm_compute. repeat constructor; discriminate.
  - destruct (chunkTextSemantic 0 three_sentences 800 2) as [chunks|] eqn:E;
      [|vm_compute in E; discriminate].
    exists chunks. split; [done|].
    pose proof (chunkTextSemantic_long_enough _ _ _ _ _ E) as Hlong.
    assert (Hlen : map js_length chunks = [600; 1201; 1802]).
    { vm_compute in E. injection E as <-. vm_compute. reflexivity. }
    split; [done|]. split; [done|].
    destruct chunks as [|c1 [|c2 [|c3 [|]]]]; try discriminate.
    injection Hlen as H1 H2 H3.
    apply Exists_cons_tl, Exists_cons_tl, Exists_cons_hd. lia.
Qed.

End Chunking.

(* ===================================================================== *)
(** * Properties of the cosine similarity                                  *)
(* ===================================================================== *)

Section Rounding.

(** The rounding of [SpecFloat], read on integers: what is needed to show
    that a quotient is 1 only when the operands are equal. *)

Lemma digits2_pos_bounds (p : positive) :
  2 ^ (Z.pos (digits2_pos p) - 1) <= Z.pos p < 2 ^ Z.pos (digits2_pos p).
Proof.
  induction p as [p IH|p IH|]; cbn [digits2_pos]; rewrite ?Pos2Z.inj_succ.
  - replace (Z.succ (Z.pos (digits2_pos p)) - 1) with (Z.succ (Z.pos (digits2_pos p) - 1)) by lia.
    rewrite !Z.pow_succ_r by lia. lia.
  - replace (Z.succ (Z.pos (digits2_pos p)) - 1) with (Z.succ (Z.pos (digits2_pos p) - 1)) by lia.
    rewrite !Z.pow_succ_r by lia. lia.
  - cbn. lia.
Qed.

Lemma Zdigits2_bounds (q : Z) :
  0 < q -> 0 < Zdigits2 q /\ 2 ^ (Zdigits2 q - 1) <= q < 2 ^ Zdigits2 q.
Proof.
  destruct q as [|p|p]; try lia. intros _. cbn [Zdigits2].
  split; [lia | apply digits2_pos_bounds].
Qed.

Lemma shr_1_located (N D : Z) (mrs : shr_record) :
  0 < D -> 0 <= shr_m mrs ->
  located N D (shr_m mrs) (loc_of_shr_record mrs) ->
  located N (2 * D) (shr_m (shr_1 mrs)) (loc_of_shr_record (shr_1 mrs))
  /\ shr_m (shr_1 mrs) = shr_m mrs / 2.
Proof.
  intros HD Hm. destruct mrs as [m r s]. cbn [shr_m] in *.
  destruct m as [|[p|p|]|p]; try lia; destruct r, s;
    cbn [shr_1 shr_m loc_of_shr_record located orb]; intros H;
    (split; [lia|]);
    first [ reflexivity
          | apply (Z.div_unique _ 2 _ 0); lia
          | apply (Z.div_unique _ 2 _ 1); lia ].
Qed.

Lemma iter_pos_nat {A} (f : A -> A) (p : positive) :
  forall x, SpecFloat.iter_pos f p x = Nat.iter (Pos.to_nat p) f x.
Proof.
  induction p as [p IH|p IH|]; intros x; cbn [SpecFloat.iter_pos].
  - rewrite !IH, Pos2Nat.inj_xI.
    replace (S (2 * Pos.to_nat p)) with (Pos.to_nat p + (Pos.to_nat p + 1))%nat by lia.
    rewrite !Nat.iter_add. reflexivity.
  - rewrite !IH, Pos2Nat.inj_xO.
    replace (2 * Pos.to_nat p)%nat with (Pos.to_nat p + Pos.to_nat p)%nat by lia.
    rewrite Nat.iter_add. reflexivity.
  - reflexivity.
Qed.

Lemma iter_shr_1_located (N : Z) (n : nat) (D : Z) (mrs : shr_record) :
  0 < D -> 0 <= shr_m mrs ->
  located N D (shr_m mrs) (loc_of_shr_record mrs) ->
  located N (2 ^ Z.of_nat n * D) (shr_m (Nat.iter n shr_1 mrs))
    (loc_of_shr_record (Nat.iter n shr_1 mrs))
  /\ shr_m (Nat.iter n shr_1 mrs) = shr_m mrs / 2 ^ Z.of_nat n.
Proof.
  intros HD Hm Hloc. induction n as [|n [IH1 IH2]].
  - change (Nat.iter 0 shr_1 mrs) with mrs. cbn [Z.of_nat]. rewrite Z.pow_0_r, Z.mul_1_l, Z.div_1_r. auto.
  - change (Nat.iter (S n) shr_1 mrs) with (shr_1 (Nat.iter n shr_1 mrs)).
    assert (Hp : 0 < 2 ^ Z.of_nat n) by (apply Z.pow_pos_nonneg; lia).
    assert (Hm' : 0 <= shr_m (Nat.iter n shr_1 mrs)).
    { rewrite IH2. apply Z.div_pos; lia. }
    destruct (shr_1_located N (2 ^ Z.of_nat n * D) _ ltac:(nia) Hm' IH1) as [H1 H2].
    rewrite Nat2Z.inj_succ, Z.pow_succ_r by lia. split.
    + replace (2 * 2 ^ Z.of_nat n * D) with (2 * (2 ^ Z.of_nat n * D)) by ring. exact H1.
    + rewrite H2, IH2, Z.div_div by lia. f_equal. ring.
Qed.

(** What [shr] does to a located value. *)
Lemma shr_located (N D m : Z) (l : location) (e n : Z) :
  0 < D -> 0 <= m -> located N D m l ->
  let k := Z.max n 0 in
  snd (shr (shr_record_of_loc m l) e n) = e + k
  /\ shr_m (fst (shr (shr_record_of_loc m l) e n)) = m / 2 ^ k
  /\ located N (2 ^ k * D) (shr_m (fst (shr (shr_record_of_loc m l) e n)))
       (loc_of_shr_record (fst (shr (shr_record_of_loc m l) e n))).
Proof.
  intros HD Hm Hloc k.
  assert (Hrec : shr_m (shr_record_of_loc m l) = m
                 /\ loc_of_shr_record (shr_record_of_loc m l) = l).
  { destruct l as [|[| |]]; split; reflexivity. }
  destruct Hrec as [Em El].
  unfold shr. destruct n as [|p|p]; cbn [fst snd]; subst k.
  - rewrite Z.max_r, Z.pow_0_r, Z.mul_1_l, Z.div_1_r, Em, El, Z.add_0_r by lia. auto.
  - rewrite Z.max_l by lia. rewrite iter_pos_nat.
    destruct (iter_shr_1_located N (Pos.to_nat p) D (shr_record_of_loc m l) HD
                ltac:(rewrite Em; exact Hm) ltac:(rewrite Em, El; exact Hloc)) as [H1 H2].
    rewrite positive_nat_Z, Em in *. auto.
  - rewrite Z.max_r, Z.pow_0_r, Z.mul_1_l, Z.div_1_r, Em, El, Z.add_0_r by lia. auto.
Qed.

Lemma new_location_located (my q r : Z) :
  0 < my -> 0 <= r < my -> located (q * my + r) my q (new_location my r).
Proof.
  intros Hmy Hr. unfold new_location, new_location_even, new_location_odd.
  destruct (Z.even my) eqn:Heven.
  - destruct (Z.eqb_spec r 0) as [->|Hr0]; cbn [located]; [lia|].
    destruct (Z.compare_spec (2 * r) my); cbn [located]; lia.
  - assert (Hodd : Z.odd my = true) by (rewrite <- Z.negb_even, Heven; reflexivity).
    apply Z.odd_spec in Hodd as [h Hh].
    destruct (Z.eqb_spec r 0) as [->|Hr0]; cbn [located]; [lia|].
    destruct (Z.compare_spec (2 * r + 1) my); cbn [located]; lia.
Qed.

Lemma round_nearest_even_located (N D m : Z) (l : location) :
  0 < D -> located N D m l ->
  (round_nearest_even m l = m /\ m * D <= N /\ 2 * N <= (2 * m + 1) * D)
  \/ (round_nearest_even m l = m + 1 /\ (2 * m + 1) * D <= 2 * N /\ N < (m + 1) * D).
Proof.
  intros HD. destruct l as [|[| |]]; cbn [located round_nearest_even]; intros H.
  - left. nia.
  - destruct (Z.even m); [left | right]; nia.
  - left. nia.
  - right. nia.
Qed.

Lemma pow2_pos (k : Z) : 0 <= k -> 0 < 2 ^ k.
Proof. intros. apply Z.pow_pos_nonneg; lia. Qed.

Lemma binary_round_aux_one (s : bool) (N D q e : Z) (l : location) :
  0 < D -> 0 <= q -> located N D q l ->
  binary_round_aux 53 1024 s q e l = S754_finite false 4503599627370496 (-52) ->
  let k := Z.max (Z.max (Zdigits2 q + e - 53) (-1074) - e) 0 in
  let q2 := q / 2 ^ k in
  let D2 := 2 ^ k * D in
  s = false /\
  ( (q2 = 4503599627370496 /\ e + k = -52
     /\ q2 * D2 <= N /\ 2 * N <= (2 * q2 + 1) * D2)
    \/ (k = 0 /\ q = 4503599627370495 /\ e = -52)
    \/ (q2 = 9007199254740991 /\ e + k = -53
        /\ (2 * q2 + 1) * D2 <= 2 * N /\ N < (q2 + 1) * D2)).
Proof.
  intros HD Hq Hloc. unfold binary_round_aux, shr_fexp, fexp, emin.
  change (3 - 1024 - 53) with (-1074).
  change IntDef.Z.max with Z.max.
  set (n := Z.max (Zdigits2 q + e - 53) (-1074) - e).
  pose proof (shr_located N D q l e n HD Hq Hloc) as (E1 & M1 & L1).
  destruct (shr (shr_record_of_loc q l) e n) as [mrs1 e1]. cbn [fst snd] in *.
  set (k := Z.max n 0) in *.
  assert (Hk : 0 <= k) by lia.
  pose proof (pow2_pos k Hk) as Hpk.
  set (q2 := shr_m mrs1) in *. set (D2 := 2 ^ k * D) in *.
  assert (HD2 : 0 < D2) by (subst D2; nia).
  assert (Hq2 : 0 <= q2) by (rewrite M1; apply Z.div_pos; lia).
  assert (Hq2lt : q2 < 9007199254740992).
  { rewrite M1. apply Z.div_lt_upper_bound; [lia|].
    destruct (Z.eq_dec q 0) as [->|Hq0]; [lia|].
    destruct (Zdigits2_bounds q ltac:(lia)) as (Hd & _ & Hlt).
    eapply Z.lt_le_trans; [exact Hlt|].
    change 9007199254740992 with (2 ^ 53). rewrite <- Z.pow_add_r by lia.
    apply Z.pow_le_mono_r; lia. }
  pose proof (round_nearest_even_located N D2 q2 (loc_of_shr_record mrs1) HD2 L1) as Hround.
  set (q3 := round_nearest_even q2 (loc_of_shr_record mrs1)) in *.
  assert (Hq3 : 0 <= q3 <= 9007199254740992) by lia.
  set (n2 := Z.max (Zdigits2 q3 + e1 - 53) (-1074) - e1).
  pose proof (shr_located q3 1 q3 loc_Exact e1 n2 ltac:(lia) ltac:(lia)
                ltac:(cbn; lia)) as (E2 & M2 & _).
  destruct (shr (shr_record_of_loc q3 loc_Exact) e1 n2) as [mrs2 e2]. cbn [fst snd] in *.
  set (k2 := Z.max n2 0) in *.
  assert (Hk2 : 0 <= k2) by lia.
  destruct (shr_m mrs2) as [|m|m] eqn:Hm2; try discriminate.
  destruct (e2 <=? 1024 - 53); try discriminate.
  intros [= -> -> He2]. split; [reflexivity|].
  (* the second shift is by at most one bit *)
  assert (Hk2le : k2 <= 1).
  { destruct (Z_le_gt_dec k2 1) as [|Hgt]; [assumption|exfalso].
    assert (q3 / 2 ^ k2 <= q3 / 2 ^ 2).
    { apply Z.div_le_compat_l; [lia|]. split; [lia|].
      apply Z.pow_le_mono_r; lia. }
    assert (q3 / 2 ^ 2 <= 9007199254740992 / 2 ^ 2) by (apply Z.div_le_mono; lia).
    change (9007199254740992 / 2 ^ 2) with 2251799813685248 in *. lia. }
  assert (Hcase : (k2 = 0 /\ q3 = 4503599627370496 /\ e1 = -52)
                  \/ (k2 = 1 /\ q3 = 9007199254740992 /\ e1 = -53)).
  { assert (k2 = 0 \/ k2 = 1) as [E|E] by lia; rewrite E in *.
    - left. rewrite Z.pow_0_r, Z.div_1_r in M2. lia.
    - right. change (2 ^ 1) with 2 in M2.
      pose proof (Z.div_mod q3 2 ltac:(lia)) as Hdm.
      pose proof (Z.mod_pos_bound q3 2 ltac:(lia)). lia. }
  destruct Hcase as [(Ek2 & Eq3 & Ee1) | (Ek2 & Eq3 & Ee1)];
    destruct Hround as [(R & B1 & B2) | (R & B1 & B2)].
  - left. repeat split; lia.
  - right; left.
    assert (Eq2 : q2 = 4503599627370495) by lia.
    destruct (Z.eq_dec k 0) as [Ek|Ek].
    + rewrite Ek, Z.pow_0_r, Z.div_1_r in M1. lia.
    + exfalso. assert (0 < n) by lia.
      assert (Hn : k = n) by lia.
      destruct (Z.eq_dec q 0) as [Hq0|Hq0].
      { rewrite Hq0 in M1. rewrite Z.div_0_l in M1 by lia. lia. }
      destruct (Zdigits2_bounds q ltac:(lia)) as (Hd & Hge & _).
      assert (Ek' : k = Zdigits2 q - 53) by lia.
      assert (4503599627370496 <= q / 2 ^ k).
      { apply Z.div_le_lower_bound; [lia|].
        eapply Z.le_trans; [|exact Hge].
        change 4503599627370496 with (2 ^ 52). rewrite <- Z.pow_add_r by lia.
        apply Z.pow_le_mono_r; lia. }
      lia.
  - exfalso. lia.
  - right; right. repeat split; lia.
Qed.

Lemma pow2_split (a b : Z) : 0 <= b -> 0 <= a -> 2 ^ (a + b) = 2 ^ a * 2 ^ b.
Proof. intros. apply Z.pow_add_r; lia. Qed.

Lemma SFdiv_one_inv (sx sy : bool) (mx my : positive) (ex ey : Z) :
  bounded prec emax mx ex = true -> bounded prec emax my ey = true ->
  SFdiv prec emax (S754_finite sx mx ex) (S754_finite sy my ey)
  = S754_finite false 4503599627370496 (-52) ->
  sx = sy /\ mx = my /\ ex = ey.
Proof.
  unfold bounded, canonical_mantissa, fexp, emin, prec, emax.
  intros Hx Hy.
  apply andb_prop in Hx as [Hx1 Hx2]. apply andb_prop in Hy as [Hy1 Hy2].
  apply Z.eqb_eq in Hx1, Hy1. apply Z.leb_le in Hx2, Hy2.
  pose proof (digits2_pos_bounds mx) as Hdx. pose proof (digits2_pos_bounds my) as Hdy.
  set (d1 := Z.pos (digits2_pos mx)) in *. set (d2 := Z.pos (digits2_pos my)) in *.
  assert (Hd1 : 0 < d1) by (subst d1; lia). assert (Hd2 : 0 < d2) by (subst d2; lia).
  change IntDef.Z.max with Z.max in *. change (3 - 1024 - 53) with (-1074) in *.
  change (1024 - 53) with 971 in *.
  unfold SFdiv, SFdiv_core_binary, fexp, emin. cbn [Zdigits2]. fold d1 d2.
  change IntDef.Z.max with Z.max. change IntDef.Z.min with Z.min.
  change IntDef.Z.div_eucl with Z.div_eucl. change IntDef.Z.shiftl with Z.shiftl.
  change (3 - 1024 - 53) with (-1074).
  set (K := ex - ey).
  set (e' := Z.min (Z.max (d1 + ex - (d2 + ey) - 53) (-1074)) K).
  set (s := K - e').
  assert (Hs : 0 <= s) by lia.
  set (m' := match s with 0 => Z.pos mx | Z.pos _ => Z.shiftl (Z.pos mx) s | Z.neg _ => 0 end).
  assert (Em' : m' = Z.pos mx * 2 ^ s).
  { subst m'. destruct s as [|p|p] eqn:Es; [rewrite Z.pow_0_r; lia | | lia].
    apply Z.shiftl_mul_pow2. lia. }
  pose proof (Z_div_mod m' (Z.pos my) ltac:(lia)) as Hdiv.
  destruct (Z.div_eucl m' (Z.pos my)) as [q r]. destruct Hdiv as [Eqr Hr].
  assert (Hq : 0 <= q) by nia.
  pose proof (new_location_located (Z.pos my) q r ltac:(lia) Hr) as Hloc.
  replace (q * Z.pos my + r) with m' in Hloc by lia.
  intros Hone.
  destruct (binary_round_aux_one _ m' (Z.pos my) q e' _ ltac:(lia) Hq Hloc Hone)
    as [Hsign Hcases].
  clear Hone Hloc.
  assert (Hsx : sx = sy) by (destruct sx, sy; cbn in Hsign; congruence).
  split; [exact Hsx|].
  set (k := Z.max (Z.max (Zdigits2 q + e' - 53) (-1074) - e') 0) in *.
  assert (Hk : 0 <= k) by lia.
  pose proof (pow2_pos k Hk) as Hpk. pose proof (pow2_pos s Hs) as Hps.
  assert (Hmx53 : Z.pos mx < 9007199254740992).
  { eapply Z.lt_le_trans; [apply Hdx|]. change 9007199254740992 with (2 ^ 53).
    apply Z.pow_le_mono_r; lia. }
  assert (Hmy53 : Z.pos my < 9007199254740992).
  { eapply Z.lt_le_trans; [apply Hdy|]. change 9007199254740992 with (2 ^ 53).
    apply Z.pow_le_mono_r; lia. }
  assert (Hnormal_x : -1074 < ex -> 4503599627370496 <= Z.pos mx).
  { intros H. assert (d1 = 53) as E by lia. rewrite E in Hdx.
    change (2 ^ (53 - 1)) with 4503599627370496 in Hdx. lia. }
  assert (Hnormal_y : -1074 < ey -> 4503599627370496 <= Z.pos my).
  { intros H. assert (d2 = 53) as E by lia. rewrite E in Hdy.
    change (2 ^ (53 - 1)) with 4503599627370496 in Hdy. lia. }
  set (P := 2 ^ k) in *.
  destruct Hcases as [(Eq2 & Ee & B1 & B2) | [(Ek & Eq & Ee) | (Eq2 & Ee & B1 & B2)]].
  - (* rounded down to 2^52 *)
    rewrite Eq2, Em' in B1, B2.
    destruct (Z_le_gt_dec 0 K) as [HK|HK].
    + assert (Es : 2 ^ s = P * (4503599627370496 * 2 ^ K)).
      { replace s with (k + (52 + K)) by lia. subst P.
        rewrite (pow2_split k (52 + K)), (pow2_split 52 K) by lia. reflexivity. }
      pose proof (pow2_pos K HK) as HT. set (T := 2 ^ K) in *.
      rewrite Es in B1, B2.
      assert (B1' : P * (4503599627370496 * Z.pos my)
                    <= P * (4503599627370496 * (Z.pos mx * T))) by lia.
      assert (B2' : P * (2 * (4503599627370496 * (Z.pos mx * T)))
                    <= P * ((2 * 4503599627370496 + 1) * Z.pos my)) by lia.
      apply Z.mul_le_mono_pos_l in B1', B2'; try lia.
      assert (Eu : Z.pos mx * T = Z.pos my) by lia.
      destruct (Z.eq_dec K 0) as [EK|NK].
      * subst T. rewrite EK, Z.pow_0_r in Eu. split; [lia | lia].
      * exfalso. assert (2 <= T).
        { subst T. change 2 with (2 ^ 1) at 1. apply Z.pow_le_mono_r; lia. }
        pose proof (Hnormal_x ltac:(lia)). nia.
    + exfalso. pose proof (Hnormal_y ltac:(lia)) as Hmy.
      assert (Es : 2 ^ s <= 2251799813685248 * P).
      { change 2251799813685248 with (2 ^ 51). subst P.
        rewrite <- Z.pow_add_r by lia. apply Z.pow_le_mono_r; lia. }
      assert (Z.pos mx * 2 ^ s <= Z.pos mx * (2251799813685248 * P))
        by (apply Z.mul_le_mono_nonneg_l; lia).
      assert (P * (4503599627370496 * Z.pos my) <= P * (2251799813685248 * Z.pos mx))
        by lia.
      apply Z.mul_le_mono_pos_l in H0; lia.
  - (* the quotient would have 52 digits only *)
    exfalso.
    assert (ED : d1 + K = d2 + 1) by lia.
    assert (Es : s = d2 + 53 - d1) by lia.
    assert (4503599627370496 * 2 ^ d2 <= m').
    { rewrite Em'. change 4503599627370496 with (2 ^ 52).
      rewrite <- Z.pow_add_r by lia.
      replace (52 + d2) with ((d1 - 1) + s) by lia.
      rewrite Z.pow_add_r by lia. apply Z.mul_le_mono_nonneg_r; lia. }
    assert (Z.pos my < 2 ^ d2) by lia.
    nia.
  - (* rounded up to 2^53 *)
    exfalso. rewrite Eq2, Em' in B1, B2.
    destruct (Z_le_gt_dec 0 K) as [HK|HK].
    + assert (Es : 2 ^ s = P * (9007199254740992 * 2 ^ K)).
      { replace s with (k + (53 + K)) by lia. subst P.
        rewrite (pow2_split k (53 + K)), (pow2_split 53 K) by lia. reflexivity. }
      pose proof (pow2_pos K HK) as HT. set (T := 2 ^ K) in *.
      rewrite Es in B1, B2.
      assert (B1' : P * ((2 * 9007199254740991 + 1) * Z.pos my)
                    <= P * (2 * (9007199254740992 * (Z.pos mx * T)))) by lia.
      assert (B2' : P * (9007199254740992 * (Z.pos mx * T))
                    < P * (9007199254740992 * Z.pos my)) by lia.
      apply Z.mul_le_mono_pos_l in B1'; [|lia].
      apply Z.mul_lt_mono_pos_l in B2'; [|lia].
      lia.
    + pose proof (Hnormal_y ltac:(lia)) as Hmy.
      assert (Es : 2 ^ s <= 4503599627370496 * P).
      { change 4503599627370496 with (2 ^ 52). subst P.
        rewrite <- Z.pow_add_r by lia. apply Z.pow_le_mono_r; lia. }
      assert (Z.pos mx * 2 ^ s <= Z.pos mx * (4503599627370496 * P))
        by (apply Z.mul_le_mono_nonneg_l; lia).
      assert (P * ((2 * 9007199254740991 + 1) * Z.pos my)
              <= P * (2 * (4503599627370496 * Z.pos mx))) by lia.
      apply Z.mul_le_mono_pos_l in H0; lia.
Qed.

End Rounding.

Section Binary64.

Local Open Scope float_scope.

(** Multiplication of binary64 values commutes, bit for bit. *)
Lemma float_mul_comm (x y : float) : x * y = y * x.
Proof.
  apply Prim2SF_inj. rewrite !mul_spec. unfold SF64mul, SFmul.
  destruct (Prim2SF x) as [sx|sx| |sx mx ex], (Prim2SF y) as [sy|sy| |sy my ey];
    simpl; try reflexivity; rewrite ?(Bool.xorb_comm sx sy); try reflexivity.
  by rewrite (Pos.mul_comm mx my), (Z.add_comm ex ey).
Qed.

Lemma div_eucl_mul (q b : Z) : (0 < b)%Z → Z.div_eucl (q * b) b = (q, 0%Z).
Proof.
  intros Hb.
  pose proof (Z.div_mul q b ltac:(lia)) as Hq.
  pose proof (Z.mod_mul q b ltac:(lia)) as Hr.
  unfold Z.div, Z.modulo in *.
  destruct (Z.div_eucl (q * b) b); simpl in *; congruence.
Qed.

(** Dividing a finite non-zero binary64 value by itself is exact. *)
Lemma float_div_self (x : float) : finite_nonzero x → x / x = 1.
Proof.
  intros (s & m & e & Hx). apply Prim2SF_inj. rewrite div_spec, Hx.
  unfold SF64div, SFdiv, SFdiv_core_binary.
  replace (Zdigits2 (Z.pos m) + e - (Zdigits2 (Z.pos m) + e))%Z with 0%Z by lia.
  replace (e - e)%Z with 0%Z by lia.
  change (IntDef.Z.min (fexp prec emax 0) 0) with (-53)%Z.
  change (0 - -53)%Z with 53%Z. cbv iota beta zeta.
  change (IntDef.Z.shiftl (Z.pos m) 53) with (Z.shiftl (Z.pos m) 53).
  rewrite Z.shiftl_mul_pow2 by lia. rewrite (Z.mul_comm (Z.pos m)).
  change IntDef.Z.div_eucl with Z.div_eucl.
  rewrite div_eucl_mul by lia.
  assert (Hloc : new_location (Z.pos m) 0 = loc_Exact).
  { unfold new_location, new_location_even, new_location_odd.
    destruct (Z.even (Z.pos m)); reflexivity. }
  rewrite Hloc, Bool.xorb_nilpotent. vm_compute. reflexivity.
Qed.

(** A quotient of binary64 values is 1 only when the operands are the same
    finite non-zero value. *)
Lemma float_div_one_inv (x y : float) : x / y = 1 → x = y ∧ finite_nonzero x.
Proof.
  intros H. apply (f_equal Prim2SF) in H. rewrite div_spec in H.
  change (Prim2SF 1) with (S754_finite false 4503599627370496 (-52)) in H.
  pose proof (Prim2SF_valid x) as Hvx. pose proof (Prim2SF_valid y) as Hvy.
  unfold SF64div in H.
  destruct (Prim2SF x) as [sx|sx| |sx mx ex] eqn:Ex,
           (Prim2SF y) as [sy|sy| |sy my ey] eqn:Ey;
    try discriminate H.
  destruct (SFdiv_one_inv sx sy mx my ex ey Hvx Hvy H) as (-> & -> & ->).
  split; [|by exists sy, my, ey].
  apply Prim2SF_inj. by rewrite Ex, Ey.
Qed.

(** When the sum of squares is zero, infinite or NaN, the quotient is NaN. *)
Lemma float_div_sqrt_nan (n : float) :
  ¬ finite_nonzero n → is_nan (n / (PrimFloat.sqrt n * PrimFloat.sqrt n)) = true.
Proof.
  intros Hn. unfold is_nan. rewrite FloatAxioms.eqb_spec, div_spec, mul_spec, sqrt_spec.
  destruct (Prim2SF n) as [s|[|]| |s m e] eqn:En; try reflexivity.
  exfalso. apply Hn. by exists s, m, e.
Qed.

Lemma cosine_loop_swap (a b : list float) (d na nb : float) :
  cosine_loop b a d nb na =
  (let '(d', na', nb') := cosine_loop a b d na nb in (d', nb', na')).
Proof.
  revert b d na nb. induction a as [|x a IH]; intros [|y b] d na nb; simpl; try done.
  rewrite IH, (float_mul_comm y x). done.
Qed.

Lemma cosine_loop_self (a : list float) (d na nb : float) :
  cosine_loop a a d na nb = (sum_squares d a, sum_squares na a, sum_squares nb a).
Proof.
  revert d na nb. induction a as [|x a IH]; intros d na nb; simpl; [done|].
  by rewrite IH.
Qed.

Lemma cosineSimilarity_sym (a b : option (list float)) :
  cosineSimilarity a b = cosineSimilarity b a.
Proof.
  destruct a as [a|], b as [b|]; simpl; try done.
  rewrite (Nat.eqb_sym (length b) (length a)).
  destruct (length a =? length b)%nat; simpl; [|done].
  rewrite (cosine_loop_swap a b).
  destruct (cosine_loop a b 0 0 0) as [[d na] nb].
  by rewrite float_mul_comm.
Qed.

Lemma cosineSimilarity_self (a : list float) :
  cosineSimilarity (Some a) (Some a) =
  sum_squares 0 a / (PrimFloat.sqrt (sum_squares 0 a) * PrimFloat.sqrt (sum_squares 0 a)).
Proof.
  unfold cosineSimilarity. rewrite Nat.eqb_refl. simpl.
  by rewrite cosine_loop_self.
Qed.

(** C3, as the specification states it, fails on binary64 numbers: for the
    non-zero vector [1, 1] the sum of squares is 2, the product of the two
    square roots is 2.0000000000000004, and the quotient is the double just
    below 1. *)
Lemma cosineSimilarity_self_not_one :
  cosineSimilarity (Some [1; 1]) (Some [1; 1]) ≠ 1
  ∧ (cosineSimilarity (Some [1; 1]) (Some [1; 1]) <? 1) = true.
Proof. split; [vm_compute; discriminate | vm_compute; reflexivity]. Qed.

(** C3 (amended).  The cosine similarity is symmetric, and it is exactly 0
    when either vector is absent or the lengths differ.  [sim(a, a)] is the
    sum of squares [n] of [a] divided by [sqrt n * sqrt n], in binary64
    arithmetic.  It is 1 if and only if [n] is finite, non-zero and the
    product of its square roots rounds back to [n]; when [n] is zero,
    infinite or NaN, which overflow and underflow bring about for non-zero
    vectors too, it is NaN. *)
Theorem cosineSimilarity_spec :
  (∀ a b, cosineSimilarity a b = cosineSimilarity b a)
  ∧ (∀ a b, a = None ∨ b = None → cosineSimilarity a b = 0)
  ∧ (∀ a b, length a ≠ length b → cosineSimilarity (Some a) (Some b) = 0)
  ∧ (∀ a, cosineSimilarity (Some a) (Some a) =
          sum_squares 0 a
          / (PrimFloat.sqrt (sum_squares 0 a) * PrimFloat.sqrt (sum_squares 0 a)))
  ∧ (∀ a, cosineSimilarity (Some a) (Some a) = 1
          ↔ finite_nonzero (sum_squares 0 a)
            ∧ PrimFloat.sqrt (sum_squares 0 a) * PrimFloat.sqrt (sum_squares 0 a)
              = sum_squares 0 a)
  ∧ (∀ a, ¬ finite_nonzero (sum_squares 0 a) →
          is_nan (cosineSimilarity (Some a) (Some a)) = true)
  ∧ cosineSimilarity (Some [3; 4]) (Some [3; 4]) = 1
  ∧ cosineSimilarity (Some [1; 1]) (Some [1; 1]) = 0.9999999999999998
  ∧ is_nan (cosineSimilarity (Some [1e200]) (Some [1e200])) = true
  ∧ is_nan (cosineSimilarity (Some [1e-200]) (Some [1e-200])) = true.
Proof.
  split; [exact cosineSimilarity_sym|].
  split; [intros a b [-> | ->]; [done | by destruct a]|].
  split.
  { intros a b Hlen. unfold cosineSimilarity.
    destruct (Nat.eqb_spec (length a) (length b)); [done | reflexivity]. }
  split; [exact cosineSimilarity_self|].
  split.
  { intros a. rewrite cosineSimilarity_self. split.
    - intros H. apply float_div_one_inv in H as [Heq Hfin]. by split.
    - intros [Hfin Hsq]. rewrite Hsq. by apply float_div_self. }
  split.
  { intros a Hn. rewrite cosineSimilarity_self. by apply float_div_sqrt_nan. }
  repeat split; vm_compute; reflexivity.
Qed.

(** The vector [3, 4]: the sum of squares 25 has the exact square root 5. *)
Lemma cosineSimilarity_spec_witness :
  cosineSimilarity (Some [3; 4]) (Some [3; 4]) = 1.
Proof.
  apply (proj2 (proj1 (proj2 (proj2 (proj2 (proj2 cosineSimilarity_spec)))) [3; 4])).
  split.
  - exists false, 7036874417766400%positive, (-48)%Z. vm_compute. reflexivity.
  - vm_compute. reflexivity.
Defined.

End Binary64.

(* ===================================================================== *)
(** * Properties of the vector store                                       *)
(* ===================================================================== *)

Section VectorStore.

Lemma elem_of_getAll {V} (store : gmap N V) (k : N) (v : V) :
  (k, v) ∈ getAll store ↔ store !! k = Some v.
Proof.
  unfold getAll. rewrite merge_sort_Permutation. apply elem_of_map_to_list.
Qed.

Lemma elem_of_index_docId_only (store : gmap N chunk) (id k : N) :
  k ∈ index_docId_only store id ↔ ∃ c, store !! k = Some c ∧ docId c = id.
Proof.
  unfold index_docId_only. rewrite list_elem_of_fmap. split.
  - intros ([k' c] & -> & Hin). apply list_elem_of_filter in Hin as [Hid Hin].
    apply elem_of_getAll in Hin. by exists c.
  - intros (c & Hk & Hid). exists (k, c). split; [done|].
    apply list_elem_of_filter. split; [done|]. by apply elem_of_getAll.
Qed.

Lemma cursor_delete_lookup (keys : list N) (store : gmap N chunk) (k : N) :
  cursor_delete keys store !! k = if decide (k ∈ keys) then None else store !! k.
Proof.
  revert store. induction keys as [|k' keys IH]; intros store; cbn [cursor_delete].
  - case_decide as Hin; [by apply not_elem_of_nil in Hin | done].
  - rewrite IH. rewrite (decide_ext (k ∈ k' :: keys) (k = k' ∨ k ∈ keys))
      by apply elem_of_cons.
    destruct (decide (k ∈ keys)) as [Hin|Hnin].
    + by rewrite decide_True by (by right).
    + destruct (decide (k = k')) as [->|Hne].
      * rewrite lookup_delete_eq. by rewrite decide_True by (by left).
      * rewrite lookup_delete_ne by done. by rewrite decide_False by (by intros [?|?]).
Qed.

(** C4.  Deleting a document leaves in the chunk store exactly the chunks
    whose [docId] differs from the deleted id, each under its key and
    unchanged; the document record itself is removed and the other document
    records are kept. *)
Theorem deleteDocument_cascade (st : db) (id : N) :
  chunks (deleteDocument st id) = filter (λ kc, docId kc.2 ≠ id) (chunks st)
  ∧ documents (deleteDocument st id) = delete id (documents st).
Proof.
  split; [|done]. apply map_eq. intros k. simpl.
  rewrite cursor_delete_lookup, map_lookup_filter.
  destruct (chunks st !! k) as [c|] eqn:Hk; simpl.
  - destruct (decide (docId c = id)) as [Hid|Hid].
    + rewrite decide_True by (apply elem_of_index_docId_only; eauto).
      rewrite option_guard_False; [done|]. simpl. by intros ?.
    + rewrite decide_False.
      * by rewrite option_guard_True.
      * intros (c' & Hk' & Hid')%elem_of_index_docId_only. congruence.
  - by destruct (decide _).
Qed.

Lemma sort_insert_Permutation {A} (cmp : A → A → float) (x : A) (l : list A) :
  sort_insert cmp x l ≡ₚ x :: l.
Proof.
  induction l as [|y l IH]; [done|]. cbn [sort_insert].
  destruct (0 <? cmp x y)%float; [|done].
  rewrite IH. apply Permutation_swap.
Qed.

Lemma js_sort_Permutation {A} (cmp : A → A → float) (l : list A) :
  js_sort cmp l ≡ₚ l.
Proof.
  unfold js_sort. induction l as [|x l IH]; [done|]. cbn [foldr].
  by rewrite sort_insert_Permutation, IH.
Qed.

Lemma getAll_length {V} (store : gmap N V) : length (getAll store) = size store.
Proof.
  unfold getAll. rewrite merge_sort_Permutation. apply length_map_to_list.
Qed.

(** C10.  A search with an empty list of document ids is the search with no
    filter.  Every stored chunk is a candidate: what is returned is the
    beginning, as far as the limit allows, of a ranking of all the stored
    chunks, each under its key and scored with its cosine similarity to the
    query; the ranking is the sorted list of all of them.  So a limit that is
    not negative yields [min limit n] results out of [n] stored chunks, and
    a limit of at least [n] yields every stored chunk. *)
Theorem searchChunks_empty_filter (st : db) (queryEmbedding : option (list float))
    (limit : Z) :
  let score := λ kc : N * chunk,
     {| sc_id := kc.1; sc_chunk := kc.2;
        similarity := cosineSimilarity queryEmbedding (embedding kc.2) |} in
  let results := searchChunks st queryEmbedding (Some []) limit in
  results = searchChunks st queryEmbedding None limit
  ∧ candidates st (Some []) = getAll (chunks st)
  ∧ (∀ k c, (k, c) ∈ candidates st (Some []) ↔ chunks st !! k = Some c)
  ∧ results
    = slice0 (js_sort (λ a b, (similarity b - similarity a)%float)
                (score <$> getAll (chunks st))) limit
  ∧ (∃ ranked, results = slice0 ranked limit
       ∧ ranked ≡ₚ score <$> getAll (chunks st)
       ∧ ∀ k c, chunks st !! k = Some c ↔ score (k, c) ∈ ranked)
  ∧ (0 ≤ limit → length results = Nat.min (Z.to_nat limit) (size (chunks st)))
  ∧ (Z.of_nat (size (chunks st)) ≤ limit →
     ∀ k c, chunks st !! k = Some c → score (k, c) ∈ results).
Proof.
  intros score results. subst results.
  set (cmp := λ a b : scoredChunk, (similarity b - similarity a)%float).
  assert (Hperm : js_sort cmp (score <$> getAll (chunks st))
                    ≡ₚ score <$> getAll (chunks st)) by apply js_sort_Permutation.
  assert (Hmem : ∀ k c, chunks st !! k = Some c
                   ↔ score (k, c) ∈ js_sort cmp (score <$> getAll (chunks st))).
  { intros k c. rewrite Hperm, <- elem_of_getAll. split.
    - intros Hin. apply list_elem_of_fmap. by exists (k, c).
    - intros ([k' c'] & Heq & Hin)%list_elem_of_fmap.
      unfold score in Heq. cbn [fst snd] in Heq. by injection Heq as -> -> _. }
  split; [reflexivity|]. split; [reflexivity|].
  split; [intros k c; apply elem_of_getAll|].
  split; [reflexivity|].
  split; [by exists (js_sort cmp (score <$> getAll (chunks st)))|].
  change (searchChunks st queryEmbedding (Some []) limit)
    with (slice0 (js_sort cmp (score <$> getAll (chunks st))) limit).
  unfold slice0. split.
  - intros Hlimit. rewrite (proj2 (Z.ltb_ge limit 0)) by lia.
    by rewrite length_take, Hperm, length_fmap, getAll_length.
  - intros Hall k c Hk.
    rewrite (proj2 (Z.ltb_ge limit 0)) by lia. rewrite take_ge.
    + by apply Hmem.
    + rewrite Hperm, length_fmap, getAll_length. lia.
Qed.

(** Deleting document 1 of [two_documents] leaves chunk 2 alone. *)
Example deleteDocument_two_documents :
  getAll (chunks (deleteDocument two_documents 1))
  = [(2%N, {| docId := 2; chunk_content := js "two";
              embedding := Some [4; 3]%float; ocrUsed := false |})]
  ∧ (getAll (documents (deleteDocument two_documents 1))).*1 = [2%N].
Proof. split; vm_compute; reflexivity. Qed.

(** The query [1, 0] ranks the chunks of [two_documents] 2, 1, 3; filtered
    to document 1 the ranking is 1, 3; the empty filter changes nothing. *)
Example searchChunks_two_documents :
  sc_id <$> searchChunks two_documents (Some [1; 0]%float) None 5 = [2; 1; 3]%N
  ∧ sc_id <$> searchChunks two_documents (Some [1; 0]%float) (Some [1%N]) 5 = [1; 3]%N
  ∧ sc_id <$> searchChunks two_documents (Some [1; 0]%float) (Some []) 5 = [2; 1; 3]%N
  ∧ sc_id <$> searchChunks two_documents (Some [1; 0]%float) None 2 = [2; 1]%N.
Proof. repeat split; vm_compute; reflexivity. Qed.

End VectorStore.

(* ===================================================================== *)
(** * Properties of the batch partitioning                                 *)
(* ===================================================================== *)

Section Batches.

Variable maxSizeMB : Q.
Variable maxImages : Z.

Local Abbreviation step := (createBatches_step maxSizeMB maxImages).
Local Abbreviation imgSizeMB img := (inject_Z (base64_length img) / 1024 / 1024)%Q.
Local Abbreviation batch_ok := (batch_ok maxSizeMB maxImages).
Local Abbreviation batching_inv := (batching_inv maxSizeMB maxImages).

(** What the loop has consumed so far is the flushed batches followed by
    the batch under construction. *)
Lemma createBatches_step_concat (st : batching) (img : pageImage) :
  concat (batches (step st img)) ++ currentBatch (step st img)
  = (concat (batches st) ++ currentBatch st) ++ [img].
Proof.
  unfold createBatches_step.
  destruct (_ || _); simpl; [|by rewrite app_assoc].
  rewrite concat_app. simpl. by rewrite app_nil_r.
Qed.

Lemma createBatches_loop_concat (images : list pageImage) (st : batching) :
  let st' := foldl step st images in
  concat (batches st') ++ currentBatch st'
  = (concat (batches st) ++ currentBatch st) ++ images.
Proof.
  revert st. induction images as [|img images IH]; intros st; simpl.
  - by rewrite app_nil_r.
  - rewrite IH, createBatches_step_concat. by rewrite <- app_assoc.
Qed.

Lemma base64_length_nonneg (img : pageImage) : 0 ≤ base64_length img.
Proof. unfold base64_length, js_length. destruct (base64 img); lia. Qed.

Lemma imgSizeMB_nonneg (img : pageImage) : (0 <= imgSizeMB img)%Q.
Proof.
  pose proof (base64_length_nonneg img) as H.
  unfold Qle, Qdiv, Qmult, Qinv, inject_Z; simpl. lia.
Qed.

Lemma calculateImagesSize_snoc (l : list pageImage) (img : pageImage) :
  (calculateImagesSize (l ++ [img]) == calculateImagesSize l + imgSizeMB img)%Q.
Proof.
  unfold calculateImagesSize. rewrite foldl_app. simpl.
  rewrite inject_Z_plus. field.
Qed.

Lemma calculateImagesSize_single (img : pageImage) :
  (calculateImagesSize [img] == imgSizeMB img)%Q.
Proof. unfold calculateImagesSize. simpl. reflexivity. Qed.

Lemma Qgtb_false (x y : Q) : Qgtb x y = false → (x <= y)%Q.
Proof.
  unfold Qgtb. intros H. apply Qle_bool_iff.
  by destruct (Qle_bool x y).
Qed.

Lemma Qgtb_true (x y : Q) : (y < x)%Q → Qgtb x y = true.
Proof.
  unfold Qgtb. intros H. destruct (Qle_bool x y) eqn:E; [|done].
  apply Qle_bool_iff in E. exfalso. by apply (Qlt_not_le y x).
Qed.

Lemma createBatches_step_inv (st : batching) (img : pageImage) :
  1 ≤ maxImages → batching_inv st →
  batching_inv (step st img) ∧ currentBatch (step st img) ≠ [].
Proof.
  intros Hmax (Hbs & Hcur & Hsize).
  pose proof (imgSizeMB_nonneg img) as Hnn.
  pose proof (calculateImagesSize_single img) as Hone.
  pose proof (calculateImagesSize_snoc (currentBatch st) img) as Hsnoc.
  assert (Hfresh : batch_ok [img]).
  { split; [simpl; lia|].
    destruct (Qlt_le_dec maxSizeMB (imgSizeMB img)) as [Hlt|Hle].
    - right. by exists img.
    - left. lra. }
  unfold createBatches_step.
  destruct (Qgtb _ _ && _) eqn:Hsz; cbn [orb batches currentBatch currentSize app].
  { (* the size ceiling would be exceeded: flush *)
    apply andb_prop in Hsz as [_ Hlen].
    destruct Hcur as [Hnil|Hok]; [rewrite Hnil in Hlen; done|].
    split; [|done]. split; [|split].
    - apply Forall_app. split; [done|]. by constructor.
    - by right.
    - cbn [currentSize currentBatch]. lra. }
  destruct (Z.of_nat (length (currentBatch st)) >=? maxImages) eqn:Hcnt;
    cbn [orb batches currentBatch currentSize app].
  { (* the count ceiling is reached: flush *)
    apply Z.geb_le in Hcnt.
    destruct Hcur as [Hnil|Hok]; [rewrite Hnil in Hcnt; simpl in Hcnt; lia|].
    split; [|done]. split; [|split].
    - apply Forall_app. split; [done|]. by constructor.
    - by right.
    - cbn [currentSize currentBatch]. lra. }
  (* the image joins the current batch *)
  split; [|by destruct (currentBatch st)].
  split; [done|]. cbn [currentSize currentBatch]. split; [|lra].
  right. destruct Hcur as [Hnil|[Hlen Hok]]; [by rewrite Hnil|].
  apply andb_false_iff in Hsz as [Hsz|Hsz]; [|apply Z.ltb_ge in Hsz; lia].
  rewrite Z.geb_leb in Hcnt. apply Z.leb_gt in Hcnt.
  apply Qgtb_false in Hsz. split.
  - rewrite length_app. simpl. lia.
  - left. lra.
Qed.

Lemma createBatches_loop_inv (images : list pageImage) (st : batching) :
  1 ≤ maxImages → batching_inv st → batching_inv (foldl step st images).
Proof.
  intros Hmax. revert st. induction images as [|img images IH]; intros st Hinv; [done|].
  simpl. apply IH. by apply createBatches_step_inv.
Qed.

(** C6.  The batches, concatenated in order, are the input list. *)
Theorem createBatches_concat (images : list pageImage) :
  concat (createBatches images maxSizeMB maxImages) = images.
Proof.
  unfold createBatches.
  pose proof (createBatches_loop_concat images
    {| batches := []; currentBatch := []; currentSize := 0 |}) as H.
  simpl in H. destruct (foldl _ _ images) as [bs cur sz]; simpl in *.
  destruct cur as [|img cur]; simpl.
  - by rewrite app_nil_r in H.
  - by rewrite concat_app; simpl; rewrite app_nil_r.
Qed.

(** C5 (amended).  With a count ceiling of at least one image, every batch
    holds between one and [maxImages] images, and its base64 payload is at
    most [maxSizeMB] unless the batch is a single image that alone exceeds
    [maxSizeMB]. *)
Theorem createBatches_limits (images : list pageImage) (batch : list pageImage) :
  1 ≤ maxImages →
  batch ∈ createBatches images maxSizeMB maxImages →
  1 ≤ Z.of_nat (length batch) ≤ maxImages
  ∧ ((calculateImagesSize batch <= maxSizeMB)%Q
     ∨ ∃ img, batch = [img] ∧ (maxSizeMB < imgSizeMB img)%Q).
Proof.
  intros Hmax Hin. unfold createBatches in Hin.
  assert (Hinv : batching_inv (foldl step
            {| batches := []; currentBatch := []; currentSize := 0 |} images)).
  { apply createBatches_loop_inv; [done|]. split; [constructor|].
    split; [by left | reflexivity]. }
  destruct Hinv as (Hbs & Hcur & _).
  destruct (foldl _ _ images) as [bs cur sz]; simpl in *.
  rewrite Forall_forall in Hbs.
  destruct cur as [|img cur]; simpl in Hin.
  - by apply Hbs.
  - apply elem_of_app in Hin as [Hin|Hin]; [by apply Hbs|].
    apply list_elem_of_singleton in Hin as ->. by destruct Hcur.
Qed.

End Batches.

(** C5, as the specification states it, fails: a single image of 2048
    base64 characters against a size ceiling of 1/1024 MB (1024 characters)
    is returned as a batch of its own, twice the ceiling. *)
Lemma createBatches_over_limit_image :
  createBatches [image_of_length 1 2048] (1 # 1024) 5 = [[image_of_length 1 2048]]
  ∧ ¬ (calculateImagesSize [image_of_length 1 2048] <= 1 # 1024)%Q.
Proof. split; [vm_compute; reflexivity | vm_compute; intros H; apply H; reflexivity]. Qed.

(** Three images of 400 characters against a ceiling of 1024 characters and
    five images: the first batch holds two of them, within both ceilings. *)
Lemma createBatches_limits_witness :
  1 ≤ Z.of_nat (length [image_of_length 1 400; image_of_length 2 400]) ≤ 5
  ∧ ((calculateImagesSize [image_of_length 1 400; image_of_length 2 400] <= 1 # 1024)%Q
     ∨ ∃ img, [image_of_length 1 400; image_of_length 2 400] = [img]
         ∧ (1 # 1024 < inject_Z (base64_length img) / 1024 / 1024)%Q).
Proof.
  apply (createBatches_limits (1 # 1024) 5
           [image_of_length 1 400; image_of_length 2 400; image_of_length 3 400]);
    [lia|].
  vm_compute. left.
Defined.

(** The scenario of the specification: twelve page images of 0.4 MB
    (419430 base64 characters) under the default ceilings of 3.0 MB and five
    images are split 5, 5, 2: the count ceiling binds first. *)
Example createBatches_twelve_pages :
  map length
    (createBatches
       (map (λ p, image_of_length (Z.of_nat p) (Z.to_nat 419430)) (seq 1 12)) 3 5)
  = [5; 5; 2]%nat.
Proof. vm_compute. reflexivity. Qed.

(* ===================================================================== *)
(** * Properties of the classifier and of the hybrid extraction            *)
(* ===================================================================== *)

Section Pages.

Lemma getPage_middle (before after : pdfDoc) (page : pdfPage) :
  getPage (before ++ page :: after) (1 + Z.of_nat (length before)) = Ok page.
Proof.
  unfold getPage. destruct (Z.leb_spec 1 (1 + Z.of_nat (length before))); [|lia].
  replace (Z.to_nat (1 + Z.of_nat (length before) - 1)) with (length before) by lia.
  by rewrite list_lookup_middle.
Qed.

(** The page loop never rejects when it stays within the document, and it
    visits the pages in order with their numbers. *)
Lemma for_each_page_from {A} (body : A → Z → pdfPage → A) (m : nat) :
  ∀ (before pages : pdfDoc) (acc : A),
  (m ≤ length pages)%nat →
  result_foldl (λ acc i, page ← getPage (before ++ pages) i; Ok (body acc i page)) acc
    (seqZ (1 + Z.of_nat (length before)) (Z.of_nat m))
  = Ok (foldl (λ acc ip, body acc ip.1 ip.2) acc
          (zip (seqZ (1 + Z.of_nat (length before)) (Z.of_nat m)) pages)).
Proof.
  induction m as [|m IH]; intros before pages acc Hm; [done|].
  destruct pages as [|page pages]; [simpl in Hm; lia|].
  rewrite seqZ_cons by lia.
  replace (Z.pred (Z.of_nat (S m))) with (Z.of_nat m) by lia.
  cbn [result_foldl zip zip_with foldl fst snd].
  rewrite getPage_middle. cbn [mbind result_bind].
  replace (Z.succ (1 + Z.of_nat (length before)))
    with (1 + Z.of_nat (length (before ++ [page]))) by (rewrite length_app; simpl; lia).
  replace (before ++ page :: pages) with ((before ++ [page]) ++ pages)
    by (by rewrite <- app_assoc).
  apply IH. simpl in Hm. lia.
Qed.

Lemma for_each_page_ok {A} (d : pdfDoc) (n : Z) (body : A → Z → pdfPage → A) (acc : A) :
  n ≤ numPages d →
  for_each_page d n body acc
  = Ok (foldl (λ acc ip, body acc ip.1 ip.2) acc (zip (seqZ 1 n) d)).
Proof.
  intros Hn. unfold for_each_page, numPages in *.
  destruct (Z.le_gt_cases n 0) as [Hle|Hgt].
  - by rewrite seqZ_nil by lia.
  - pose proof (for_each_page_from body (Z.to_nat n) [] d acc ltac:(lia)) as H.
    cbn [length app] in H. by rewrite Z2Nat.id in H by lia.
Qed.

(** The classifier returns a classification for every document and sample
    size: it has no failing path. *)
Lemma detectImageBasedPDF_returns (d : pdfDoc) (samplePages : Z) :
  ∃ r, detectImageBasedPDF d samplePages = Ok r.
Proof.
  unfold detectImageBasedPDF. rewrite for_each_page_ok by lia.
  cbn [mbind result_bind]. eauto.
Qed.

(** C8, as the specification states it, fails: on a document without pages
    the classifier does not reject. *)
Lemma detectImageBasedPDF_zero_pages_no_error :
  ¬ ∃ e, detectImageBasedPDF [] 3 = Err e.
Proof. intros [e He]. vm_compute in He. discriminate. Qed.

(** C8 (amended).  Applied to a document without pages, the classifier
    raises no error: no page is sampled, the density is 0 / 0 = NaN, and since
    the character count 0 is below 100 the document is classified as
    image-based with confidence [high]. *)
Theorem detectImageBasedPDF_zero_pages (samplePages : Z) :
  detectImageBasedPDF [] samplePages
  = Ok {| isImageBased := true;
          textDensity := nan;
          totalTextLength := 0;
          pagesChecked := Z.min samplePages 0;
          confidence := high |}.
Proof.
  unfold detectImageBasedPDF, for_each_page, numPages. cbn [length Z.of_nat].
  by rewrite seqZ_nil by lia.
Qed.

End Pages.

Section Hybrid.

Variable ocrThreshold : Z.

Local Abbreviation entry := (text_layer_entry ocrThreshold).
Local Abbreviation short ip := (js_length (text_layer ip.2) < ocrThreshold).

(** ** The first round *)

Lemma foldl_extract_page (l : list (Z * pdfPage)) (acc : list pageText * list Z) :
  foldl (λ acc ip, extract_page ocrThreshold acc ip.1 ip.2) acc l
  = (acc.1 ++ (entry <$> l), acc.2 ++ (filter (λ ip, short ip) l).*1).
Proof.
  revert acc. induction l as [|ip l IH]; intros [pts needed]; cbn [foldl fst snd].
  - by rewrite !app_nil_r.
  - rewrite IH. unfold extract_page, text_layer_entry. cbn [fst snd].
    destruct (Z.lt_ge_cases (js_length (text_layer ip.2)) ocrThreshold) as [Hlt|Hge];
      rewrite ?(proj2 (Z.ltb_lt _ _) Hlt), ?(proj2 (Z.ltb_ge _ _) Hge).
    + rewrite filter_cons_True by exact Hlt. rewrite !fmap_cons. cbn [fst snd].
      rewrite (proj2 (Z.ltb_lt _ _) Hlt). by rewrite <- !app_assoc.
    + rewrite filter_cons_False by (cbn beta; lia). rewrite !fmap_cons. cbn [fst snd].
      rewrite (proj2 (Z.ltb_ge _ _) Hge). by rewrite <- !app_assoc.
Qed.

Lemma first_round (d : pdfDoc) :
  for_each_page d (numPages d) (extract_page ocrThreshold) ([], [])
  = Ok (entry <$> numbered_pages d, short_pages d ocrThreshold).
Proof. rewrite for_each_page_ok by lia. by rewrite foldl_extract_page. Qed.

Lemma numbered_pages_fst (d : pdfDoc) : (numbered_pages d).*1 = seqZ 1 (numPages d).
Proof.
  unfold numbered_pages, numPages. apply fst_zip. rewrite length_seqZ. lia.
Qed.

Lemma numbered_pages_snd (d : pdfDoc) : (numbered_pages d).*2 = d.
Proof.
  unfold numbered_pages, numPages. apply snd_zip. rewrite length_seqZ. lia.
Qed.

Lemma numbered_pages_lookup (d : pdfDoc) (j : nat) (page : pdfPage) :
  d !! j = Some page → numbered_pages d !! j = Some (Z.of_nat j + 1, page).
Proof.
  intros Hj. unfold numbered_pages, numPages.
  apply lookup_zip_with_Some. exists (Z.of_nat j + 1), page.
  split; [done|]. split; [|done].
  apply lookup_seqZ. split; [lia|]. apply lookup_lt_Some in Hj. lia.
Qed.

Lemma entry_pageNum (ip : Z * pdfPage) : pt_pageNum (entry ip) = ip.1.
Proof. unfold text_layer_entry. by destruct (_ <? _). Qed.

Lemma entry_needsOCR (ip : Z * pdfPage) :
  needsOCR (entry ip) = (js_length (text_layer ip.2) <? ocrThreshold).
Proof. unfold text_layer_entry. by destruct (_ <? _). Qed.

Lemma entry_ocrApplied (ip : Z * pdfPage) : ocrApplied (entry ip) = false.
Proof. unfold text_layer_entry. by destruct (_ <? _). Qed.

Lemma entries_pageNum (d : pdfDoc) :
  pt_pageNum <$> (entry <$> numbered_pages d) = seqZ 1 (numPages d).
Proof.
  rewrite <- list_fmap_compose, <- numbered_pages_fst.
  apply list_fmap_ext. intros _ ip _. apply entry_pageNum.
Qed.

Lemma short_pages_sublist (d : pdfDoc) :
  short_pages d ocrThreshold `sublist_of` seqZ 1 (numPages d).
Proof.
  unfold short_pages. rewrite <- numbered_pages_fst.
  apply fmap_sublist, sublist_filter.
Qed.

Lemma elem_of_short_pages (d : pdfDoc) (ip : Z * pdfPage) :
  ip ∈ numbered_pages d → ip.1 ∈ short_pages d ocrThreshold ↔ short ip.
Proof.
  intros Hin. unfold short_pages. rewrite list_elem_of_fmap. split.
  - intros (ip' & Hfst & Hin'). apply list_elem_of_filter in Hin' as [Hshort Hin'].
    assert (ip' = ip) as ->; [|done].
    pose proof (NoDup_seqZ 1 (numPages d)) as Hnd.
    rewrite <- numbered_pages_fst in Hnd.
    apply list_elem_of_lookup in Hin as [j Hj], Hin' as [j' Hj'].
    assert (j' = j) as ->; [|congruence].
    eapply NoDup_lookup; [exact Hnd| |].
    + rewrite list_lookup_fmap, Hj'. done.
    + rewrite list_lookup_fmap, Hj. simpl. by rewrite Hfst.
  - intros Hshort. exists ip. split; [done|]. by apply list_elem_of_filter.
Qed.

(** ** The OCR round *)

Lemma ocrPDFPages_loop_pages (d : pdfDoc) (ocrPage : Z → result jsstring)
    (pageNumbers : list Z) (acc results : list (Z * jsstring)) :
  result_foldl
    (λ results pageNum,
       _ ← getPage d pageNum; text ← ocrPage pageNum;
       Ok (results ++ [(pageNum, text)]))
    acc pageNumbers = Ok results →
  results.*1 = acc.*1 ++ pageNumbers.
Proof.
  revert acc. induction pageNumbers as [|n pageNumbers IH]; intros acc; cbn [result_foldl].
  - intros [= <-]. by rewrite app_nil_r.
  - destruct (getPage d n) as [page|e]; cbn [mbind result_bind]; [|done].
    destruct (ocrPage n) as [text|e]; cbn [mbind result_bind]; [|done].
    intros H. apply IH in H. rewrite H, fmap_app. cbn. by rewrite <- app_assoc.
Qed.

Lemma ocrPDFPages_pages (d : pdfDoc) (ocrPage : Z → result jsstring)
    (pageNumbers : list Z) (results : list (Z * jsstring)) :
  ocrPDFPages d ocrPage pageNumbers = Ok results → results.*1 = pageNumbers.
Proof. apply ocrPDFPages_loop_pages. Qed.

Lemma getPage_in_range (d : pdfDoc) (n : Z) :
  1 ≤ n ≤ numPages d → ∃ page, getPage d n = Ok page.
Proof.
  intros Hn. unfold getPage, numPages in *.
  rewrite (proj2 (Z.leb_le 1 n)) by lia.
  destruct (lookup_lt_is_Some_2 d (Z.to_nat (n - 1)) ltac:(lia)) as [page Hpage].
  rewrite Hpage. eauto.
Qed.

Lemma ocrPDFPages_loop_returns (d : pdfDoc) (ocrPage : Z → result jsstring)
    (pageNumbers : list Z) (acc : list (Z * jsstring)) :
  Forall (λ n, 1 ≤ n ≤ numPages d ∧ ∃ text, ocrPage n = Ok text) pageNumbers →
  ∃ results,
    result_foldl
      (λ results pageNum,
         _ ← getPage d pageNum; text ← ocrPage pageNum;
         Ok (results ++ [(pageNum, text)]))
      acc pageNumbers = Ok results.
Proof.
  intros Hall. revert acc.
  induction Hall as [|n pageNumbers [Hn [text Htext]] _ IH]; intros acc;
    cbn [result_foldl]; [eauto|].
  destruct (getPage_in_range d n Hn) as [page ->]. rewrite Htext.
  cbn [mbind result_bind]. apply IH.
Qed.

Lemma ocrPDFPages_returns (d : pdfDoc) (ocrPage : Z → result jsstring)
    (pageNumbers : list Z) :
  Forall (λ n, 1 ≤ n ≤ numPages d ∧ ∃ text, ocrPage n = Ok text) pageNumbers →
  ∃ results, ocrPDFPages d ocrPage pageNumbers = Ok results.
Proof. apply ocrPDFPages_loop_returns. Qed.

(** With distinct page numbers, merging a result rewrites the one entry
    that carries its page number. *)
Lemma merge_ocr_result_fmap (pts : list pageText) (r : Z * jsstring) :
  NoDup (pt_pageNum <$> pts) →
  merge_ocr_result pts r = (λ p, apply_ocr_result p r) <$> pts.
Proof.
  unfold merge_ocr_result.
  induction pts as [|p pts IH]; intros Hnd; [done|].
  rewrite fmap_cons in Hnd. apply NoDup_cons in Hnd as [Hnotin Hnd].
  cbn [findIndex]. rewrite fmap_cons. unfold apply_ocr_result at 1.
  destruct (Z.eqb_spec (pt_pageNum p) r.1) as [Heq|Hne].
  - cbn. f_equal. symmetry. etrans; [|apply list_fmap_id].
    apply list_fmap_ext. intros _ q Hq%list_elem_of_lookup_2.
    unfold apply_ocr_result.
    destruct (Z.eqb_spec (pt_pageNum q) r.1) as [Heq'|]; [|done].
    exfalso. apply Hnotin. rewrite Heq, <- Heq'. by apply list_elem_of_fmap_2.
  - specialize (IH Hnd). destruct (findIndex _ pts) as [idx|]; cbn.
    + by rewrite <- IH.
    + by rewrite <- IH.
Qed.

Lemma apply_ocr_result_pageNum (p : pageText) (r : Z * jsstring) :
  pt_pageNum (apply_ocr_result p r) = pt_pageNum p.
Proof. unfold apply_ocr_result. by destruct (_ =? _). Qed.

Lemma foldl_merge_ocr_result (results : list (Z * jsstring)) (pts : list pageText) :
  NoDup (pt_pageNum <$> pts) →
  foldl merge_ocr_result pts results
  = (λ p, foldl apply_ocr_result p results) <$> pts.
Proof.
  revert pts. induction results as [|r results IH]; intros pts Hnd; cbn [foldl].
  - by rewrite list_fmap_id.
  - rewrite merge_ocr_result_fmap by done. rewrite IH.
    + by rewrite <- list_fmap_compose.
    + rewrite <- list_fmap_compose.
      erewrite list_fmap_ext; [exact Hnd|].
      intros _ p _. apply apply_ocr_result_pageNum.
Qed.

(** What the results do to a single entry. *)
Lemma foldl_apply_ocr_result (results : list (Z * jsstring)) (p : pageText) :
  let p' := foldl apply_ocr_result p results in
  pt_pageNum p' = pt_pageNum p
  ∧ needsOCR p' = needsOCR p
  ∧ (pt_pageNum p ∉ results.*1 → p' = p)
  ∧ (ocrApplied p' = true ↔ ocrApplied p = true ∨ pt_pageNum p ∈ results.*1).
Proof.
  revert p. induction results as [|r results IH]; intros p; cbn [foldl].
  - repeat split; try done.
    + by left.
    + intros [H|H]; [done|]. by apply not_elem_of_nil in H.
  - destruct (IH (apply_ocr_result p r)) as (Hnum & Hneed & Hsame & Happlied).
    rewrite apply_ocr_result_pageNum in *. rewrite fmap_cons, elem_of_cons.
    unfold apply_ocr_result in *.
    destruct (Z.eqb_spec (pt_pageNum p) r.1) as [Heq|Hne]; cbn in *.
    + repeat split; try done.
      * intros Hnot. exfalso. apply Hnot. by left.
      * intros _. right. by left.
      * intros _. apply Happlied. by left.
    + repeat split; try done.
      * intros Hnot. apply Hsame. intros ?. apply Hnot. by right.
      * intros [?|?]%Happlied; [by left | right; by right].
      * intros [?|[?|?]]; [apply Happlied; by left | done | apply Happlied; by right].
Qed.

Lemma filter_fmap_length {A B} (f : A → B) (P : B → Prop) (Q : A → Prop)
    `{∀ y, Decision (P y)} `{∀ x, Decision (Q x)} (l : list A) :
  (∀ x, Q x ↔ P (f x)) →
  length (filter Q l) = length (filter P (f <$> l)).
Proof.
  intros HQ. induction l as [|x l IH]; [done|]. rewrite fmap_cons.
  destruct (decide (P (f x))) as [HP|HP].
  - rewrite !filter_cons_True by (done || by apply HQ). simpl. by rewrite IH.
  - rewrite !filter_cons_False by (done || by rewrite HQ). done.
Qed.

Lemma slice0_sublist {A} (l : list A) (n : Z) : slice0 l n `sublist_of` l.
Proof. unfold slice0. destruct (n <? 0); apply sublist_take. Qed.

Lemma pages_sent_to_ocr_sublist (d : pdfDoc) (groqApiKey : option jsstring)
    (maxOCRPages : Z) :
  pages_sent_to_ocr d groqApiKey ocrThreshold maxOCRPages
    `sublist_of` short_pages d ocrThreshold.
Proof.
  unfold pages_sent_to_ocr. destruct (_ && _).
  - apply slice0_sublist.
  - apply sublist_nil_l.
Qed.

(** The result of the extraction, entry by entry. *)
Lemma hybridParsePDF_entries (d : pdfDoc) (groqApiKey : option jsstring)
    (maxOCRPages : Z) (ocrPage : Z → result jsstring) (r : hybridResult) :
  hybridParsePDF d groqApiKey ocrThreshold maxOCRPages ocrPage = Ok r →
  ∃ results,
    results.*1 = pages_sent_to_ocr d groqApiKey ocrThreshold maxOCRPages
    ∧ pageTexts r
      = (λ ip, foldl apply_ocr_result (entry ip) results) <$> numbered_pages d
    ∧ textLayerPages (stats r)
      = Z.of_nat (length (filter (λ p, needsOCR p = false) (pageTexts r)))
    ∧ ocrPages (stats r)
      = Z.of_nat (length (filter (λ p, ocrApplied p = true) (pageTexts r))).
Proof.
  unfold hybridParsePDF, pages_sent_to_ocr. rewrite first_round.
  cbn [mbind result_bind fst snd].
  destruct (_ && _).
  - destruct (ocrPDFPages d ocrPage _) as [results|e] eqn:Hocr;
      cbn [mbind result_bind]; [|done].
    intros [= <-]. exists results. cbn [pageTexts stats textLayerPages ocrPages].
    split; [by apply ocrPDFPages_pages in Hocr|].
    rewrite foldl_merge_ocr_result.
    + by rewrite <- list_fmap_compose.
    + rewrite entries_pageNum. apply NoDup_seqZ.
  - cbn [mbind result_bind]. intros [= <-]. exists [].
    cbn [pageTexts stats textLayerPages ocrPages foldl]. done.
Qed.

End Hybrid.

Section HybridExtraction.

Context (d : pdfDoc) (groqApiKey : option jsstring) (ocrThreshold maxOCRPages : Z)
        (ocrPage : Z → result jsstring).

Local Abbreviation sent := (pages_sent_to_ocr d groqApiKey ocrThreshold maxOCRPages).

Lemma pages_sent_to_ocr_range : Forall (λ n, 1 ≤ n ≤ numPages d) sent.
Proof.
  apply Forall_forall. intros n Hn.
  eapply elem_of_sublist in Hn; [|apply pages_sent_to_ocr_sublist].
  eapply elem_of_sublist in Hn; [|apply short_pages_sublist].
  apply elem_of_seqZ in Hn. lia.
Qed.

Lemma pages_sent_to_ocr_NoDup : NoDup sent.
Proof.
  eapply sublist_NoDup; [|apply pages_sent_to_ocr_sublist].
  eapply sublist_NoDup; [apply NoDup_seqZ | apply short_pages_sublist].
Qed.

(** The extraction returns whenever the OCR service answers for every page
    that is submitted to it. *)
Lemma hybridParsePDF_returns :
  Forall (λ n, ∃ text, ocrPage n = Ok text) sent →
  ∃ r, hybridParsePDF d groqApiKey ocrThreshold maxOCRPages ocrPage = Ok r.
Proof.
  intros Hocr. unfold hybridParsePDF. rewrite first_round.
  cbn [mbind result_bind fst snd].
  pose proof pages_sent_to_ocr_range as Hrange. unfold pages_sent_to_ocr in *.
  destruct (_ && _); [|cbn [mbind result_bind]; eauto].
  destruct (ocrPDFPages_returns d ocrPage (slice0 (short_pages d ocrThreshold) maxOCRPages))
    as [results ->]; [|cbn [mbind result_bind]; eauto].
  apply Forall_forall. intros n Hn.
  rewrite Forall_forall in Hocr, Hrange. eauto.
Qed.

(** C7.  In the result of the hybrid extraction, page [j + 1] is marked for
    OCR exactly when the length of its trimmed text layer is strictly below
    the threshold, and a page that is not marked keeps its text layer and is
    not touched by OCR; [textLayerPages] is the number of pages not marked,
    that is of pages at or above the threshold; [ocrPages] is the number of
    entries flagged [ocrApplied], which are exactly the pages that were
    submitted to the OCR service. *)
Theorem hybridParsePDF_pages (r : hybridResult) :
  hybridParsePDF d groqApiKey ocrThreshold maxOCRPages ocrPage = Ok r →
  (∀ (j : nat) page, d !! j = Some page →
     ∃ pt, pageTexts r !! j = Some pt
       ∧ pt_pageNum pt = Z.of_nat j + 1
       ∧ needsOCR pt = (js_length (text_layer page) <? ocrThreshold)
       ∧ (needsOCR pt = false → pt_text pt = text_layer page ∧ ocrApplied pt = false))
  ∧ length (pageTexts r) = length d
  ∧ textLayerPages (stats r)
    = Z.of_nat (length (filter (λ p, needsOCR p = false) (pageTexts r)))
  ∧ textLayerPages (stats r)
    = Z.of_nat (length (filter (λ page, ocrThreshold ≤ js_length (text_layer page)) d))
  ∧ ocrPages (stats r)
    = Z.of_nat (length (filter (λ p, ocrApplied p = true) (pageTexts r)))
  ∧ (∀ pt, pt ∈ pageTexts r → ocrApplied pt = true ↔ pt_pageNum pt ∈ sent)
  ∧ ocrPages (stats r) = Z.of_nat (length sent).
Proof.
  intros Hr.
  destruct (hybridParsePDF_entries ocrThreshold d groqApiKey maxOCRPages ocrPage r Hr)
    as (results & Hsent & Hpts & Htl & Hocr).
  set (g := λ ip, foldl apply_ocr_result (text_layer_entry ocrThreshold ip) results) in *.
  assert (Hg : ∀ ip,
    pt_pageNum (g ip) = ip.1
    ∧ needsOCR (g ip) = (js_length (text_layer ip.2) <? ocrThreshold)
    ∧ (ip.1 ∉ sent → g ip = text_layer_entry ocrThreshold ip)
    ∧ (ocrApplied (g ip) = true ↔ ip.1 ∈ sent)).
  { intros ip. unfold g.
    destruct (foldl_apply_ocr_result results (text_layer_entry ocrThreshold ip))
      as (Hnum & Hneed & Hsame & Happlied).
    rewrite entry_pageNum, ?entry_needsOCR, ?entry_ocrApplied, Hsent in *.
    split; [done|]. split; [done|]. split; [done|]. split.
    - by intros [?|?]%Happlied.
    - intros ?. apply Happlied. by right. }
  split; [|split; [|split; [done|split; [|split; [done|split]]]]].
  - (* page by page *)
    intros j page Hj. exists (g (Z.of_nat j + 1, page)).
    destruct (Hg (Z.of_nat j + 1, page)) as (Hnum & Hneed & Hsame & _). cbn [fst snd] in *.
    split; [by rewrite Hpts, list_lookup_fmap, (numbered_pages_lookup d j page Hj)|].
    split; [done|]. split; [done|].
    rewrite Hneed. intros Hlong%Z.ltb_ge. rewrite Hsame.
    + unfold text_layer_entry. cbn [fst snd].
      by rewrite (proj2 (Z.ltb_ge _ _) Hlong).
    + intros Hin. eapply elem_of_sublist in Hin; [|apply pages_sent_to_ocr_sublist].
      apply (elem_of_short_pages ocrThreshold d (Z.of_nat j + 1, page)) in Hin.
      * cbn [snd] in Hin. lia.
      * eapply list_elem_of_lookup_2, numbered_pages_lookup, Hj.
  - (* one entry per page *)
    rewrite Hpts, length_fmap. rewrite <- (numbered_pages_snd d) at 2.
    by rewrite length_fmap.
  - (* pages served by the text layer *)
    rewrite Htl, Hpts. f_equal.
    rewrite <- (filter_fmap_length g _ (λ ip, ocrThreshold ≤ js_length (text_layer ip.2))).
    + rewrite <- (numbered_pages_snd d) at 2. by apply filter_fmap_length.
    + intros ip. destruct (Hg ip) as (_ & -> & _). by rewrite Z.ltb_ge.
  - (* the flag marks the pages sent to OCR *)
    intros pt. rewrite Hpts. intros (ip & -> & _)%list_elem_of_fmap.
    destruct (Hg ip) as (-> & _ & _ & Happlied). done.
  - (* pages served by OCR *)
    rewrite Hocr, Hpts. f_equal.
    rewrite <- (filter_fmap_length g _ (λ ip, ip.1 ∈ sent)) by (intros ip; symmetry; apply Hg).
    trans (length (filter (λ n, n ∈ sent) (numbered_pages d).*1));
      [by apply filter_fmap_length|].
    rewrite numbered_pages_fst. apply Permutation_length, NoDup_Permutation.
    + apply NoDup_filter, NoDup_seqZ.
    + apply pages_sent_to_ocr_NoDup.
    + intros n. rewrite list_elem_of_filter, elem_of_seqZ. split; [by intros [? _]|].
      intros Hn. split; [done|].
      pose proof pages_sent_to_ocr_range as Hrange. rewrite Forall_forall in Hrange.
      specialize (Hrange n Hn). lia.
Qed.

End HybridExtraction.

(** The scenario of the specification: a text PDF with three pages of 1000
    characters and a threshold of 100 is served by the text layer alone. *)
Lemma hybridParsePDF_pages_witness :
  ∃ r, hybridParsePDF three_text_pages (Some (js "gsk")) 100 999 (λ _, Ok []) = Ok r
       ∧ textLayerPages (stats r) = 3
       ∧ ocrPages (stats r) = 0.
Proof.
  destruct (hybridParsePDF three_text_pages (Some (js "gsk")) 100 999 (λ _, Ok []))
    as [r|e] eqn:Hr; [|vm_compute in Hr; discriminate].
  exists r. split; [reflexivity|].
  destruct (hybridParsePDF_pages _ _ _ _ _ _ Hr) as (_ & _ & _ & Htl & _ & _ & Hocr).
  rewrite Htl, Hocr. split; vm_compute; reflexivity.
Defined.

(* ===================================================================== *)
(** * Properties of the embedding client                                   *)
(* ===================================================================== *)

Section Retry.

Context {A : Type} (fn : Z → result A) (maxRetries : Z).

Local Abbreviation limited := (rate_limited_at fn).
Local Abbreviation decisive := (decisive_at fn maxRetries).
Local Abbreviation outcome := (outcome_at fn).

Lemma retry_trace_step (attempt : Z) (k : nat) :
  retry_trace attempt (S (S k))
  = EvEmbedRequest attempt :: EvSleep (backoffTime attempt)
      :: retry_trace (attempt + 1) (S k).
Proof. reflexivity. Qed.

Lemma withRetry_loop_trace (m remaining : nat) (attempt : Z) (log : list event) :
  (m < remaining)%nat →
  (∀ i : nat, (i < m)%nat → limited (attempt + Z.of_nat i)) →
  attempt + Z.of_nat m ≤ maxRetries →
  decisive (attempt + Z.of_nat m) →
  withRetry_loop fn maxRetries remaining attempt log
  = (outcome (attempt + Z.of_nat m), log ++ retry_trace attempt (S m)).
Proof.
  revert remaining attempt log.
  induction m as [|m IH]; intros remaining attempt log Hrem Hlim Hmax Hdec.
  - destruct remaining as [|remaining]; [lia|].
    replace (attempt + Z.of_nat 0) with attempt in * by lia.
    unfold decisive_at, outcome_at in *. cbn [withRetry_loop retry_trace].
    destruct (fn attempt) as [v|e]; [done|].
    destruct Hdec as [-> | Hlast]; [done|].
    by rewrite (proj2 (Z.ltb_ge attempt maxRetries)), andb_false_r by lia.
  - destruct remaining as [|remaining]; [lia|].
    destruct (Hlim 0%nat ltac:(lia)) as (e & Hfn & Hrl).
    replace (attempt + Z.of_nat 0) with attempt in Hfn by lia.
    cbn [withRetry_loop]. rewrite Hfn, Hrl.
    rewrite (proj2 (Z.ltb_lt attempt maxRetries)) by lia. cbn [andb].
    rewrite (IH remaining (attempt + 1)); [| lia | | lia |].
    + replace (attempt + 1 + Z.of_nat m) with (attempt + Z.of_nat (S m)) by lia.
      by rewrite retry_trace_step, <- app_assoc.
    + intros i Hi. replace (attempt + 1 + Z.of_nat i) with (attempt + Z.of_nat (S i)) by lia.
      apply Hlim. lia.
    + by replace (attempt + 1 + Z.of_nat m) with (attempt + Z.of_nat (S m)) by lia.
Qed.

(** [withRetry] makes its [k]-th call after [k - 1] rate-limited failures,
    pausing [15000 * 2 ^ (i - 1)] ms after the [i]-th, and ends with the
    outcome of the first decisive call. *)
Lemma withRetry_trace (k : Z) :
  1 ≤ k ≤ maxRetries →
  (∀ i, 1 ≤ i < k → limited i) →
  decisive k →
  withRetry fn maxRetries = (outcome k, retry_trace 1 (Z.to_nat k)).
Proof.
  intros Hk Hlim Hdec. unfold withRetry.
  rewrite (withRetry_loop_trace (Z.to_nat (k - 1))); [| lia | | lia |].
  - replace (1 + Z.of_nat (Z.to_nat (k - 1))) with k by lia.
    by replace (S (Z.to_nat (k - 1))) with (Z.to_nat k) by lia.
  - intros i Hi. apply Hlim. lia.
  - by replace (1 + Z.of_nat (Z.to_nat (k - 1))) with k by lia.
Qed.

End Retry.

Lemma backoffTime_doubles (attempt : Z) :
  1 ≤ attempt → backoffTime (attempt + 1) = 2 * backoffTime attempt.
Proof.
  intros H. unfold backoffTime.
  replace (attempt + 1 - 1) with (Z.succ (attempt - 1)) by lia.
  rewrite Z.pow_succ_r by lia. lia.
Qed.

Lemma total_sleep_app (l k : list event) :
  total_sleep (l ++ k) = total_sleep l + total_sleep k.
Proof.
  induction l as [|e l IH]; [done|]. destruct e; cbn [app total_sleep]; lia.
Qed.

(** The pauses of [k] attempts add up to [15000 * (2 ^ (k - 1) - 1)] ms. *)
Lemma total_sleep_retry_trace (k : Z) :
  1 ≤ k ≤ 3 → total_sleep (retry_trace 1 (Z.to_nat k)) = 15000 * (2 ^ (k - 1) - 1).
Proof.
  intros Hk.
  assert (k = 1 ∨ k = 2 ∨ k = 3) as [-> | [-> | ->]] by lia; reflexivity.
Qed.

(** What the time of a call rests on: the clock moves on by the time slept
    in the rate limiter. *)
Lemma waitForRateLimit_clock (g : gemini) :
  clock (waitForRateLimit g).1 = clock g + total_sleep (waitForRateLimit g).2.
Proof.
  unfold waitForRateLimit.
  repeat match goal with
         | |- context [if ?b then _ else _] => destruct b
         end;
    cbn [fst snd clock total_sleep app]; lia.
Qed.



(** A failure of another kind on the first attempt: one request, no pause. *)
Example getEmbedding_bad_request :
  getEmbedding idle_client (λ _, Err bad_request)
  = ((waitForRateLimit idle_client).1, Err bad_request, [EvEmbedRequest 1]).
Proof. vm_compute. reflexivity. Qed.

(** Before [initGemini] the call is rejected at once, and nothing is sent. *)
Example getEmbedding_not_initialized (g : gemini) (provider : Z → result (list float)) :
  genAI g = None → getEmbedding g provider = (g, Err not_initialized, []).
Proof. intros H. unfold getEmbedding. by rewrite H. Qed.

(* ===================================================================== *)
(** * Properties of the conversational turn                                *)
(* ===================================================================== *)

Section Orchestrator.

Lemma withRetry_loop_no_generate {A} (fn : Z → result A) (maxRetries : Z)
    (remaining : nat) (attempt : Z) (events : list event) :
  Forall (λ e, is_generate e = false) events →
  Forall (λ e, is_generate e = false)
    (withRetry_loop fn maxRetries remaining attempt events).2.
Proof.
  revert attempt events.
  induction remaining as [|remaining IH]; intros attempt events Hev;
    cbn [withRetry_loop]; [done|].
  destruct (fn attempt) as [v|e]; cbn [snd].
  - apply Forall_app. split; [done|]. by repeat constructor.
  - destruct (isRateLimit e && (attempt <? maxRetries)); cbn [snd].
    + apply IH. apply Forall_app. split; [done|]. by repeat constructor.
    + apply Forall_app. split; [done|]. by repeat constructor.
Qed.

Lemma waitForRateLimit_no_generate (g : gemini) :
  Forall (λ e, is_generate e = false) (waitForRateLimit g).2.
Proof.
  unfold waitForRateLimit.
  repeat match goal with
         | |- context [if ?b then _ else _] => destruct b
         end; cbn; by repeat constructor.
Qed.

(** The embedding client never calls the answer-generation model. *)
Lemma getEmbedding_no_generate (g : gemini) (provider : Z → result (list float)) :
  Forall (λ e, is_generate e = false) (getEmbedding g provider).2.
Proof.
  unfold getEmbedding. destruct (genAI g); [|by constructor].
  pose proof (waitForRateLimit_no_generate g) as Hw.
  destruct (waitForRateLimit g) as [g' waits].
  pose proof (withRetry_loop_no_generate provider 3 (Z.to_nat 3) 1 [] ltac:(constructor))
    as Hr.
  unfold withRetry. destruct (withRetry_loop _ _ _ _ _) as [outcome calls].
  cbn [snd] in *. by apply Forall_app.
Qed.

(** Saving a chat message does not touch the chunks, so the search sees the
    same knowledge base. *)
Lemma searchChunks_saveChatMessage (database : db) (m : chatMessage)
    (vec : option (list float)) (ids : option (list N)) (limit : Z) :
  searchChunks (saveChatMessage database m) vec ids limit
  = searchChunks database vec ids limit.
Proof. reflexivity. Qed.

(** C1.  A turn whose intent is 'search', whose query is embedded, and whose
    search returns nothing or a best match strictly below the threshold, ends
    with the fixed 'no relevant information' answer (shown and saved after the
    user's message), clears the processing flag, and makes no call of the
    answer-generation model: the turn's events are the intent request and the
    embedding requests only. *)
Theorem handleSendMessage_short_circuit (svc : services) (st : appState)
    (message : jsstring) (i : intent) :
  js_length (trim message) ≠ 0 →
  isProcessing st = false →
  analyzeQueryIntent svc message (chatHistory st) = Some i →
  intent_type i = Some (js "search") →
  ∀ client vec requests,
  getEmbedding (embedder st) (embedContent svc (newQuery i)) = (client, Ok vec, requests) →
  match head (searchChunks (store st) vec (filterIds st) 5) with
  | None => True
  | Some top => (similarity top <? similarityThreshold st)%float = true
  end →
  let st' := handleSendMessage svc st message in
  let userMessage := {| msg_role := user; msg_content := message |} in
  chatHistory st' = chatHistory st ++ [userMessage; noResultMsg]
  ∧ chatHistoryStore (store st')
    = chatHistoryStore (store st) ++ [userMessage; noResultMsg]
  ∧ isProcessing st' = false
  ∧ status st' = status_ready
  ∧ log st' = log st ++ EvIntentRequest :: requests
  ∧ Forall (λ e, is_generate e = false) (EvIntentRequest :: requests).
Proof.
  intros Hmsg Hproc Hintent Htype client vec requests Hembed Htop.
  assert (Hreq : Forall (λ e, is_generate e = false) requests).
  { pose proof (getEmbedding_no_generate (embedder st) (embedContent svc (newQuery i))) as H.
    by rewrite Hembed in H. }
  unfold handleSendMessage.
  rewrite (proj2 (Z.eqb_neq _ _) Hmsg), Hproc. cbn [orb].
  rewrite Hintent, (bool_decide_eq_true_2 _ Htype), Hembed.
  rewrite searchChunks_saveChatMessage.
  destruct (searchChunks (store st) vec (filterIds st) 5) as [|top rest];
    cbn [head] in Htop; [|rewrite Htop]; cbn [update chatHistory store isProcessing
      status log saveChatMessage chatHistoryStore];
    rewrite <- !app_assoc; repeat split; try done; by constructor.
Qed.

(** The scenario of the specification: the best match has similarity 0.196
    against the threshold 0.25. *)
Lemma handleSendMessage_short_circuit_witness :
  chatHistory (handleSendMessage search_services fresh_app (js "question"))
  = [ {| msg_role := user; msg_content := js "question" |}; noResultMsg ]
  ∧ filter (λ e, is_generate e = true)
      (log (handleSendMessage search_services fresh_app (js "question"))) = [].
Proof.
  destruct (handleSendMessage_short_circuit search_services fresh_app (js "question")
              {| intent_type := Some (js "search"); newQuery := Some (js "question") |}
              ltac:(vm_compute; discriminate) eq_refl eq_refl eq_refl
              (waitForRateLimit idle_client).1 (Some [1; 0]%float)
              [EvEmbedRequest 1] ltac:(vm_compute; reflexivity)
              ltac:(vm_compute; reflexivity))
    as (Hhist & _ & _ & _ & Hlog & _).
  split; [exact Hhist|]. rewrite Hlog. reflexivity.
Defined.

(** With a best match above the threshold the same turn does call the
    answer-generation model, once. *)
Example handleSendMessage_generates :
  filter (λ e, is_generate e = true)
    (log (handleSendMessage
            {| analyzeQueryIntent := analyzeQueryIntent search_services;
               embedContent := λ _ _, Ok [1; 5]%float;
               chatWithGroq := chatWithGroq search_services |}
            fresh_app (js "question")))
  = [EvGenerate (js "question")].
Proof. vm_compute. reflexivity. Qed.

End Orchestrator.


(* ===================================================================== *)
(** * Further properties of the retry loop and of the turn                 *)
(* ===================================================================== *)

Section RetryShape.

Context {A : Type} (fn : Z → result A) (maxRetries : Z).

Lemma retry_trace_requests (attempt : Z) (n : nat) :
  length (filter (λ e, is_embed_request e = true) (retry_trace attempt n)) = n.
Proof.
  destruct n as [|n]; [done|]. revert attempt.
  induction n as [|n IH]; intros attempt; [done|].
  change (retry_trace attempt (S (S n)))
    with (EvEmbedRequest attempt :: EvSleep (backoffTime attempt)
            :: retry_trace (attempt + 1) (S n)).
  rewrite filter_cons_True by done. rewrite filter_cons_False by done.
  cbn [length]. by rewrite IH.
Qed.

Lemma retry_trace_client_only (attempt : Z) (n : nat) :
  Forall (λ e, is_generate e = false ∧ is_intent_request e = false)
    (retry_trace attempt n).
Proof.
  destruct n as [|n]; [constructor|]. revert attempt.
  induction n as [|n IH]; intros attempt; [by repeat constructor|].
  change (retry_trace attempt (S (S n)))
    with (EvEmbedRequest attempt :: EvSleep (backoffTime attempt)
            :: retry_trace (attempt + 1) (S n)).
  constructor; [done|]. constructor; [done|]. apply IH.
Qed.

(** Whatever the calls answer, the loop issues requests [attempt],
    [attempt + 1], ... separated by the backoff pauses, and no more of them
    than iterations are left. *)
Lemma withRetry_loop_shape (remaining : nat) (attempt : Z) (events : list event) :
  Z.of_nat remaining = Z.max 0 (maxRetries - attempt + 1) →
  ∃ n : nat,
    (n ≤ remaining)%nat
    ∧ (withRetry_loop fn maxRetries remaining attempt events).2
      = events ++ retry_trace attempt n
    ∧ (n = 0%nat ↔ remaining = 0%nat)
    ∧ ((withRetry_loop fn maxRetries remaining attempt events).1 = Ok None
       ↔ remaining = 0%nat).
Proof.
  revert attempt events.
  induction remaining as [|remaining IH]; intros attempt events Hrem;
    cbn [withRetry_loop].
  - exists 0%nat. cbn [fst snd retry_trace]. by rewrite app_nil_r.
  - destruct (fn attempt) as [v|e].
    + exists 1%nat. cbn [fst snd retry_trace]. repeat split; try done; lia.
    + destruct (isRateLimit e && (attempt <? maxRetries)) eqn:Hretry.
      * apply andb_prop in Hretry as [_ Hlt%Z.ltb_lt].
        destruct (IH (attempt + 1)
                    (events ++ [EvEmbedRequest attempt; EvSleep (backoffTime attempt)]))
          as (n & Hn & Hlog & Hzero & Hnone); [lia|].
        destruct n as [|n]; [lia|].
        exists (S (S n)). split; [lia|]. split.
        { rewrite Hlog, <- app_assoc. done. }
        split; [done|]. rewrite Hnone. split; [lia | done].
      * exists 1%nat. cbn [fst snd retry_trace]. repeat split; try done; lia.
Qed.

(** X1.  For every behaviour of the wrapped call, [withRetry] makes at most
    [maxRetries] calls, numbered from 1 and separated by the pauses 15 s,
    30 s, ...; it makes none exactly when [maxRetries] is not positive, the
    only case in which it resolves with [undefined]. *)
Theorem withRetry_bounded :
  ∃ n : nat,
    Z.of_nat n ≤ Z.max 0 maxRetries
    ∧ (withRetry fn maxRetries).2 = retry_trace 1 n
    ∧ length (filter (λ e, is_embed_request e = true) (withRetry fn maxRetries).2) = n
    ∧ (n = 0%nat ↔ maxRetries ≤ 0)
    ∧ ((withRetry fn maxRetries).1 = Ok None ↔ maxRetries ≤ 0).
Proof.
  unfold withRetry.
  destruct (withRetry_loop_shape (Z.to_nat maxRetries) 1 []) as (n & Hn & Hlog & Hzero & Hnone);
    [lia|].
  exists n. cbn [app] in Hlog. rewrite Hlog, retry_trace_requests.
  split; [lia|]. split; [done|]. split; [done|].
  rewrite Hzero, Hnone. lia.
Qed.

End RetryShape.


Section Turn.

Context (svc : services) (st : appState) (message : jsstring).

(** Case analysis along the control flow of [handleSendMessage]. *)
Ltac turn_cases :=
  unfold handleSendMessage, generate, turn_failed;
  repeat match goal with
         | |- context [if ?b then _ else _] => destruct b eqn:?
         | |- context [match ?x with _ => _ end] => destruct x eqn:?
         end.

(** X2.  A turn leaves the processing flag as it found it: a message that is
    accepted (the application is idle) always ends with the flag cleared,
    whichever service fails, and a message sent while a turn is in progress
    changes nothing. *)
Theorem handleSendMessage_processing_flag :
  isProcessing (handleSendMessage svc st message) = isProcessing st
  ∧ (isProcessing st = false ∨ handleSendMessage svc st message = st).
Proof.
  split.
  - turn_cases; cbn [update isProcessing]; try done;
      match goal with H : (_ || isProcessing st) = false |- _ =>
        apply orb_false_elim in H as [_ H]; by rewrite H end.
  - destruct (isProcessing st) eqn:H; [right|by left].
    unfold handleSendMessage. by rewrite H, orb_true_r.
Qed.

Lemma waitForRateLimit_sleeps (g : gemini) :
  Forall (λ e, ∃ ms, e = EvSleep ms) (waitForRateLimit g).2.
Proof.
  unfold waitForRateLimit.
  repeat match goal with
         | |- context [if ?b then _ else _] => destruct b
         end; cbn; repeat constructor; eauto.
Qed.

Lemma count_events_app (kind : event → bool) (l k : list event) :
  count_events kind (l ++ k) = (count_events kind l + count_events kind k)%nat.
Proof. unfold count_events. by rewrite filter_app, length_app. Qed.

Lemma count_events_cons (kind : event → bool) (e : event) (l : list event) :
  count_events kind (e :: l)
  = ((if kind e then 1 else 0) + count_events kind l)%nat.
Proof.
  unfold count_events. destruct (kind e) eqn:He.
  - by rewrite filter_cons_True by done.
  - by rewrite filter_cons_False by (by rewrite He).
Qed.

Lemma count_events_nil (kind : event → bool) : count_events kind [] = 0%nat.
Proof. done. Qed.

Ltac count_events_tac :=
  repeat (rewrite count_events_app || rewrite count_events_cons
          || rewrite count_events_nil);
  cbn [is_generate is_embed_request is_intent_request];
  repeat split; try done; lia.

Lemma count_events_none (kind : event → bool) (l : list event) :
  Forall (λ e, kind e = false) l → count_events kind l = 0%nat.
Proof.
  unfold count_events. induction 1 as [|e l He _ IH]; [done|].
  rewrite filter_cons_False by (by rewrite He). done.
Qed.

(** The embedding client sends at most three requests, and never calls the
    chat model. *)
Lemma getEmbedding_requests (g : gemini) (provider : Z → result (list float)) :
  (count_events is_embed_request (getEmbedding g provider).2 ≤ 3)%nat
  ∧ count_events is_generate (getEmbedding g provider).2 = 0%nat
  ∧ count_events is_intent_request (getEmbedding g provider).2 = 0%nat.
Proof.
  unfold getEmbedding. destruct (genAI g); [|cbn [snd]; count_events_tac].
  pose proof (waitForRateLimit_sleeps g) as Hw.
  destruct (waitForRateLimit g) as [g' waits]. cbn [snd] in Hw.
  destruct (withRetry_loop_shape provider 3 (Z.to_nat 3) 1 [] ltac:(lia))
    as (n & Hn & Hlog & _).
  unfold withRetry.
  destruct (withRetry_loop provider 3 (Z.to_nat 3) 1 []) as [outcome calls].
  cbn [snd app] in *. subst calls.
  rewrite !count_events_app.
  rewrite !(count_events_none _ waits)
    by (eapply Forall_impl; [exact Hw|]; by intros ? [? ->]).
  unfold count_events at 1. rewrite retry_trace_requests.
  pose proof (retry_trace_client_only 1 n) as Hc.
  rewrite !(count_events_none _ (retry_trace 1 n))
    by (eapply Forall_impl; [exact Hc|]; by intros ? [? ?]).
  lia.
Qed.

(** X3.  In the course of one turn the application asks for the intent at
    most once, sends at most three embedding requests and calls the
    answer-generation model at most once; the log only grows. *)
Theorem handleSendMessage_calls :
  ∃ events,
    log (handleSendMessage svc st message) = log st ++ events
    ∧ (count_events is_intent_request events ≤ 1)%nat
    ∧ (count_events is_embed_request events ≤ 3)%nat
    ∧ (count_events is_generate events ≤ 1)%nat.
Proof.
  unfold handleSendMessage.
  destruct (_ || _); [exists []; rewrite app_nil_r; count_events_tac|].
  destruct (analyzeQueryIntent svc message (chatHistory st)) as [i|];
    [|exists [EvIntentRequest]; split; [done|count_events_tac]].
  destruct (bool_decide _).
  - pose proof (getEmbedding_requests (embedder st) (embedContent svc (newQuery i)))
      as (Hreq & Hgen & Hint).
    destruct (getEmbedding _ _) as [[client vec] requests]. cbn [snd] in *.
    destruct vec as [vec|err].
    + destruct (match searchChunks _ _ _ _ with [] => true | _ => _ end).
      * exists (EvIntentRequest :: requests). cbn [update log].
        rewrite <- app_assoc. split; [done|].
        count_events_tac.
      * exists (EvIntentRequest :: requests ++ [EvGenerate (generation_prompt i message)]).
        split.
        { unfold generate, turn_failed, generation_prompt.
          destruct (chatWithGroq svc _ _ _); cbn [update log];
            by rewrite <- !app_assoc. }
        count_events_tac.
    + exists (EvIntentRequest :: requests). unfold turn_failed. cbn [update log].
      rewrite <- app_assoc. split; [done|].
      count_events_tac.
  - exists [EvIntentRequest; EvGenerate (generation_prompt i message)].
    split; [|count_events_tac].
    unfold generate, turn_failed, generation_prompt.
    destruct (chatWithGroq svc _ _ _); cbn [update log]; by rewrite <- !app_assoc.
Qed.

End Turn.


Section TurnPaths.

Context (svc : services) (st : appState) (message : jsstring).

Local Abbreviation userMessage := {| msg_role := user; msg_content := message |}.
Local Abbreviation st' := (handleSendMessage svc st message).

(** X4.  Every accepted turn shows the user's message followed by exactly one
    assistant message, and saves the user's message.  The assistant message
    is saved too, except when the turn failed: an error is shown in the chat
    and in the status banner but is not written to the chat history store.
    The stored documents and chunks are not touched. *)
Theorem handleSendMessage_history :
  js_length (trim message) ≠ 0 →
  isProcessing st = false →
  ∃ reply,
    chatHistory st' = chatHistory st ++ [userMessage; reply]
    ∧ msg_role reply = assistant
    ∧ inputMessage st' = []
    ∧ chunks (store st') = chunks (store st)
    ∧ documents (store st') = documents (store st)
    ∧ ((status st' = status_ready
        ∧ chatHistoryStore (store st')
          = chatHistoryStore (store st) ++ [userMessage; reply])
       ∨ (∃ err, reply = errorMessage err
          ∧ status_type (status st') = status_error
          ∧ chatHistoryStore (store st')
            = chatHistoryStore (store st) ++ [userMessage])).
Proof.
  intros Hmsg Hidle. unfold handleSendMessage.
  rewrite (proj2 (Z.eqb_neq _ _) Hmsg), Hidle. cbn [orb].
  unfold generate, turn_failed.
  repeat match goal with
         | |- context [if ?b then _ else _] => destruct b eqn:?
         | |- context [match ?x with _ => _ end] => destruct x eqn:?
         end;
    cbn [update chatHistory inputMessage store status saveChatMessage chunks
           documents chatHistoryStore];
    eexists; rewrite <- ?app_assoc;
    (split; [reflexivity|]); (split; [reflexivity|]); (split; [reflexivity|]);
    (split; [reflexivity|]); (split; [reflexivity|]);
    first [ left; split; reflexivity
          | right; eexists; split; [reflexivity|]; split; reflexivity ].
Qed.

(** X5.  When the intent is not 'search' (a chat intent, or an answer without
    a type), the turn sends no embedding request and runs no search: it asks
    for the intent, then calls answer generation once with the chunks of the
    previous search as context, and leaves the embedding client and the
    remembered chunks as they were. *)
Theorem handleSendMessage_chat_intent (i : intent) :
  js_length (trim message) ≠ 0 →
  isProcessing st = false →
  analyzeQueryIntent svc message (chatHistory st) = Some i →
  intent_type i ≠ Some (js "search") →
  log st' = log st ++ [EvIntentRequest; EvGenerate (generation_prompt i message)]
  ∧ embedder st' = embedder st
  ∧ lastChunks st' = lastChunks st
  ∧ match chatWithGroq svc (generation_prompt i message) (lastChunks st) (chatHistory st) with
    | Ok aiResponse =>
        chatHistory st'
        = chatHistory st
            ++ [userMessage; {| msg_role := assistant; msg_content := aiResponse |}]
    | Err err => chatHistory st' = chatHistory st ++ [userMessage; errorMessage err]
    end.
Proof.
  intros Hmsg Hidle Hintent Htype. unfold handleSendMessage.
  rewrite (proj2 (Z.eqb_neq _ _) Hmsg), Hidle. cbn [orb].
  rewrite Hintent, (bool_decide_eq_false_2 _ Htype).
  unfold generate, turn_failed, generation_prompt.
  destruct (chatWithGroq svc _ _ _);
    cbn [update log embedder lastChunks chatHistory]; by rewrite <- !app_assoc.
Qed.

Lemma float_ltb_nan_l (x : float) : (nan <? x)%float = false.
Proof. rewrite ltb_spec. reflexivity. Qed.

(** X6.  A best match whose similarity is NaN (the query or the stored vector
    has no non-zero component) is not treated as 'no relevant information':
    NaN is not below any threshold, so the turn goes on to answer generation
    with the search results as context. *)
Theorem handleSendMessage_nan_similarity (i : intent) :
  js_length (trim message) ≠ 0 →
  isProcessing st = false →
  analyzeQueryIntent svc message (chatHistory st) = Some i →
  intent_type i = Some (js "search") →
  ∀ client vec requests top rest,
  getEmbedding (embedder st) (embedContent svc (newQuery i)) = (client, Ok vec, requests) →
  searchChunks (store st) vec (filterIds st) 5 = top :: rest →
  similarity top = nan →
  log st'
  = log st ++ EvIntentRequest :: requests ++ [EvGenerate (generation_prompt i message)]
  ∧ lastChunks st' = top :: rest.
Proof.
  intros Hmsg Hidle Hintent Htype client vec requests top rest Hembed Hsearch Hnan.
  unfold handleSendMessage.
  rewrite (proj2 (Z.eqb_neq _ _) Hmsg), Hidle. cbn [orb].
  rewrite Hintent, (bool_decide_eq_true_2 _ Htype), Hembed.
  rewrite searchChunks_saveChatMessage, Hsearch, Hnan, float_ltb_nan_l.
  unfold generate, turn_failed, generation_prompt.
  destruct (chatWithGroq svc _ _ _);
    cbn [update log lastChunks]; by rewrite <- !app_assoc.
Qed.

End TurnPaths.

(** Answer generation fails: the error is shown and not saved. *)
Lemma handleSendMessage_history_witness :
  ∃ reply,
    chatHistory (handleSendMessage failing_services fresh_app (js "question"))
    = chatHistory fresh_app ++ [ {| msg_role := user; msg_content := js "question" |}; reply ]
    ∧ chatHistoryStore (store (handleSendMessage failing_services fresh_app (js "question")))
      = [ {| msg_role := user; msg_content := js "question" |} ].
Proof.
  destruct (handleSendMessage_history failing_services fresh_app (js "question")
              ltac:(vm_compute; discriminate) eq_refl)
    as (reply & Hhist & _ & _ & _ & _ & [[Hready _] | (err & _ & _ & Hstore)]).
  - vm_compute in Hready. discriminate.
  - exists reply. split; [exact Hhist | exact Hstore].
Defined.

(** A chat intent: two events, no embedding request. *)
Lemma handleSendMessage_chat_intent_witness :
  log (handleSendMessage chat_services fresh_app (js "question"))
  = [EvIntentRequest; EvGenerate (js "question")].
Proof.
  exact (proj1 (handleSendMessage_chat_intent chat_services fresh_app (js "question")
                  {| intent_type := Some (js "chat"); newQuery := None |}
                  ltac:(vm_compute; discriminate) eq_refl eq_refl
                  ltac:(vm_compute; discriminate))).
Defined.

(** The only chunk has the zero vector as embedding: its similarity is NaN
    and the answer-generation model is called. *)
Lemma handleSendMessage_nan_similarity_witness :
  log (handleSendMessage search_services zero_vector_app (js "question"))
  = [EvIntentRequest; EvEmbedRequest 1; EvGenerate (js "question")].
Proof.
  refine (proj1 (handleSendMessage_nan_similarity search_services zero_vector_app
                   (js "question")
                   {| intent_type := Some (js "search"); newQuery := Some (js "question") |}
                   ltac:(vm_compute; discriminate) eq_refl eq_refl eq_refl
                   (waitForRateLimit idle_client).1 (Some [1; 0]%float) [EvEmbedRequest 1]
                   {| sc_id := 1;
                      sc_chunk := {| docId := 1; chunk_content := js "text";
                                     embedding := Some [0; 0]%float; ocrUsed := false |};
                      similarity := nan |} []
                   ltac:(vm_compute; reflexivity) ltac:(vm_compute; reflexivity) eq_refl)).
Defined.


(* ===================================================================== *)
(** * Properties of the rate limiter and of batch embedding                *)
(* ===================================================================== *)

Section RateLimiter.

(** What the pacing of successive requests rests on. *)
Lemma waitForRateLimit_gap (g : gemini) :
  lastRequestTime (RATE_LIMIT g) + minDelayMs ≤ clock (waitForRateLimit g).1
  ∧ lastRequestTime (RATE_LIMIT (waitForRateLimit g).1) = clock (waitForRateLimit g).1
  ∧ genAI (waitForRateLimit g).1 = genAI g.
Proof.
  unfold waitForRateLimit, minDelayMs, maxRequestsPerMinute.
  destruct g as [key [last count start] now]. cbn [clock RATE_LIMIT genAI].
  repeat match goal with
         | |- context [if ?b then _ else _] => destruct b eqn:?
         end;
    cbn [fst snd clock RATE_LIMIT genAI lastRequestTime requestCount windowStart
           total_sleep app] in *;
    repeat match goal with
           | H : (_ && _) = true |- _ => apply andb_prop in H as [? ?]
           | H : (_ && _) = false |- _ => apply andb_false_iff in H
           | H : (_ <? _) = true |- _ => apply Z.ltb_lt in H
           | H : (_ <? _) = false |- _ => apply Z.ltb_ge in H
           | H : (_ <=? _) = true |- _ => apply Z.leb_le in H
           | H : (_ <=? _) = false |- _ => apply Z.leb_gt in H
           end;
    cbn [lastRequestTime requestCount windowStart] in *;
    repeat split; try done; try lia;
    repeat match goal with
           | H : _ ∨ _ |- _ => destruct H
           | H : (_ <? _) = false |- _ => apply Z.ltb_ge in H
           | H : (_ <=? _) = false |- _ => apply Z.leb_gt in H
           end; lia.
Qed.

(** X7.  One passage through the embedding rate limiter: the caller goes on
    at least 4500 ms after the time recorded in [RATE_LIMIT.lastRequestTime]
    (the time at which the previous passage ended, not that of a request
    re-sent by [withRetry] since), whatever the clock shows on entry; the
    request counter never exceeds 15; the time at which the passage ends is
    recorded in [lastRequestTime]; the clock advances by exactly the time
    slept; the credential is kept. *)
Theorem waitForRateLimit_spacing (g : gemini) :
  lastRequestTime (RATE_LIMIT g) + minDelayMs ≤ clock (waitForRateLimit g).1
  ∧ requestCount (RATE_LIMIT (waitForRateLimit g).1) ≤ maxRequestsPerMinute
  ∧ lastRequestTime (RATE_LIMIT (waitForRateLimit g).1) = clock (waitForRateLimit g).1
  ∧ clock (waitForRateLimit g).1 = clock g + total_sleep (waitForRateLimit g).2
  ∧ 0 ≤ total_sleep (waitForRateLimit g).2
  ∧ genAI (waitForRateLimit g).1 = genAI g.
Proof.
  unfold waitForRateLimit, minDelayMs, maxRequestsPerMinute.
  destruct g as [key [last count start] now]. cbn [clock RATE_LIMIT genAI].
  repeat match goal with
         | |- context [if ?b then _ else _] => destruct b eqn:?
         end;
    cbn [fst snd clock RATE_LIMIT genAI lastRequestTime requestCount windowStart
           total_sleep app] in *;
    repeat match goal with
           | H : (_ && _) = true |- _ => apply andb_prop in H as [? ?]
           | H : (_ && _) = false |- _ => apply andb_false_iff in H
           | H : (_ <? _) = true |- _ => apply Z.ltb_lt in H
           | H : (_ <? _) = false |- _ => apply Z.ltb_ge in H
           | H : (_ <=? _) = true |- _ => apply Z.leb_le in H
           | H : (_ <=? _) = false |- _ => apply Z.leb_gt in H
           end;
    cbn [lastRequestTime requestCount windowStart] in *;
    repeat split; try done; try lia;
    repeat match goal with
           | H : _ ∨ _ |- _ => destruct H
           | H : (_ <? _) = false |- _ => apply Z.ltb_ge in H
           | H : (_ <=? _) = false |- _ => apply Z.leb_gt in H
           end; lia.
Qed.

Lemma send_times_waitForRateLimit (g : gemini) (events : list event) :
  send_times (clock g) ((waitForRateLimit g).2 ++ events)
  = send_times (clock (waitForRateLimit g).1) events.
Proof.
  unfold waitForRateLimit.
  repeat match goal with
         | |- context [if ?b then _ else _] => destruct b
         end;
    cbn [fst snd clock send_times app]; try done; f_equal; lia.
Qed.

(** The requests of one call of [withRetry] with three attempts leave at
    once, 15 s later and 45 s later. *)
Lemma send_times_withRetry {A} (fn : Z → result A) (t : Z) :
  send_times t (withRetry fn 3).2 = [t]
  ∨ send_times t (withRetry fn 3).2 = [t; t + 15000]
  ∨ send_times t (withRetry fn 3).2 = [t; t + 15000; t + 45000].
Proof.
  unfold withRetry. change (Z.to_nat 3) with 3%nat. cbn [withRetry_loop].
  change (1 + 1) with 2. change (2 + 1) with 3.
  change (backoffTime 1) with 15000. change (backoffTime 2) with 30000.
  change (1 <? 3) with true. change (2 <? 3) with true. change (3 <? 3) with false.
  destruct (fn 1) as [v|e]; [by left|].
  destruct (isRateLimit e); cbn [andb]; [|by left].
  destruct (fn 2) as [v|e2]; [by right; left|].
  destruct (isRateLimit e2); cbn [andb]; [|by right; left].
  right; right.
  destruct (fn 3) as [v|e3]; [|rewrite andb_false_r];
    cbn [snd app send_times];
    by replace (t + 15000 + 30000) with (t + 45000) by lia.
Qed.

(** The requests of one call: the first leaves when the rate limiter lets
    the caller go on. *)
Lemma request_times_call (key : jsstring) (g : gemini) (fn : Z → result (list float)) :
  genAI g = Some key →
  let t := clock (waitForRateLimit g).1 in
  let ts := send_times (clock g) (getEmbedding g fn).2 in
  (ts = [t] ∨ ts = [t; t + 15000] ∨ ts = [t; t + 15000; t + 45000])
  ∧ lastRequestTime (RATE_LIMIT (getEmbedding g fn).1.1) = t
  ∧ genAI (getEmbedding g fn).1.1 = Some key.
Proof.
  intros Hkey t ts. subst t ts. unfold getEmbedding. rewrite Hkey.
  pose proof (send_times_waitForRateLimit g (withRetry fn 3).2) as Hsend.
  pose proof (waitForRateLimit_gap g) as (_ & Hlast & Hgen).
  destruct (waitForRateLimit g) as [g' waits]. cbn [fst snd] in *.
  pose proof (send_times_withRetry fn (clock g')) as Hts.
  destruct (withRetry fn 3) as [outcome calls]. cbn [fst snd elapse RATE_LIMIT genAI] in *.
  rewrite Hsend. split; [exact Hts|]. split; [done|]. by rewrite Hgen.
Qed.

Lemma request_times_step (key : jsstring) (calls : list (Z * (Z → result (list float)))) :
  ∀ (g : gemini) (i : nat) (ts ts' : list Z),
  genAI g = Some key →
  request_times g calls !! i = Some ts →
  request_times g calls !! S i = Some ts' →
  ∃ t t', head ts = Some t ∧ head ts' = Some t' ∧ t + minDelayMs ≤ t'.
Proof.
  induction calls as [|[idle fn] calls IH]; intros g i ts ts' Hkey; [done|].
  cbn [request_times].
  pose proof (request_times_call key (elapse g idle) fn Hkey) as (Hts & Hlast & Hkey').
  cbn zeta in Hts. cbn [elapse clock] in *.
  destruct (getEmbedding (elapse g idle) fn) as [[g1 out] events] eqn:Hrun.
  cbn [fst snd] in *.
  destruct i as [|i]; cbn [lookup list_lookup]; [|by apply IH].
  intros [= <-]. destruct calls as [|[idle' fn'] calls]; [done|].
  cbn [request_times].
  pose proof (request_times_call key (elapse g1 idle') fn' Hkey') as (Hts' & _).
  cbn zeta in Hts'. cbn [elapse clock] in *.
  destruct (getEmbedding (elapse g1 idle') fn') as [[g2 out'] events'].
  cbn [fst snd lookup list_lookup] in *. intros [= <-].
  pose proof (waitForRateLimit_gap (elapse g1 idle')) as (Hgap & _).
  cbn [elapse RATE_LIMIT] in Hgap. rewrite Hlast in Hgap.
  exists (clock (waitForRateLimit (elapse g idle)).1),
    (clock (waitForRateLimit (elapse g1 idle')).1).
  split; [by destruct Hts as [-> | [-> | ->]]|].
  split; [by destruct Hts' as [-> | [-> | ->]]|]. exact Hgap.
Qed.

Lemma request_times_initialized (key : jsstring)
    (calls : list (Z * (Z → result (list float)))) :
  ∀ (g : gemini) (i : nat) (ts : list Z),
  genAI g = Some key →
  request_times g calls !! i = Some ts →
  ∃ t, ts = [t] ∨ ts = [t; t + 15000] ∨ ts = [t; t + 15000; t + 45000].
Proof.
  induction calls as [|[idle fn] calls IH]; intros g i ts Hkey; [done|].
  cbn [request_times].
  pose proof (request_times_call key (elapse g idle) fn Hkey) as (Hts & _ & Hkey').
  cbn zeta in Hts. cbn [elapse clock] in *.
  destruct (getEmbedding (elapse g idle) fn) as [[g1 out] events].
  cbn [fst snd] in *.
  destruct i as [|i]; cbn [lookup list_lookup]; [|by apply IH].
  intros [= <-]. by eexists.
Qed.


End RateLimiter.



Section BatchEmbedding.

Context (provider : Z → Z → result (list float)) (key : jsstring).

Lemma getEmbedding_initialized (g : gemini) (fn : Z → result (list float)) :
  genAI g = Some key →
  getEmbedding g fn
  = (elapse (waitForRateLimit g).1 (total_sleep (withRetry fn 3).2), (withRetry fn 3).1,
     (waitForRateLimit g).2 ++ (withRetry fn 3).2).
Proof.
  intros Hkey. unfold getEmbedding. rewrite Hkey.
  by destruct (waitForRateLimit g), (withRetry fn 3).
Qed.

Lemma progress_reports_app (l k : list batchEvent) :
  progress_reports (l ++ k) = progress_reports l ++ progress_reports k.
Proof.
  induction l as [|e l IH]; [done|]. destruct e; cbn [app progress_reports]; [|done].
  by rewrite IH.
Qed.

Lemma progress_reports_client (events : list event) :
  progress_reports (BatchClient <$> events) = [].
Proof. induction events as [|e events IH]; [done|]. by rewrite fmap_cons. Qed.

Lemma client_events_app (l k : list batchEvent) :
  client_events (l ++ k) = client_events l ++ client_events k.
Proof.
  induction l as [|e l IH]; [done|]. destruct e; cbn [app client_events]; [done|].
  by rewrite IH.
Qed.

Lemma client_events_client (events : list event) :
  client_events (BatchClient <$> events) = events.
Proof.
  induction events as [|e events IH]; [done|].
  rewrite fmap_cons. cbn [client_events]. by rewrite IH.
Qed.

Lemma attempts_of_app (l k : list event) :
  attempts_of (l ++ k) = attempts_of l ++ attempts_of k.
Proof.
  induction l as [|e l IH]; [done|]. destruct e; cbn [app attempts_of]; by rewrite ?IH.
Qed.

(** The rate limiter sends nothing. *)
Lemma attempts_of_waitForRateLimit (g : gemini) :
  attempts_of (waitForRateLimit g).2 = [].
Proof.
  unfold waitForRateLimit.
  repeat match goal with
         | |- context [if ?b then _ else _] => destruct b
         end; reflexivity.
Qed.

Lemma progress_for_cons (total i : Z) (m : nat) :
  progress_for total i (Z.of_nat (S m))
  = (i + 1, total, estimatedRemainingTime (total - i))
      :: progress_for total (i + 1) (Z.of_nat m).
Proof.
  unfold progress_for. rewrite seqZ_cons by lia. rewrite fmap_cons.
  replace (Z.pred (Z.of_nat (S m))) with (Z.of_nat m) by lia.
  by replace (Z.succ i) with (i + 1) by lia.
Qed.

Lemma attempts_for_cons (i : Z) (m : nat) :
  concat (attempts_for provider <$> seqZ i (Z.of_nat (S m)))
  = attempts_for provider i ++ concat (attempts_for provider <$> seqZ (i + 1) (Z.of_nat m)).
Proof.
  rewrite seqZ_cons by lia. rewrite fmap_cons.
  replace (Z.pred (Z.of_nat (S m))) with (Z.of_nat m) by lia.
  by replace (Z.succ i) with (i + 1) by lia.
Qed.

Lemma getEmbeddingsBatch_loop_spec (total : Z) (texts : list jsstring) :
  ∀ (i : Z) (g : gemini) (results : list (option (list float)))
    (events : list batchEvent),
  genAI g = Some key →
  let run := getEmbeddingsBatch_loop provider true total texts i g results events in
  match run.1.2 with
  | Ok all =>
      ∃ new, all = results ++ new
        ∧ Forall2 (λ k v, embedding_outcome provider k = Ok v)
            (seqZ i (Z.of_nat (length texts))) new
        ∧ progress_reports run.2
          = progress_reports events ++ progress_for total i (Z.of_nat (length texts))
        ∧ attempts_of (client_events run.2)
          = attempts_of (client_events events)
              ++ concat (attempts_for provider <$> seqZ i (Z.of_nat (length texts)))
  | Err e =>
      ∃ k : nat, (k < length texts)%nat
        ∧ embedding_outcome provider (i + Z.of_nat k) = Err e
        ∧ (∀ k' : nat, (k' < k)%nat →
             ∃ v, embedding_outcome provider (i + Z.of_nat k') = Ok v)
        ∧ progress_reports run.2
          = progress_reports events ++ progress_for total i (Z.of_nat (S k))
        ∧ attempts_of (client_events run.2)
          = attempts_of (client_events events)
              ++ concat (attempts_for provider <$> seqZ i (Z.of_nat (S k)))
        ∧ run = getEmbeddingsBatch_loop provider true total (take (S k) texts) i g
                  results events
  end.
Proof.
  induction texts as [|text texts IH]; intros i g results events Hkey.
  - cbn. exists []. rewrite !app_nil_r. split; [done|]. split; [constructor|done].
  - cbn [getEmbeddingsBatch_loop]. rewrite (getEmbedding_initialized g _ Hkey).
    fold (embedding_outcome provider i).
    destruct (embedding_outcome provider i) as [v|e] eqn:Hout.
    + set (g1 := elapse (waitForRateLimit g).1 (total_sleep (withRetry (provider i) 3).2)).
      assert (Hkey' : genAI g1 = Some key).
      { subst g1. cbn [elapse genAI].
        destruct (waitForRateLimit_gap g) as (_ & _ & ->). done. }
      specialize (IH (i + 1) g1 (results ++ [v])
                    ((events ++ [BatchProgress (i + 1) total
                                   (estimatedRemainingTime (total - i))])
                       ++ (BatchClient <$> (waitForRateLimit g).2
                                             ++ (withRetry (provider i) 3).2)) Hkey').
      cbn zeta in IH.
      destruct (getEmbeddingsBatch_loop provider true total texts _ _ _ _)
        as [[g' [all|e]] evs] eqn:Hrun; cbn [fst snd] in *.
      * destruct IH as (new & -> & Hall & Hprog & Hreq). exists (v :: new).
        split; [by rewrite <- app_assoc|]. split.
        { cbn [length]. rewrite seqZ_cons by lia.
          replace (Z.pred (Z.of_nat (S (length texts)))) with (Z.of_nat (length texts))
            by lia.
          replace (Z.succ i) with (i + 1) by lia. by constructor. }
        split.
        { rewrite Hprog, !progress_reports_app, progress_reports_client.
          cbn [length]. rewrite progress_for_cons. cbn [progress_reports].
          by rewrite app_nil_r, <- app_assoc. }
        rewrite Hreq, !client_events_app, client_events_client. cbn [client_events].
        rewrite app_nil_r, !attempts_of_app, attempts_of_waitForRateLimit.
        cbn [length app]. rewrite attempts_for_cons. by rewrite <- app_assoc.
      * destruct IH as (k & Hk & Hfail & Hbefore & Hprog & Hreq & Hcut). exists (S k).
        split; [cbn [length]; lia|]. split.
        { by replace (i + Z.of_nat (S k)) with (i + 1 + Z.of_nat k) by lia. }
        split.
        { intros [|k'] Hk'.
          - exists v. by replace (i + Z.of_nat 0) with i by lia.
          - replace (i + Z.of_nat (S k')) with (i + 1 + Z.of_nat k') by lia.
            apply Hbefore. lia. }
        split.
        { rewrite Hprog, !progress_reports_app, progress_reports_client.
          rewrite (progress_for_cons total i (S k)). cbn [progress_reports].
          by rewrite app_nil_r, <- app_assoc. }
        split.
        2:{ cbn [firstn getEmbeddingsBatch_loop].
            rewrite (getEmbedding_initialized g _ Hkey).
            fold (embedding_outcome provider i). rewrite Hout. exact Hcut. }
        rewrite Hreq, !client_events_app, client_events_client. cbn [client_events].
        rewrite app_nil_r, !attempts_of_app, attempts_of_waitForRateLimit.
        cbn [app]. rewrite (attempts_for_cons i (S k)). by rewrite <- app_assoc.
    + cbn [fst snd]. exists 0%nat. split; [cbn [length]; lia|]. split.
      { by replace (i + Z.of_nat 0) with i by lia. }
      split; [intros k' Hk'; lia|]. split.
      { rewrite !progress_reports_app, progress_reports_client, app_nil_r.
        by rewrite (progress_for_cons total i 0). }
      split.
      { rewrite !client_events_app, client_events_client. cbn [client_events].
        rewrite app_nil_r, !attempts_of_app, attempts_of_waitForRateLimit.
        cbn [app]. rewrite (attempts_for_cons i 0). cbn [fmap list_fmap concat].
        by rewrite app_nil_r. }
      cbn [firstn getEmbeddingsBatch_loop]. rewrite (getEmbedding_initialized g _ Hkey).
      fold (embedding_outcome provider i). by rewrite Hout.
Qed.

(** X9.  Batch embedding with an initialised client works through the texts
    in order.  If it resolves, the result holds the embedding of every text
    at the position of the text, progress was reported once per text, and
    the requests sent are those of the texts, in order.  If it rejects, the
    error is that of the first text whose embedding failed, every earlier
    text was embedded, and nothing was reported or requested for the texts
    after it: the reports and the requests are those of the texts up to the
    failing one, and the whole run (client, error and trace) is that of the
    batch cut after the failing text.  The [k]-th report carries the estimate
    [ceil ((total - k) * 4.5)] seconds. *)
Theorem getEmbeddingsBatch_in_order (g : gemini) (texts : list jsstring) :
  genAI g = Some key →
  let total := Z.of_nat (length texts) in
  let run := getEmbeddingsBatch g provider texts true in
  match run.1.2 with
  | Ok results =>
      Forall2 (λ k v, embedding_outcome provider k = Ok v) (seqZ 0 total) results
      ∧ progress_reports run.2 = progress_for total 0 total
      ∧ attempts_of (client_events run.2)
        = concat (attempts_for provider <$> seqZ 0 total)
  | Err e =>
      ∃ k : nat, (k < length texts)%nat
        ∧ embedding_outcome provider (Z.of_nat k) = Err e
        ∧ (∀ k' : nat, (k' < k)%nat →
             ∃ v, embedding_outcome provider (Z.of_nat k') = Ok v)
        ∧ progress_reports run.2 = progress_for total 0 (Z.of_nat (S k))
        ∧ attempts_of (client_events run.2)
          = concat (attempts_for provider <$> seqZ 0 (Z.of_nat (S k)))
        ∧ run = getEmbeddingsBatch_loop provider true total (take (S k) texts) 0 g [] []
  end.
Proof.
  intros Hkey total run. subst run. unfold getEmbeddingsBatch.
  pose proof (getEmbeddingsBatch_loop_spec total texts 0 g [] [] Hkey) as H.
  cbn zeta in H. fold total.
  destruct (getEmbeddingsBatch_loop provider true total texts _ _ _ _)
    as [[g' [all|e]] evs]; cbn [fst snd app] in *.
  - destruct H as (new & -> & Hall & Hprog & Hreq). done.
  - destruct H as (k & Hk & Hfail & Hbefore & Hprog & Hreq & Hcut). exists k.
    split; [done|]. split; [done|]. split; [|done].
    intros k' Hk'. apply (Hbefore k' Hk').
Qed.

End BatchEmbedding.

(** Three texts, the third of which is rejected: the batch rejects after
    two embeddings, three reports and three requests. *)
Lemma getEmbeddingsBatch_in_order_witness :
  match (getEmbeddingsBatch idle_client third_fails [js "a"; js "b"; js "c"] true).1.2 with
  | Ok results =>
      Forall2 (λ k v, embedding_outcome third_fails k = Ok v) (seqZ 0 3) results
      ∧ progress_reports
          (getEmbeddingsBatch idle_client third_fails [js "a"; js "b"; js "c"] true).2
        = progress_for 3 0 3
      ∧ attempts_of (client_events
          (getEmbeddingsBatch idle_client third_fails [js "a"; js "b"; js "c"] true).2)
        = concat (attempts_for third_fails <$> seqZ 0 3)
  | Err e =>
      ∃ k : nat, (k < 3)%nat
        ∧ embedding_outcome third_fails (Z.of_nat k) = Err e
        ∧ (∀ k' : nat, (k' < k)%nat →
             ∃ v, embedding_outcome third_fails (Z.of_nat k') = Ok v)
        ∧ progress_reports
            (getEmbeddingsBatch idle_client third_fails [js "a"; js "b"; js "c"] true).2
          = progress_for 3 0 (Z.of_nat (S k))
        ∧ attempts_of (client_events
            (getEmbeddingsBatch idle_client third_fails [js "a"; js "b"; js "c"] true).2)
          = concat (attempts_for third_fails <$> seqZ 0 (Z.of_nat (S k)))
        ∧ getEmbeddingsBatch idle_client third_fails [js "a"; js "b"; js "c"] true
          = getEmbeddingsBatch_loop third_fails true 3
              (take (S k) [js "a"; js "b"; js "c"]) 0 idle_client [] []
  end.
Proof.
  exact (getEmbeddingsBatch_in_order third_fails (js "key") idle_client
           [js "a"; js "b"; js "c"] eq_refl).
Defined.

(** The same run, evaluated: two requests are sent for the first two texts,
    one for the third, and the reports carry 14, 9 and 5 seconds. *)
Example getEmbeddingsBatch_third_fails :
  progress_reports
    (getEmbeddingsBatch idle_client third_fails [js "a"; js "b"; js "c"] true).2
  = [(1, 3, 14); (2, 3, 9); (3, 3, 5)]
  ∧ (getEmbeddingsBatch idle_client third_fails [js "a"; js "b"; js "c"] true).1.2
    = Err bad_request.
Proof. split; vm_compute; reflexivity. Qed.

(** Two texts, the first of which is embedded at the second attempt: the
    second text is requested as soon as the backoff of 15 s is over, without
    a further pause, and the rate limiter keeps the time of the first
    request. *)
Example getEmbeddingsBatch_after_retry :
  getEmbeddingsBatch idle_client (λ i, if i =? 0 then limited_once else embeds_at_once)
    [js "a"; js "b"] false
  = ({| genAI := Some (js "key");
        RATE_LIMIT := {| lastRequestTime := 115000; requestCount := 2;
                         windowStart := 100000 |};
        clock := 115000 |},
     Ok [Some [1%float]; Some [1%float]],
     BatchClient <$> [EvEmbedRequest 1; EvSleep 15000; EvEmbedRequest 2; EvEmbedRequest 1]).
Proof. vm_compute. reflexivity. Qed.


(* ===================================================================== *)
(** * Further properties of the search and of the batch partitioning       *)
(* ===================================================================== *)

Section Search.

Lemma getAll_keys_NoDup {V} (store : gmap N V) : NoDup (getAll store).*1.
Proof.
  unfold getAll. rewrite merge_sort_Permutation. apply NoDup_fst_map_to_list.
Qed.

Lemma candidates_sublist (st : db) (filterDocIds : option (list N)) :
  candidates st filterDocIds `sublist_of` getAll (chunks st).
Proof.
  unfold candidates. destruct filterDocIds as [ids|]; [|done].
  destruct (0 <? _); [apply sublist_filter | done].
Qed.

(** X10.  What a search returns, for a limit that is not negative: as many
    results as the limit allows, each of them a stored chunk under its key,
    scored with its cosine similarity to the query, no chunk twice; with a
    non-empty filter every result belongs to one of the listed documents; and
    when the limit is not smaller than the number of candidates, every
    candidate is returned. *)
Theorem searchChunks_results (st : db) (queryEmbedding : option (list float))
    (filterDocIds : option (list N)) (limit : Z) :
  0 ≤ limit →
  let results := searchChunks st queryEmbedding filterDocIds limit in
  length results
    = Nat.min (Z.to_nat limit) (length (candidates st filterDocIds))
  ∧ NoDup (sc_id <$> results)
  ∧ (∀ r, r ∈ results →
       chunks st !! sc_id r = Some (sc_chunk r)
       ∧ similarity r = cosineSimilarity queryEmbedding (embedding (sc_chunk r))
       ∧ match filterDocIds with
         | Some (id :: ids) => docId (sc_chunk r) ∈ id :: ids
         | _ => True
         end)
  ∧ (Z.of_nat (length (candidates st filterDocIds)) ≤ limit →
     ∀ k c, (k, c) ∈ candidates st filterDocIds →
       {| sc_id := k; sc_chunk := c;
          similarity := cosineSimilarity queryEmbedding (embedding c) |} ∈ results).
Proof.
  intros Hlimit results. subst results. unfold searchChunks, slice0.
  rewrite (proj2 (Z.ltb_ge limit 0)) by lia.
  set (score := λ kc : N * chunk,
         {| sc_id := kc.1; sc_chunk := kc.2;
            similarity := cosineSimilarity queryEmbedding (embedding kc.2) |}).
  set (sorted := js_sort _ (map score (candidates st filterDocIds))).
  assert (Hperm : sorted ≡ₚ score <$> candidates st filterDocIds)
    by apply js_sort_Permutation.
  assert (Hin : ∀ r, r ∈ take (Z.to_nat limit) sorted →
            ∃ kc, r = score kc ∧ kc ∈ candidates st filterDocIds).
  { intros r Hr. eapply elem_of_sublist in Hr; [|apply sublist_take].
    rewrite Hperm in Hr. apply list_elem_of_fmap in Hr as (kc & -> & Hkc). eauto. }
  split; [|split; [|split]].
  - rewrite length_take, Hperm, length_fmap. done.
  - eapply sublist_NoDup; [|apply fmap_sublist, sublist_take].
    rewrite Hperm, <- list_fmap_compose.
    eapply sublist_NoDup; [apply (getAll_keys_NoDup (chunks st))|].
    apply fmap_sublist, candidates_sublist.
  - intros r (kc & -> & Hkc)%Hin. cbn [score sc_id sc_chunk similarity].
    split; [|split; [done|]].
    + eapply elem_of_sublist in Hkc; [|apply candidates_sublist].
      destruct kc. by apply elem_of_getAll.
    + unfold candidates in Hkc. destruct filterDocIds as [[|id ids]|]; [done| |done].
      cbn in Hkc. by apply list_elem_of_filter in Hkc as [? _].
  - intros Hall k c Hkc. rewrite take_ge.
    + rewrite Hperm. apply list_elem_of_fmap. by exists (k, c).
    + rewrite Hperm, length_fmap. lia.
Qed.

End Search.

(** The search of [two_documents] restricted to document 1, with the default
    limit. *)
Lemma searchChunks_results_witness :
  length (searchChunks two_documents (Some [1; 0]%float) (Some [1%N]) 5)
  = Nat.min (Z.to_nat 5) (length (candidates two_documents (Some [1%N]))).
Proof.
  exact (proj1 (searchChunks_results two_documents (Some [1; 0]%float) (Some [1%N]) 5
                  ltac:(lia))).
Defined.

Section MoreBatches.

Variable maxSizeMB : Q.
Variable maxImages : Z.

Local Abbreviation step := (createBatches_step maxSizeMB maxImages).

Lemma calculateImagesSize_app_le (l k : list pageImage) :
  (calculateImagesSize l <= calculateImagesSize (l ++ k))%Q.
Proof.
  induction k as [|img k IH] using rev_ind; [rewrite app_nil_r; apply Qle_refl|].
  rewrite app_assoc.
  pose proof (calculateImagesSize_snoc (l ++ k) img) as Hsnoc.
  pose proof (imgSizeMB_nonneg img). lra.
Qed.

Lemma createBatches_loop_fits (todo : list pageImage) (st : batching) :
  batches st = [] →
  (currentSize st == calculateImagesSize (currentBatch st))%Q →
  Z.of_nat (length (currentBatch st ++ todo)) ≤ maxImages →
  (calculateImagesSize (currentBatch st ++ todo) <= maxSizeMB)%Q →
  batches (foldl step st todo) = []
  ∧ currentBatch (foldl step st todo) = currentBatch st ++ todo.
Proof.
  revert st. induction todo as [|img todo IH]; intros st Hnil Hsize Hcount Hfit.
  - by rewrite app_nil_r.
  - cbn [foldl].
    pose proof (calculateImagesSize_snoc (currentBatch st) img) as Hsnoc.
    pose proof (calculateImagesSize_app_le (currentBatch st ++ [img]) todo) as Hmono.
    rewrite <- app_assoc in Hmono. cbn [app] in Hmono.
    assert (Hstep : step st img
                    = {| batches := batches st;
                         currentBatch := currentBatch st ++ [img];
                         currentSize := (currentSize st
                           + inject_Z (base64_length img) / 1024 / 1024)%Q |}).
    { unfold createBatches_step.
      assert (Qgtb (currentSize st + inject_Z (base64_length img) / 1024 / 1024)
                maxSizeMB = false) as ->.
      { unfold Qgtb. apply negb_false_iff, Qle_bool_iff. lra. }
      cbn [andb orb].
      rewrite length_app in Hcount. cbn [length] in Hcount.
      destruct (Z.geb_spec (Z.of_nat (length (currentBatch st))) maxImages); [lia|done]. }
    rewrite Hstep.
    destruct (IH {| batches := batches st;
                    currentBatch := currentBatch st ++ [img];
                    currentSize := (currentSize st
                      + inject_Z (base64_length img) / 1024 / 1024)%Q |})
      as [Hb Hc]; cbn [batches currentBatch currentSize];
      rewrite <- ?app_assoc; cbn [app]; try done; try lra.
    cbn [currentBatch] in Hc. split; [done|]. by rewrite Hc, <- app_assoc.
Qed.

(** X11.  Images that fit the ceilings together are not split: if there is at
    least one image, no more than [maxImages] of them, and their total payload
    is at most [maxSizeMB], the partition is the single batch of all images. *)
Theorem createBatches_single_batch (images : list pageImage) :
  images ≠ [] →
  Z.of_nat (length images) ≤ maxImages →
  (calculateImagesSize images <= maxSizeMB)%Q →
  createBatches images maxSizeMB maxImages = [images].
Proof.
  intros Hne Hcount Hfit. unfold createBatches.
  destruct (createBatches_loop_fits images
              {| batches := []; currentBatch := []; currentSize := 0 |})
    as [Hb Hc]; cbn [batches currentBatch currentSize app]; try done.
  rewrite Hb, Hc. cbn [app]. destruct images; [done|]. done.
Qed.

(** X12.  With a count ceiling of at least one image, the number of batches,
    that is of calls to the vision model, lies between the number of images
    divided by [maxImages] and the number of images; in particular no images
    means no batch, and no batch is empty. *)
Theorem createBatches_count (images : list pageImage) :
  1 ≤ maxImages →
  let n := Z.of_nat (length (createBatches images maxSizeMB maxImages)) in
  Z.of_nat (length images) ≤ n * maxImages
  ∧ n ≤ Z.of_nat (length images)
  ∧ Forall (λ batch, batch ≠ []) (createBatches images maxSizeMB maxImages).
Proof.
  intros Hmax n. subst n.
  assert (Hok : Forall (batch_ok maxSizeMB maxImages)
                  (createBatches images maxSizeMB maxImages)).
  { unfold createBatches.
    destruct (createBatches_loop_inv maxSizeMB maxImages images
                {| batches := []; currentBatch := []; currentSize := 0 |} Hmax)
      as (Hbs & Hcur & _).
    { split; [constructor|]. split; [by left | reflexivity]. }
    destruct (foldl _ _ images) as [bs cur sz]; cbn [batches currentBatch] in *.
    destruct cur as [|img cur]; [done|]. cbn.
    apply Forall_app. split; [done|]. constructor; [|constructor].
    by destruct Hcur. }
  assert (Hcat : concat (createBatches images maxSizeMB maxImages) = images).
  { unfold createBatches.
    pose proof (createBatches_loop_concat maxSizeMB maxImages images
      {| batches := []; currentBatch := []; currentSize := 0 |}) as H.
    simpl in H. destruct (foldl _ _ images) as [bs cur sz]; simpl in *.
    destruct cur as [|img cur]; simpl.
    - by rewrite app_nil_r in H.
    - rewrite concat_app. simpl. by rewrite app_nil_r. }
  revert Hok Hcat. generalize (createBatches images maxSizeMB maxImages).
  intros bs Hok <-.
  induction Hok as [|batch bs [Hlen _] _ IH]; cbn [concat length].
  - repeat split; [lia | lia | constructor].
  - rewrite length_app. destruct IH as (IH1 & IH2 & IH3).
    split; [nia|]. split; [lia|].
    constructor; [|done]. intros ->. cbn in Hlen. lia.
Qed.

End MoreBatches.

(** Two images of 400 characters under the default ceilings form one batch. *)
Lemma createBatches_single_batch_witness :
  createBatches [image_of_length 1 400; image_of_length 2 400] 3 5
  = [[image_of_length 1 400; image_of_length 2 400]].
Proof.
  apply createBatches_single_batch; [done | cbn; lia | vm_compute; discriminate].
Defined.

(** Twelve images and a ceiling of five per batch: between three and twelve
    batches. *)
Lemma createBatches_count_witness :
  Z.of_nat (length (map (λ p, image_of_length (Z.of_nat p) 400) (seq 1 12)))
  ≤ Z.of_nat (length (createBatches
                        (map (λ p, image_of_length (Z.of_nat p) 400) (seq 1 12)) 3 5)) * 5.
Proof.
  exact (proj1 (createBatches_count 3 5
                  (map (λ p, image_of_length (Z.of_nat p) 400) (seq 1 12)) ltac:(lia))).
Defined.


(* ===================================================================== *)
(** * Further properties of the chunking engine                            *)
(* ===================================================================== *)

Section ForcedSplit.

Lemma lastIndexOf_from_le (s : jsstring) (c : N) (i pos best : Z) :
  lastIndexOf_from s c i pos best ≤ Z.max best pos.
Proof.
  revert i best. induction s as [|x s IH]; intros i best; cbn [lastIndexOf_from]; [lia|].
  destruct ((x =? c)%N && (i <=? pos)) eqn:Hc.
  - apply andb_prop in Hc as [_ Hi%Z.leb_le]. specialize (IH (i + 1) i). lia.
  - apply IH.
Qed.

Lemma lastIndexOf_le (s : jsstring) (c : N) (pos : Z) :
  lastIndexOf s c pos ≤ Z.max 0 pos.
Proof. unfold lastIndexOf. pose proof (lastIndexOf_from_le s c 0 (Z.max 0 pos) (-1)). lia. Qed.

Lemma find_break_bounds (sentence : jsstring) (start maxSize end_ : Z) (bps : list N) :
  0 ≤ maxSize → start ≤ end_ →
  start ≤ find_break sentence start maxSize end_ bps
  ∧ find_break sentence start maxSize end_ bps ≤ Z.max end_ (Z.max 0 end_ + 1).
Proof.
  intros Hmax Hend. induction bps as [|bp bps IH]; cbn [find_break]; [lia|].
  pose proof (lastIndexOf_le sentence bp end_).
  destruct (Z.ltb_spec (2 * start + maxSize) (2 * lastIndexOf sentence bp end_)); lia.
Qed.

Lemma substring_length (s : jsstring) (a b : Z) :
  a ≤ b → js_length (substring s a b) ≤ Z.max 0 (b - Z.max a 0).
Proof.
  intros Hab. unfold substring, js_length. rewrite length_take. lia.
Qed.

Lemma chunkLongSentence_loop_length (fuel : nat) (sentence : jsstring)
    (maxSize start : Z) (acc chunks : list jsstring) :
  0 ≤ maxSize →
  Forall (λ c, js_length c ≤ maxSize + 1) acc →
  chunkLongSentence_loop fuel sentence maxSize start acc = Some chunks →
  Forall (λ c, js_length c ≤ maxSize + 1) chunks.
Proof.
  intros Hmax. revert start acc.
  induction fuel as [|fuel IH]; intros start acc Hacc; cbn [chunkLongSentence_loop].
  - destruct (start <? js_length sentence); [done|]. by intros [= <-].
  - destruct (start <? js_length sentence); [|by intros [= <-]].
    apply IH. apply Forall_app. split; [done|]. constructor; [|constructor].
    etrans; [apply trim_length|].
    destruct (Z.ltb_spec (start + maxSize) (js_length sentence)).
    + pose proof (find_break_bounds sentence start maxSize (start + maxSize) breakPoints
                    Hmax ltac:(lia)) as [Hlo Hhi].
      etrans; [apply substring_length; lia|]. lia.
    + etrans; [apply substring_length; lia|]. lia.
Qed.

(** X13.  A forced split never produces a piece longer than [maxSize + 1]
    units, for every sentence and every non-negative [maxSize] (the extra
    unit is a break character found exactly at the size boundary). *)
Theorem chunkLongSentence_piece_length (fuel : nat) (sentence : jsstring)
    (maxSize : Z) (chunks : list jsstring) :
  0 ≤ maxSize →
  chunkLongSentence fuel sentence maxSize = Some chunks →
  Forall (λ c, js_length c ≤ maxSize + 1) chunks.
Proof.
  intros Hmax. by apply chunkLongSentence_loop_length.
Qed.

End ForcedSplit.

(** A sentence of 901 units with a comma at index 800, split at 800: pieces
    of 801 and 150 units. *)
Lemma chunkLongSentence_piece_length_witness :
  Forall (λ c, js_length c ≤ 800 + 1)
    [trim (substring (repeat 97%N 800 ++ [44%N] ++ repeat 97%N 100) 0 801);
     trim (substring (repeat 97%N 800 ++ [44%N] ++ repeat 97%N 100) 751 1551)].
Proof.
  apply (chunkLongSentence_piece_length 2
           (repeat 97%N 800 ++ [44%N] ++ repeat 97%N 100) 800); [lia|].
  vm_compute. reflexivity.
Defined.

Section BlankText.

Lemma replace_runs_blank_run (text : jsstring) :
  Forall (λ c, is_space c = true) text →
  replace_runs is_space 32%N true text = [].
Proof.
  induction 1 as [|c text Hc _ IH]; cbn [replace_runs]; [done|]. by rewrite Hc.
Qed.

Lemma replace_runs_blank (text : jsstring) :
  Forall (λ c, is_space c = true) text →
  replace_runs is_space 32%N false text = [] ∨
  replace_runs is_space 32%N false text = [32%N].
Proof.
  intros [|c text' Hc Hrest]; cbn [replace_runs]; [by left|].
  right. by rewrite Hc, replace_runs_blank_run.
Qed.

(** X14.  A text without any visible character (empty, or white space only)
    yields no chunk, for every size limit and overlap. *)
Theorem chunkTextSemantic_blank (fuel : nat) (text : jsstring)
    (maxSize overlapSentences : Z) :
  Forall (λ c, is_space c = true) text →
  chunkTextSemantic fuel text maxSize overlapSentences = Some [].
Proof.
  intros Hblank. unfold chunkTextSemantic, clean_text.
  by destruct (replace_runs_blank text Hblank) as [-> | ->].
Qed.

End BlankText.

(** A line feed, a tab and two spaces. *)
Lemma chunkTextSemantic_blank_witness :
  chunkTextSemantic 0 [10; 9; 32; 32]%N 800 2 = Some [].
Proof. apply chunkTextSemantic_blank. by repeat constructor. Defined.


Section ChunkBound.

Context (maxSize overlapSentences : Z) (Hmax : 1 ≤ maxSize).

Local Abbreviation bound := (chunk_bound maxSize overlapSentences).
Local Abbreviation inv := (chunking_inv maxSize overlapSentences).

Lemma foldl_sentences_length (l : list jsstring) (a : Z) :
  foldl (λ sum s, sum + js_length s) a l = a + sentences_length l.
Proof.
  unfold sentences_length. revert a.
  induction l as [|s l IH]; intros a; cbn [foldl]; [lia|].
  rewrite (IH (a + js_length s)), (IH (0 + js_length s)). lia.
Qed.

Lemma sentences_length_cons (s : jsstring) (l : list jsstring) :
  sentences_length (s :: l) = js_length s + sentences_length l.
Proof. unfold sentences_length at 1. cbn [foldl]. rewrite foldl_sentences_length. lia. Qed.

Lemma sentences_length_app (l k : list jsstring) :
  sentences_length (l ++ k) = sentences_length l + sentences_length k.
Proof.
  induction l as [|s l IH]; [done|]. cbn [app].
  rewrite !sentences_length_cons, IH. lia.
Qed.

Lemma join_length (l : list jsstring) :
  js_length (join space l)
  = sentences_length l + Z.max 0 (Z.of_nat (length l) - 1).
Proof.
  induction l as [|s [|s' l] IH].
  - done.
  - rewrite sentences_length_cons. cbn. unfold sentences_length. cbn. lia.
  - change (join space (s :: s' :: l)) with (s ++ space ++ join space (s' :: l)).
    unfold js_length in *. rewrite !length_app, sentences_length_cons.
    cbn [length space] in *. unfold js_length. lia.
Qed.

Lemma sentences_length_bounds (l : list jsstring) :
  Forall (λ s, 1 ≤ js_length s ≤ maxSize) l →
  Z.of_nat (length l) ≤ sentences_length l
  ∧ sentences_length l ≤ Z.of_nat (length l) * maxSize.
Proof.
  induction 1 as [|s l Hs _ IH]; [done|].
  rewrite sentences_length_cons. cbn [length]. lia.
Qed.

(** Joining the current chunk gives a chunk within the bound. *)
Lemma flush_within_bound (st : chunking) :
  inv st → js_length (join space (currentChunk st)) ≤ bound.
Proof.
  intros (_ & Hcur & Hlen & Hcase).
  pose proof (sentences_length_bounds _ Hcur) as [Hlo Hhi].
  rewrite join_length. unfold chunk_bound. rewrite Hlen in Hcase.
  destruct Hcase as [Hfit|Hfew]; nia.
Qed.

Lemma chunk_step_inv (fuel : nat) (st st' : chunking) (raw : jsstring) :
  inv st → chunk_step fuel maxSize overlapSentences st raw = Some st' → inv st'.
Proof.
  intros Hinv. pose proof (flush_within_bound st Hinv) as Hflush.
  destruct Hinv as (Hout & Hcur & Hlen & Hcase).
  unfold chunk_step.
  destruct (Z.eqb_spec (js_length (trim raw)) 0) as [|Hnonempty]; [by intros [= <-]|].
  assert (1 ≤ js_length (trim raw)) by (unfold js_length in *; lia).
  destruct (Z.ltb_spec maxSize (js_length (trim raw))) as [Hlong|Hshort].
  - (* forced split *)
    destruct (chunkLongSentence fuel (trim raw) maxSize) as [subChunks|] eqn:Hsub;
      cbn [mbind option_bind]; [|done].
    intros [= <-].
    assert (Hsub' : Forall (λ c, js_length c ≤ bound) subChunks).
    { pose proof (chunkLongSentence_loop_length fuel (trim raw) maxSize 0 [] subChunks
                    ltac:(lia) ltac:(constructor) Hsub) as Hpieces.
      eapply Forall_impl; [exact Hpieces|].
      cbn beta. unfold chunk_bound. intros c Hc. nia. }
    destruct (Z.ltb_spec 0 (Z.of_nat (length (currentChunk st))));
      unfold chunking_inv, flush_chunk; cbn [out_chunks currentChunk currentLength].
    + split; [|split; [constructor|split; [done|left; lia]]].
      apply Forall_app. split; [|done]. apply Forall_app. split; [done|].
      by constructor.
    + split; [by apply Forall_app|]. done.
  - (* the sentence joins a chunk *)
    intros [= <-].
    destruct ((maxSize <? currentLength st + js_length (trim raw))
              && (0 <? Z.of_nat (length (currentChunk st)))) eqn:Hfull;
      unfold chunking_inv, flush_chunk; cbn [out_chunks currentChunk currentLength].
    + (* flush, keep the overlap *)
      set (kept := drop _ (currentChunk st)).
      assert (Hkept : Forall (λ s, 1 ≤ js_length s ≤ maxSize) kept)
        by (by apply Forall_drop).
      assert (Hfew : Z.of_nat (length kept) ≤ Z.max 1 overlapSentences)
        by (subst kept; rewrite length_drop; lia).
      split; [apply Forall_app; split; [done | by constructor]|].
      split; [apply Forall_app; split; [done | by constructor]|].
      split.
      * rewrite foldl_sentences_length, sentences_length_app, sentences_length_cons.
        unfold sentences_length at 3. cbn [foldl]. lia.
      * right. rewrite length_app. cbn [length]. lia.
    + (* no flush *)
      split; [done|]. split; [apply Forall_app; split; [done | by constructor]|].
      split.
      * rewrite sentences_length_app, sentences_length_cons.
        unfold sentences_length at 2. cbn [foldl]. lia.
      * left. apply andb_false_iff in Hfull as [Hfit%Z.ltb_ge | Hempty%Z.ltb_ge]; [lia|].
        destruct (currentChunk st); [|cbn [length] in Hempty; lia].
        unfold sentences_length in Hlen. cbn [foldl] in Hlen. lia.
Qed.

Lemma chunk_loop_inv (fuel : nat) (sentences : list jsstring) (st st' : chunking) :
  inv st → chunk_loop fuel maxSize overlapSentences sentences st = Some st' → inv st'.
Proof.
  revert st. induction sentences as [|raw rest IH]; intros st Hinv; cbn [chunk_loop].
  - by intros [= <-].
  - destruct (chunk_step fuel maxSize overlapSentences st raw) as [st1|] eqn:Hstep;
      cbn [mbind option_bind]; [|done].
    apply IH. by eapply chunk_step_inv.
Qed.

(** X15.  With a size limit of at least 1, no chunk returned by the chunking
    engine is longer than [(k + 1) * maxSize + k] units, where [k] is the
    overlap count, or 1 if that is smaller: a chunk holds at most the
    overlap sentences and one more, each within [maxSize], or sentences that
    fit [maxSize] together, plus the joining spaces; a forced split gives
    pieces of at most [maxSize + 1] units. *)
Theorem chunkTextSemantic_chunk_length (fuel : nat) (text : jsstring)
    (chunks : list jsstring) :
  chunkTextSemantic fuel text maxSize overlapSentences = Some chunks →
  Forall (λ c, js_length c ≤ chunk_bound maxSize overlapSentences) chunks.
Proof.
  unfold chunkTextSemantic.
  destruct (js_length (clean_text text) =? 0); [intros [= <-]; constructor|].
  destruct (chunk_loop _ _ _ _ _) as [st|] eqn:Hloop; cbn [mbind option_bind]; [|done].
  intros [= <-].
  assert (Hinv : inv st).
  { eapply chunk_loop_inv; [|exact Hloop].
    split; [constructor|]. split; [constructor|]. split; [done|]. left. cbn. lia. }
  pose proof (flush_within_bound st Hinv) as Hflush.
  destruct Hinv as (Hout & _).
  apply Forall_forall. intros c [_ Hc]%list_elem_of_filter. revert c Hc.
  apply Forall_forall.
  destruct (0 <? _); [|done]. unfold flush_chunk.
  apply Forall_app. split; [done|]. by constructor.
Qed.

End ChunkBound.

(** Under the default limits the bound is 3 * 800 + 2 = 2402 units, and it
    is reached: three sentences of 800 units end up in one chunk. *)
Lemma chunkTextSemantic_chunk_length_witness :
  Forall (λ c, js_length c ≤ chunk_bound 800 2)
    (default [] (chunkTextSemantic 0 three_full_sentences 800 2))
  ∧ js_length <$> default [] (chunkTextSemantic 0 three_full_sentences 800 2)
    = [800; 1601; 2402]
  ∧ chunk_bound 800 2 = 2402.
Proof.
  split; [|split; vm_compute; reflexivity].
  destruct (chunkTextSemantic 0 three_full_sentences 800 2) as [chunks|] eqn:E;
    [|constructor].
  exact (chunkTextSemantic_chunk_length 800 2 ltac:(lia) 0 three_full_sentences chunks E).
Defined.


(* ===================================================================== *)
(** * Further properties of the classifier, of rendering and of OCR        *)
(* ===================================================================== *)

Section Rendering.

Context (toDataURL : float → jsstring).

Lemma reduce_quality_done (fuel : nat) (quality : float) (dataUrl : jsstring) :
  (max_data_url_length <? js_length dataUrl) && (quality_floor <? quality)%float = false →
  reduce_quality fuel toDataURL quality dataUrl = Some (quality, dataUrl).
Proof. intros H. destruct fuel; cbn [reduce_quality]; by rewrite H. Qed.

Lemma reduce_quality_more (fuel : nat) (quality : float) (dataUrl : jsstring) :
  (max_data_url_length <? js_length dataUrl) && (quality_floor <? quality)%float = true →
  reduce_quality (S fuel) toDataURL quality dataUrl
  = reduce_quality fuel toDataURL (quality - quality_step)%float
      (toDataURL (quality - quality_step)%float).
Proof. intros H. cbn [reduce_quality]. by rewrite H. Qed.

(** X16.  Whatever the JPEG encoder returns, the quality loop of
    [renderPageToImage] ends after at most seven re-encodings.  The image
    returned was encoded at the quality returned, which is one of 0.9, 0.8,
    ..., 0.2 as computed in binary64 and always above 0.2; the image is
    within 3.5 MB unless that quality is at or below 0.3. *)
Theorem renderPageToImage_quality (canvas_width canvas_height : Z) :
  ∃ r dataUrl,
    renderPageToImage 7 canvas_width canvas_height toDataURL = Some r
    ∧ ri_quality r ∈ reachable_qualities
    ∧ dataUrl = toDataURL (ri_quality r)
    ∧ ri_base64 r = split_comma [] dataUrl !! 1%nat
    ∧ (0x1.999999999999ap-3 <? ri_quality r)%float = true
    ∧ (js_length dataUrl ≤ max_data_url_length
       ∨ (quality_floor <? ri_quality r)%float = false).
Proof.
  unfold renderPageToImage, reachable_qualities.
  repeat
    match goal with
    | |- context [reduce_quality ?f _ ?q ?d] =>
        let H := fresh "Hmore" in
        destruct ((max_data_url_length <? js_length (toDataURL q))
                  && (quality_floor <? q)%float) eqn:H;
        [ first
            [ match f with S ?f' => rewrite (reduce_quality_more f' q d H) end
            | (* seven reductions: the quality is below the floor *)
              exfalso; apply andb_prop in H as [_ H]; vm_compute in H; discriminate ]
        | rewrite (reduce_quality_done f q d H); cbn [mbind option_bind];
          eexists _, _; split; [reflexivity|]; cbn [ri_quality ri_base64];
          split; [repeat first [apply list_elem_of_here | apply list_elem_of_further]|]; split; [reflexivity|]; split; [reflexivity|];
          split; [vm_compute; reflexivity|];
          apply andb_false_iff in H as [H%Z.ltb_ge | H]; [left; lia | by right] ]
    end.
Qed.

End Rendering.

(** With an encoder whose output is always too large the loop goes below the
    floor of 0.3: the page is encoded at quality 0.2000000000000001. *)
Example renderPageToImage_below_floor :
  ri_quality <$> renderPageToImage 7 1224 1584 oversized_encoder
  = Some (quality_start - quality_step - quality_step - quality_step - quality_step
            - quality_step - quality_step - quality_step)%float
  ∧ (quality_start - quality_step - quality_step - quality_step - quality_step
       - quality_step - quality_step - quality_step <? quality_floor)%float = true.
Proof.
  assert (∀ q, (max_data_url_length <? js_length (oversized_encoder q)) = true) as Hbig.
  { intros q. unfold oversized_encoder, js_length.
    rewrite length_app, repeat_length. apply Z.ltb_lt. cbn [js length].
    unfold max_data_url_length. lia. }
  split; [|vm_compute; reflexivity].
  unfold renderPageToImage.
  do 7 (rewrite reduce_quality_more
          by (rewrite Hbig; vm_compute; reflexivity)).
  rewrite reduce_quality_done by (rewrite Hbig; vm_compute; reflexivity).
  reflexivity.
Qed.

(* ===================================================================== *)
(** * lib/ocr.js : sampling, OCR answers and OCR failures                  *)
(* ===================================================================== *)

Lemma zip_take_r {A B} (l : list A) (k : list B) (n : nat) :
  (length l ≤ n)%nat → zip l (take n k) = zip l k.
Proof.
  revert k n. induction l as [|x l IH]; intros [|y k] [|n] Hn; simpl in *;
    try done; try lia.
  f_equal. apply IH. lia.
Qed.

(** X17.  [detectImageBasedPDF] reads the first [samplePages] pages only: the
    verdict for a document is the verdict for these pages taken alone,
    whatever the later pages hold. *)
Theorem detectImageBasedPDF_sample (d : pdfDoc) (samplePages : Z) :
  detectImageBasedPDF d samplePages
  = detectImageBasedPDF (take (Z.to_nat samplePages) d) samplePages.
Proof.
  unfold detectImageBasedPDF.
  assert (Z.min samplePages (numPages (take (Z.to_nat samplePages) d))
          = Z.min samplePages (numPages d)) as ->.
  { unfold numPages. rewrite length_take, Nat2Z.inj_min. lia. }
  rewrite !for_each_page_ok.
  - rewrite zip_take_r; [done|]. rewrite length_seqZ. lia.
  - unfold numPages. rewrite length_take, Nat2Z.inj_min. lia.
  - lia.
Qed.

Section OcrAnswers.

Context (d : pdfDoc) (groqApiKey : option jsstring) (ocrThreshold maxOCRPages : Z)
        (ocrPage : Z → result jsstring).

Local Abbreviation sent_pages :=
  (pages_sent_to_ocr d groqApiKey ocrThreshold maxOCRPages).

Lemma result_foldl_app {A B} (f : A → B → result A) (l k : list B) (acc : A) :
  result_foldl f acc (l ++ k) = (acc' ← result_foldl f acc l; result_foldl f acc' k).
Proof.
  revert acc. induction l as [|x l IH]; intros acc; cbn [result_foldl app mbind result_bind].
  - done.
  - destruct (f acc x); cbn [mbind result_bind]; [apply IH | done].
Qed.

Lemma ocrPDFPages_loop_answers (pageNumbers : list Z) (acc results : list (Z * jsstring)) :
  result_foldl
    (λ results pageNum,
       _ ← getPage d pageNum; text ← ocrPage pageNum;
       Ok (results ++ [(pageNum, text)]))
    acc pageNumbers = Ok results →
  Forall (λ r, ocrPage r.1 = Ok r.2) acc →
  Forall (λ r, ocrPage r.1 = Ok r.2) results.
Proof.
  revert acc. induction pageNumbers as [|n l IH]; intros acc; cbn [result_foldl].
  - by intros [= <-].
  - destruct (getPage d n); cbn [mbind result_bind]; [|done].
    destruct (ocrPage n) as [text|] eqn:Hn; cbn [mbind result_bind]; [|done].
    intros Hrun Hacc. apply (IH _ Hrun). apply Forall_app. split; [done|].
    by constructor.
Qed.

Lemma ocrPDFPages_answers (pageNumbers : list Z) (results : list (Z * jsstring)) :
  ocrPDFPages d ocrPage pageNumbers = Ok results →
  Forall (λ r, ocrPage r.1 = Ok r.2) results.
Proof. intros H. by apply (ocrPDFPages_loop_answers _ _ _ H). Qed.

Lemma foldl_apply_ocr_result_text (results : list (Z * jsstring)) (p : pageText) :
  pt_pageNum p ∈ results.*1 →
  ∃ r, r ∈ results ∧ r.1 = pt_pageNum p
       ∧ pt_text (foldl apply_ocr_result p results) = r.2.
Proof.
  induction results as [|r results IH] using rev_ind; [by intros ?%elem_of_nil|].
  rewrite fmap_app, foldl_app. cbn [foldl fmap list_fmap].
  pose proof (foldl_apply_ocr_result results p) as (Hnum & _).
  cbn zeta in Hnum. intros Hin.
  unfold apply_ocr_result at 1. rewrite Hnum.
  destruct (Z.eqb_spec (pt_pageNum p) r.1) as [Heq|Hne].
  - exists r. cbn [pt_text]. split; [apply elem_of_app; right; by left|done].
  - apply elem_of_app in Hin as [Hin|Hin].
    + destruct (IH Hin) as (r' & Hr' & Hkey & Htext).
      exists r'. split; [apply elem_of_app; by left|done].
    + apply list_elem_of_singleton in Hin. done.
Qed.

(** X18.  In a hybrid extraction that resolves, a page whose text layer is too
    short carries exactly what the OCR service answered for it when it was
    submitted, and the empty text when it was not (no key, or beyond
    [maxOCRPages]): such a page adds nothing to the text of the document. *)
Theorem hybridParsePDF_ocr_text (r : hybridResult) (pt : pageText) :
  hybridParsePDF d groqApiKey ocrThreshold maxOCRPages ocrPage = Ok r →
  pt ∈ pageTexts r →
  needsOCR pt = true →
  (pt_pageNum pt ∈ sent_pages
   → ocrPage (pt_pageNum pt) = Ok (pt_text pt) ∧ ocrApplied pt = true)
  ∧ (pt_pageNum pt ∉ sent_pages
     → pt_text pt = [] ∧ ocrApplied pt = false
       ∧ pt ∉ filter (λ p, 0 < js_length (pt_text p)) (pageTexts r)).
Proof.
  intros Hrun Hpt Hneeds.
  assert (∃ results,
    results.*1 = sent_pages
    ∧ Forall (λ r, ocrPage r.1 = Ok r.2) results
    ∧ pageTexts r
      = (λ ip, foldl apply_ocr_result (text_layer_entry ocrThreshold ip) results)
          <$> numbered_pages d) as (results & Hkeys & Hanswers & Hpages).
  { revert Hrun. unfold hybridParsePDF, pages_sent_to_ocr. rewrite first_round.
    cbn [mbind result_bind fst snd].
    destruct (_ && _).
    - destruct (ocrPDFPages d ocrPage _) as [results|e] eqn:Hocr;
        cbn [mbind result_bind]; [|done].
      intros [= <-]. exists results. cbn [pageTexts].
      split; [by apply ocrPDFPages_pages in Hocr|].
      split; [by apply ocrPDFPages_answers in Hocr|].
      rewrite foldl_merge_ocr_result.
      + by rewrite <- list_fmap_compose.
      + rewrite entries_pageNum. apply NoDup_seqZ.
    - cbn [mbind result_bind]. intros [= <-]. exists [].
      cbn [pageTexts foldl]. done. }
  rewrite Hpages in Hpt. apply list_elem_of_fmap in Hpt as (ip & -> & Hip).
  pose proof (foldl_apply_ocr_result results (text_layer_entry ocrThreshold ip))
    as (Hnum & Hneed & Hsame & Happlied).
  cbn zeta in Hnum, Hneed, Hsame, Happlied.
  rewrite <- Hkeys. split.
  - intros Hin. rewrite Hnum in Hin.
    destruct (foldl_apply_ocr_result_text results _ Hin) as (r' & Hr' & Hkey & Htext).
    rewrite Forall_forall in Hanswers. specialize (Hanswers _ Hr').
    rewrite Hnum, Htext, <- Hkey. split; [done|].
    apply Happlied. right. done.
  - intros Hnot. rewrite Hnum in Hnot. rewrite (Hsame Hnot) in Hneeds |- *.
    unfold text_layer_entry in Hneeds |- *.
    destruct (js_length (text_layer ip.2) <? ocrThreshold); [|done].
    cbn [pt_text ocrApplied]. split; [done|]. split; [done|].
    rewrite list_elem_of_filter. cbn [pt_text]. intros [Hlen _]. unfold js_length in Hlen. simpl in Hlen. lia.
Qed.

(** X19.  One rejected OCR request rejects the whole hybrid extraction with the
    error of that request, also when every other page has a text layer or
    was recognised before: nothing of the document is returned. *)
Theorem hybridParsePDF_ocr_failure (before after : list Z) (n : Z) (e : jsError) :
  sent_pages = before ++ n :: after →
  Forall (λ m, ∃ text, ocrPage m = Ok text) before →
  ocrPage n = Err e →
  hybridParsePDF d groqApiKey ocrThreshold maxOCRPages ocrPage = Err e.
Proof.
  intros Hsent Hbefore Hn.
  pose proof pages_sent_to_ocr_range d groqApiKey ocrThreshold maxOCRPages as Hrange.
  rewrite Hsent in Hrange.
  apply Forall_app in Hrange as [Hrange_before Hrange_n].
  apply Forall_cons in Hrange_n as [Hrange_n _].
  revert Hsent. unfold hybridParsePDF, pages_sent_to_ocr. rewrite first_round.
  cbn [mbind result_bind fst snd].
  destruct (_ && _); [|by intros ?%app_cons_not_nil].
  intros ->. unfold ocrPDFPages. rewrite result_foldl_app.
  destruct (ocrPDFPages_returns d ocrPage before) as [results Hresults].
  { apply Forall_forall. intros m Hm. split.
    - by apply (proj1 (Forall_forall _ _) Hrange_before).
    - by apply (proj1 (Forall_forall _ _) Hbefore). }
  unfold ocrPDFPages in Hresults. rewrite Hresults.
  cbn [mbind result_bind result_foldl].
  destruct (getPage_in_range d n Hrange_n) as [page ->].
  cbn [mbind result_bind]. rewrite Hn. done.
Qed.

End OcrAnswers.

(** The second page of [scanned_second_page] comes back with the OCR text. *)
Lemma hybridParsePDF_ocr_text_witness :
  ∃ r, hybridParsePDF scanned_second_page (Some (js "gsk")) 100 999 recognised = Ok r
       ∧ pageTexts r !! 1%nat
         = Some {| pt_pageNum := 2; pt_text := js "scan"; needsOCR := true;
                   ocrApplied := true |}
       ∧ recognised 2 = Ok (js "scan").
Proof.
  destruct (hybridParsePDF scanned_second_page (Some (js "gsk")) 100 999 recognised)
    as [r|e] eqn:Hr; [|vm_compute in Hr; discriminate].
  exists r.
  assert (pageTexts r !! 1%nat
          = Some {| pt_pageNum := 2; pt_text := js "scan"; needsOCR := true;
                    ocrApplied := true |}) as Hpage.
  { vm_compute in Hr. injection Hr as <-. reflexivity. }
  split; [reflexivity|]. split; [exact Hpage|].
  refine (proj1 (proj1 (hybridParsePDF_ocr_text scanned_second_page (Some (js "gsk"))
                          100 999 recognised r _ Hr
                          (list_elem_of_lookup_2 _ _ _ Hpage) eq_refl) _)).
  vm_compute. apply list_elem_of_here.
Defined.

(** The refusal of the one OCR request rejects the extraction. *)
Lemma hybridParsePDF_ocr_failure_witness :
  hybridParsePDF scanned_second_page (Some (js "gsk")) 100 999 refused
  = Err {| message := Some (js "quota") |}.
Proof.
  apply (hybridParsePDF_ocr_failure scanned_second_page (Some (js "gsk")) 100 999
           refused [] [] 2).
  - vm_compute. reflexivity.
  - constructor.
  - reflexivity.
Defined.

(* ===================================================================== *)
(** * lib/db.js : categories and validation                                *)
(* ===================================================================== *)

Section Categories.

Lemma deleteDocument_chunks_lookup (st : db) (id k : N) :
  chunks (deleteDocument st id) !! k
  = c ← chunks st !! k; if decide (docId c = id) then None else Some c.
Proof.
  cbn [deleteDocument chunks]. rewrite cursor_delete_lookup.
  destruct (chunks st !! k) as [c|] eqn:Hk; cbn [mbind option_bind].
  - destruct (decide (docId c = id)) as [Hid|Hid].
    + rewrite decide_True; [done|]. apply elem_of_index_docId_only. eauto.
    + rewrite decide_False; [done|].
      intros (c' & Hk' & Hid')%elem_of_index_docId_only. congruence.
  - by destruct (decide _).
Qed.

Lemma foldl_deleteDocument (l : list (N * document)) (st : db) :
  let st' := foldl (λ st kd, deleteDocument st kd.1) st l in
  (∀ k, documents st' !! k = if decide (k ∈ l.*1) then None else documents st !! k)
  ∧ (∀ k, chunks st' !! k
          = c ← chunks st !! k; if decide (docId c ∈ l.*1) then None else Some c)
  ∧ chatHistoryStore st' = chatHistoryStore st.
Proof.
  revert st. induction l as [|[id d] l IH]; intros st; cbn zeta;
    cbn [foldl fmap list_fmap fst].
  - split; [|split; [|done]]; intros k.
    + by rewrite decide_False by apply not_elem_of_nil.
    + destruct (chunks st !! k); cbn [mbind option_bind]; [|done].
      by rewrite decide_False by apply not_elem_of_nil.
  - destruct (IH (deleteDocument st id)) as (Hdocs & Hchunks & Hchat).
    split; [|split; [|by rewrite Hchat]]; intros k.
    + rewrite Hdocs. cbn [deleteDocument documents].
      destruct (decide (k ∈ l.*1)) as [Hin|Hnin].
      * by rewrite decide_True by (by right).
      * destruct (decide (k = id)) as [->|Hne].
        -- rewrite lookup_delete_eq. by rewrite decide_True by (by left).
        -- rewrite lookup_delete_ne by done.
           rewrite decide_False; [done|]. by intros [?|?]%elem_of_cons.
    + rewrite Hchunks, deleteDocument_chunks_lookup.
      destruct (chunks st !! k) as [c|]; cbn [mbind option_bind]; [|done].
      destruct (decide (docId c = id)) as [Hid|Hid]; cbn [mbind option_bind].
      * by rewrite decide_True by (apply elem_of_cons; by left).
      * destruct (decide (docId c ∈ l.*1)) as [Hin|Hnin].
        -- by rewrite decide_True by (by right).
        -- rewrite decide_False; [done|]. by intros [?|?]%elem_of_cons.
Qed.

(** X20.  [deleteCategory] removes exactly the documents of the category, where
    a document without a category, or with the empty one, counts as a member
    of the default category; with them go exactly the chunks that point to one
    of these documents.  Every other document and chunk stays as it was, and
    so does the chat history. *)
Theorem deleteCategory_cascade (st : db) (categoryName : jsstring) :
  let st' := deleteCategory st categoryName in
  (∀ k d, documents st' !! k = Some d
          ↔ documents st !! k = Some d ∧ category_of d ≠ categoryName)
  ∧ (∀ k c, chunks st' !! k = Some c
            ↔ chunks st !! k = Some c
              ∧ ¬ ∃ d, documents st !! docId c = Some d ∧ category_of d = categoryName)
  ∧ chatHistoryStore st' = chatHistoryStore st.
Proof.
  cbn zeta. unfold deleteCategory.
  destruct (foldl_deleteDocument
              (filter (λ kd, category_of kd.2 = categoryName) (getAll (documents st))) st)
    as (Hdocs & Hchunks & Hchat).
  assert (∀ id, id ∈ (filter (λ kd : N * document, category_of kd.2 = categoryName)
                        (getAll (documents st))).*1
                ↔ ∃ d, documents st !! id = Some d ∧ category_of d = categoryName)
    as Htarget.
  { intros id. rewrite list_elem_of_fmap. split.
    - intros ([k d] & -> & [Hcat Hin]%list_elem_of_filter).
      apply elem_of_getAll in Hin. by exists d.
    - intros (d & Hd & Hcat). exists (id, d). split; [done|].
      apply list_elem_of_filter. split; [done|]. by apply elem_of_getAll. }
  split; [|split; [|done]].
  - intros k d. rewrite Hdocs. destruct (decide _) as [Hin|Hnin].
    + apply Htarget in Hin as (d' & Hd' & Hcat). split; [done|].
      intros [Hd Hne]. congruence.
    + split.
      * intros Hd. split; [done|]. intros Hcat. apply Hnin, Htarget. eauto.
      * by intros [? _].
  - intros k c. rewrite Hchunks.
    destruct (chunks st !! k) as [c'|]; cbn [mbind option_bind].
    + destruct (decide _) as [Hin|Hnin].
      * split; [done|]. intros [[= ->] Hnot]. destruct Hnot. by apply Htarget.
      * split.
        -- intros [= ->]. split; [done|]. by rewrite <- Htarget.
        -- by intros [? _].
    + split; [done|]. by intros [? _].
Qed.

(** Deleting the category of the first document of [two_documents]. *)
Example deleteCategory_two_documents :
  (getAll (documents (deleteCategory two_documents (js "A")))).*1 = [2%N]
  ∧ (getAll (chunks (deleteCategory two_documents (js "A")))).*1 = [2%N].
Proof. split; vm_compute; reflexivity. Qed.

Lemma foldl_updateCategory_step (oldName newName : jsstring)
    (l : list (N * document)) (m : gmap N document) :
  NoDup l.*1 →
  (∀ k d, (k, d) ∈ l → m !! k = Some d) →
  ∀ k, foldl (updateCategory_step oldName newName) m l !! k
       = if decide (k ∈ l.*1)
         then (λ d, if decide (category_of d = oldName)
                    then set_category d newName else d) <$> m !! k
         else m !! k.
Proof.
  revert m. induction l as [|[id d] l IH]; intros m Hnodup Hin k.
  - cbn [foldl]. by rewrite decide_False by apply not_elem_of_nil.
  - rewrite fmap_cons in Hnodup |- *. cbn [foldl fst] in Hnodup |- *.
    apply NoDup_cons in Hnodup as [Hid Hnodup].
    rewrite IH; [|done|].
    + unfold updateCategory_step. cbn [fst snd].
      destruct (decide (k = id)) as [->|Hne].
      * destruct (decide (id ∈ l.*1)); [done|].
        destruct (decide (id ∈ id :: l.*1)) as [_|Hn]; [|destruct Hn; by left].
        rewrite (Hin id d) by (by left). cbn [fmap option_fmap option_map].
        destruct (decide (category_of d = oldName)).
        -- by rewrite lookup_insert_eq.
        -- apply Hin. by left.
      * assert ((if decide (category_of d = oldName)
                 then <[id:=set_category d newName]> m else m) !! k = m !! k) as ->.
        { destruct (decide _); [by rewrite lookup_insert_ne|done]. }
        destruct (decide (k ∈ l.*1)) as [Hk|Hk];
          destruct (decide (k ∈ id :: l.*1)) as [Hk'|Hk']; try done.
        -- destruct Hk'. by right.
        -- by apply elem_of_cons in Hk' as [?|?].
    + intros k' d' Hk'. unfold updateCategory_step. cbn [fst snd].
      assert (k' ≠ id) as Hne.
      { intros ->. apply Hid. apply list_elem_of_fmap. by exists (id, d'). }
      destruct (decide _); [rewrite lookup_insert_ne by done|];
        apply Hin; by right.
Qed.

Lemma updateCategory_lookup (st : db) (oldName newName : jsstring) (k : N) :
  documents (updateCategory st oldName newName) !! k
  = (λ d, if decide (category_of d = oldName) then set_category d newName else d)
      <$> documents st !! k.
Proof.
  cbn [updateCategory documents].
  rewrite foldl_updateCategory_step.
  - destruct (decide _) as [Hin|Hnin]; [done|].
    destruct (documents st !! k) as [d|] eqn:Hk; [|done].
    exfalso. apply Hnin. apply list_elem_of_fmap. exists (k, d).
    split; [done|]. by apply elem_of_getAll.
  - unfold getAll. rewrite merge_sort_Permutation. apply NoDup_fst_map_to_list.
  - intros k' d'. apply elem_of_getAll.
Qed.

Lemma category_of_set_category (d : document) (newName : jsstring) :
  newName ≠ [] → category_of (set_category d newName) = newName.
Proof. intros Hne. unfold category_of, set_category. cbn. by destruct newName. Qed.

(** X21.  Renaming a category, under the guard of the rename handler (the new
    name is not empty and differs from the old one): every document of the old
    category, the default category included when that is the old name, moves
    to the new one and keeps its other fields; every other document is
    unchanged; afterwards no document is left in the old category; the chunks
    and the chat history are untouched. *)
Theorem updateCategory_moves (st : db) (oldName newName : jsstring) :
  newName ≠ [] →
  newName ≠ oldName →
  let st' := updateCategory st oldName newName in
  (∀ k, documents st' !! k
        = (λ d, if decide (category_of d = oldName) then set_category d newName else d)
            <$> documents st !! k)
  ∧ (∀ k d, documents st !! k = Some d →
       category_of <$> documents st' !! k
       = Some (if decide (category_of d = oldName) then newName else category_of d))
  ∧ (∀ k d', documents st' !! k = Some d' → category_of d' ≠ oldName)
  ∧ chunks st' = chunks st
  ∧ chatHistoryStore st' = chatHistoryStore st.
Proof.
  intros Hnew Hdiff. cbn zeta.
  split; [apply updateCategory_lookup|].
  split; [|split; [|done]].
  - intros k d Hd. rewrite updateCategory_lookup, Hd.
    cbn [fmap option_fmap option_map]. f_equal.
    destruct (decide _); [by apply category_of_set_category | done].
  - intros k d'. rewrite updateCategory_lookup.
    destruct (documents st !! k) as [d|]; [|done].
    cbn [fmap option_fmap option_map]. intros [= <-].
    destruct (decide _); [|done].
    rewrite category_of_set_category by done. done.
Qed.

End Categories.

(** Renaming category A of [two_documents] to B moves document 1 to B. *)
Lemma updateCategory_moves_witness :
  category_of <$> documents (updateCategory two_documents (js "A") (js "B")) !! 1%N
  = Some (js "B").
Proof.
  exact (proj1 (proj2 (updateCategory_moves two_documents (js "A") (js "B")
                         ltac:(discriminate) ltac:(discriminate)))
           1%N
           {| doc_name := js "a.pdf"; doc_category := Some (js "A");
              chunkCount := 2; embeddingDimension := 2 |}
           eq_refl).
Defined.

Section Validation.

#[local] Instance key_le_total {V} : Total (@key_le V).
Proof. intros x y. unfold key_le. lia. Qed.

#[local] Instance key_le_trans {V} : Transitive (@key_le V).
Proof. intros x y z. unfold key_le. lia. Qed.

Lemma getAll_sorted {V} (store : gmap N V) : StronglySorted key_le (getAll store).
Proof. apply StronglySorted_merge_sort; apply _. Qed.

(** Two records of [getAll] in the order of their positions have keys in
    strictly increasing order. *)
Lemma getAll_lookup_lt {V} (store : gmap N V) (i j : nat) (x y : N * V) :
  getAll store !! i = Some x → getAll store !! j = Some y →
  (i < j)%nat → (x.1 < y.1)%N.
Proof.
  intros Hi Hj Hij.
  pose proof (getAll_sorted store) as Hsorted.
  pose proof (getAll_keys_NoDup store) as Hnodup.
  assert (x.1 ≠ y.1) as Hne.
  { intros Heq. assert (i = j); [|lia].
    eapply NoDup_lookup; [exact Hnodup| |]; rewrite list_lookup_fmap.
    - by rewrite Hi.
    - rewrite Hj. cbn. by rewrite Heq. }
  assert (key_le x y); [|unfold key_le in *; lia].
  revert i j Hi Hj Hij. induction Hsorted as [|z l Hl IH Hall]; intros i j Hi Hj Hij.
  - done.
  - destruct i as [|i], j as [|j]; try lia.
    + cbn in Hi, Hj. injection Hi as <-.
      rewrite Forall_forall in Hall. apply Hall. by eapply list_elem_of_lookup_2.
    + cbn in Hi, Hj. apply (IH ltac:(by apply NoDup_cons in Hnodup as [_ ?]) i j); try done. lia.
Qed.

(** X22.  [validateEmbeddingDimension] answers [valid] exactly when every
    stored chunk has an embedding of the expected length; a chunk without
    embedding makes the store invalid.  [count] is the number of stored
    chunks.  When the store is invalid, [found] is the length (or its
    absence) for the mismatching chunk with the smallest key. *)
Theorem validateEmbeddingDimension_valid (st : db) (expectedDim : Z) :
  let v := validateEmbeddingDimension st expectedDim in
  count v = Z.of_nat (size (chunks st))
  ∧ (valid v = true
     ↔ ∀ k c, chunks st !! k = Some c → embedding_length c = Some expectedDim)
  ∧ (valid v = false
     ↔ ∃ k c, chunks st !! k = Some c
              ∧ embedding_length c ≠ Some expectedDim
              ∧ found v = embedding_length c
              ∧ expected v = Some expectedDim
              ∧ ∀ k' c', chunks st !! k' = Some c' → (k' < k)%N →
                         embedding_length c' = Some expectedDim).
Proof.
  cbn zeta. unfold validateEmbeddingDimension.
  rewrite getAll_length.
  destruct (Z.eqb_spec (Z.of_nat (size (chunks st))) 0) as [Hempty|Hne].
  { cbn [count valid found expected].
    assert (chunks st = ∅) as Hnone by (apply map_size_empty_iff; lia).
    split; [lia|]. split.
    - split; [|done]. intros _ k c. rewrite Hnone. by rewrite lookup_empty.
    - split; [done|]. intros (k & c & Hk & _). rewrite Hnone in Hk.
      by rewrite lookup_empty in Hk. }
  destruct (list_find _ (getAll (chunks st))) as [[i [k c]]|] eqn:Hfind.
  - apply list_find_Some in Hfind as (Hi & Hbad & Hbefore).
    cbn [snd] in Hbad. cbn [count valid found expected snd].
    split; [done|]. split.
    + split; [done|]. intros Hall. exfalso. apply Hbad, (Hall k).
      apply elem_of_getAll. by eapply list_elem_of_lookup_2.
    + split; [|done]. intros _. exists k, c.
      split; [apply elem_of_getAll; by eapply list_elem_of_lookup_2|].
      split; [done|]. split; [done|]. split; [done|].
      intros k' c' Hk' Hlt.
      apply elem_of_getAll, list_elem_of_lookup in Hk' as [j Hj].
      destruct (decide (j < i)%nat) as [Hji|Hji].
      * specialize (Hbefore j _ Hj Hji). cbn [snd] in Hbefore.
        by destruct (decide (embedding_length c' = Some expectedDim)).
      * destruct (decide (j = i)) as [->|Hne'].
        -- rewrite Hi in Hj. injection Hj as -> ->. lia.
        -- pose proof (getAll_lookup_lt (chunks st) i j _ _ Hi Hj ltac:(lia)) as Hlt'.
           cbn [fst] in Hlt'. lia.
  - apply list_find_None in Hfind. rewrite Forall_forall in Hfind.
    cbn [count valid found expected].
    split; [done|]. split.
    + split; [|done]. intros _ k c Hk. apply elem_of_getAll in Hk.
      specialize (Hfind _ Hk). cbn [snd] in Hfind.
      by destruct (decide (embedding_length c = Some expectedDim)).
    + split; [done|]. intros (k & c & Hk & Hbad & _). apply elem_of_getAll in Hk.
      specialize (Hfind _ Hk). cbn [snd] in Hfind. by apply Hfind in Hbad.
Qed.

End Validation.

(** The chunks of [two_documents] have embeddings of length 2; 3072 is the
    default expectation. *)
Example validateEmbeddingDimension_two_documents :
  validateEmbeddingDimension two_documents 2
  = {| valid := true; found := None; expected := None; count := 3 |}
  ∧ validateEmbeddingDimension two_documents 3072
    = {| valid := false; found := Some 2; expected := Some 3072; count := 3 |}.
Proof. split; vm_compute; reflexivity. Qed.

(* ===================================================================== *)
(** * lib/db.js : saving a document                                        *)
(* ===================================================================== *)

Section Saving.

Lemma foldl_add_chunk (id : N) (newChunks : list newChunk) (store : gmap N chunk)
    (next : N) :
  let added := foldl (add_chunk id) (store, next) newChunks in
  added.2 = (next + N.of_nat (length newChunks))%N
  ∧ (∀ k, (k < next)%N → added.1 !! k = store !! k)
  ∧ (∀ k, (next + N.of_nat (length newChunks) ≤ k)%N → added.1 !! k = store !! k)
  ∧ (∀ (i : nat) c, newChunks !! i = Some c →
       added.1 !! (next + N.of_nat i)%N = Some (stored_chunk id c)).
Proof.
  revert store next. induction newChunks as [|c0 l IH]; intros store next; cbn zeta.
  - cbn [foldl fst snd length]. split; [lia|]. do 2 (split; [done|]). by intros i c.
  - cbn [foldl]. unfold add_chunk at 2. cbn [fst snd].
    destruct (IH (<[next := stored_chunk id c0]> store) (next + 1)%N)
      as (Hnext & Hbelow & Habove & Hnew).
    cbn zeta in Hnext, Hbelow, Habove, Hnew.
    split; [rewrite Hnext; cbn [length]; lia|].
    split; [|split].
    + intros k Hk. rewrite Hbelow by lia. apply lookup_insert_ne. lia.
    + intros k Hk. cbn [length] in Hk. rewrite Habove by lia.
      apply lookup_insert_ne. lia.
    + intros [|i] c; cbn [lookup list_lookup].
      * intros [= ->]. rewrite Hbelow by lia.
        replace (next + N.of_nat 0)%N with next by lia. apply lookup_insert_eq.
      * intros Hi. replace (next + N.of_nat (S i))%N with (next + 1 + N.of_nat i)%N by lia.
        by apply Hnew.
Qed.

Lemma index_docId_only_NoDup (store : gmap N chunk) (id : N) :
  NoDup (index_docId_only store id).
Proof.
  unfold index_docId_only.
  eapply sublist_NoDup; [apply (getAll_keys_NoDup store)|].
  apply fmap_sublist, sublist_filter.
Qed.

Context (st : database) (name : jsstring) (category : option jsstring)
        (newChunks : list newChunk).

Local Abbreviation saved := (saveDocument st name category newChunks).

(** X23.  Saving a document into a database whose keys were all generated and
    in which no chunk points to the next document key: the document is stored
    under the returned id with [chunkCount] equal to the number of chunks
    given; the chunks are stored in the order given under the next chunk keys,
    all pointing to the new id, and the index finds exactly [chunkCount]
    chunks for the new id; the records that were there are unchanged; and
    deleting the new document again restores the stores. *)
Theorem saveDocument_stored :
  keys_generated st →
  (∀ k c, chunks (stores st) !! k = Some c → docId c ≠ nextDocumentKey st) →
  saved.2 = nextDocumentKey st
  ∧ keys_generated saved.1
  ∧ (∃ doc, documents (stores saved.1) !! saved.2 = Some doc
            ∧ doc_name doc = name
            ∧ chunkCount doc = Z.of_nat (length newChunks)
            ∧ chunkCount doc
              = Z.of_nat (length (index_docId_only (chunks (stores saved.1)) saved.2)))
  ∧ (∀ k d, documents (stores st) !! k = Some d →
            documents (stores saved.1) !! k = Some d)
  ∧ (∀ k c, chunks (stores st) !! k = Some c →
            chunks (stores saved.1) !! k = Some c)
  ∧ (∀ (i : nat) c, newChunks !! i = Some c →
       chunks (stores saved.1) !! (nextChunkKey st + N.of_nat i)%N
       = Some (stored_chunk saved.2 c))
  ∧ deleteDocument (stores saved.1) saved.2 = stores st.
Proof.
  intros (Hdoc1 & Hchunk1 & Hdocs & Hchunks) Horphan.
  destruct (foldl_add_chunk (nextDocumentKey st) newChunks (chunks (stores st))
              (nextChunkKey st)) as (Hnext & Hbelow & Habove & Hnew).
  cbn zeta in Hnext, Hbelow, Habove, Hnew.
  assert (documents (stores st) !! nextDocumentKey st = None) as Hfresh.
  { destruct (documents (stores st) !! nextDocumentKey st) eqn:Hk; [|done].
    specialize (Hdocs (nextDocumentKey st) ltac:(by rewrite Hk)). lia. }
  assert (∀ k, (nextChunkKey st ≤ k)%N → chunks (stores st) !! k = None) as Hunused.
  { intros k Hk. destruct (chunks (stores st) !! k) eqn:Hc; [|done].
    specialize (Hchunks k ltac:(by rewrite Hc)). lia. }
  assert (∀ k c,
    (foldl (add_chunk (nextDocumentKey st)) (chunks (stores st), nextChunkKey st)
       newChunks).1 !! k = Some c
    → (chunks (stores st) !! k = Some c ∧ (k < nextChunkKey st)%N)
      ∨ ∃ i : nat, k = (nextChunkKey st + N.of_nat i)%N
                   ∧ (i < length newChunks)%nat
                   ∧ docId c = nextDocumentKey st) as Hcases.
  { intros k c Hk.
    destruct (decide (k < nextChunkKey st)%N) as [Hlt|Hge].
    { left. by rewrite <- Hbelow. }
    destruct (decide (nextChunkKey st + N.of_nat (length newChunks) ≤ k)%N) as [Hbig|Hin].
    { rewrite Habove, Hunused in Hk by lia. done. }
    right. exists (N.to_nat (k - nextChunkKey st)).
    split; [lia|]. split; [lia|].
    destruct (lookup_lt_is_Some_2 newChunks (N.to_nat (k - nextChunkKey st)) ltac:(lia))
      as [c' Hc'].
    apply Hnew in Hc'.
    replace (nextChunkKey st + N.of_nat (N.to_nat (k - nextChunkKey st)))%N with k
      in Hc' by lia.
    rewrite Hc' in Hk. by injection Hk as <-. }
  unfold saveDocument.
  cbn [fst snd stores documents chunks nextDocumentKey nextChunkKey chatHistoryStore].
  split; [done|]. split; [|split; [|split; [|split; [|split]]]].
  - unfold keys_generated.
    cbn [stores documents chunks nextDocumentKey nextChunkKey].
    rewrite Hnext. split; [lia|]. split; [lia|]. split.
    + intros k [d Hd]. destruct (decide (k = nextDocumentKey st)) as [->|Hne]; [lia|].
      rewrite lookup_insert_ne in Hd by done.
      specialize (Hdocs k ltac:(by rewrite Hd)). lia.
    + intros k [c Hc]. apply Hcases in Hc as [[Hc Hlt]|(i & -> & Hi & _)]; lia.
  - eexists. rewrite lookup_insert_eq. split; [reflexivity|].
    cbn [doc_name chunkCount]. split; [done|]. split; [done|].
    f_equal.
    transitivity (length ((λ i : nat, (nextChunkKey st + N.of_nat i)%N)
                            <$> seq 0 (length newChunks))).
    { by rewrite length_fmap, length_seq. }
    symmetry. apply Permutation_length.
    apply NoDup_Permutation.
    + apply index_docId_only_NoDup.
    + apply NoDup_fmap_2; [intros i j ?; lia | apply NoDup_seq].
    + intros k. rewrite elem_of_index_docId_only, list_elem_of_fmap. split.
      * intros (c & Hc & Hid).
        apply Hcases in Hc as [[Hc Hlt]|(i & -> & Hi & _)].
        -- by apply Horphan in Hc.
        -- exists i. split; [done|]. apply elem_of_seq. lia.
      * intros (i & -> & Hi%elem_of_seq).
        destruct (lookup_lt_is_Some_2 newChunks i ltac:(lia)) as [c Hc].
        exists (stored_chunk (nextDocumentKey st) c). split; [by apply Hnew|done].
  - intros k d Hd. rewrite lookup_insert_ne; [done|]. intros <-. congruence.
  - intros k c Hc. rewrite Hbelow; [done|].
    specialize (Hchunks k ltac:(by rewrite Hc)). lia.
  - done.
  - unfold deleteDocument.
    cbn [stores documents chunks chatHistoryStore].
    destruct (stores st) as [docs chs hist] eqn:Hstores.
    cbn [documents chunks chatHistoryStore] in *. f_equal.
    + rewrite delete_insert_eq. by apply delete_id.
    + apply map_eq. intros k. rewrite cursor_delete_lookup.
      destruct (decide _) as [Hin|Hnin].
      * apply elem_of_index_docId_only in Hin as (c & Hc & Hid).
        apply Hcases in Hc as [[Hc Hlt]|(i & -> & Hi & _)].
        -- by apply Horphan in Hc.
        -- symmetry. apply Hunused. lia.
      * destruct (decide (k < nextChunkKey st)%N) as [Hlt|Hge]; [by apply Hbelow|].
        rewrite Hunused by lia.
        destruct (_ !! k) as [c|] eqn:Hc; [|done].
        exfalso. apply Hnin, elem_of_index_docId_only. exists c. split; [done|].
        apply Hcases in Hc as [[Hc Hlt]|(i & _ & _ & Hid)]; [lia|done].
Qed.

End Saving.

Lemma map_Forall_keys_below {V} (m : gmap N V) (n : N) :
  map_Forall (λ k _, (k < n)%N) m → ∀ k, is_Some (m !! k) → (k < n)%N.
Proof. intros Hall k [v Hk]. by apply (Hall k v). Qed.

Lemma two_documents_db_keys_generated : keys_generated two_documents_db.
Proof.
  split; [done|]. split; [done|].
  split; apply map_Forall_keys_below; unfold two_documents_db, two_documents;
    cbn [stores documents chunks nextDocumentKey nextChunkKey];
    repeat (apply map_Forall_insert_2; [done|]);
    first [by apply map_Forall_singleton | apply map_Forall_empty].
Qed.

Lemma two_documents_db_no_orphan (k : N) (c : chunk) :
  chunks (stores two_documents_db) !! k = Some c → docId c ≠ nextDocumentKey two_documents_db.
Proof.
  revert k c. change (map_Forall (λ _ c, docId c ≠ 3%N) (chunks two_documents)).
  unfold two_documents; cbn [chunks].
  repeat (apply map_Forall_insert_2; [done|]).
  first [by apply map_Forall_singleton | apply map_Forall_empty].
Qed.

(** Saving a document with two chunks into [two_documents_db] and deleting it
    again. *)
Lemma saveDocument_stored_witness :
  deleteDocument
    (stores (saveDocument two_documents_db (js "c.pdf") None
               [ {| nc_content := js "four"; nc_embedding := Some [1; 0]%float;
                    nc_ocrUsed := false |};
                 {| nc_content := js "five"; nc_embedding := Some [0; 1]%float;
                    nc_ocrUsed := false |} ]).1)
    3
  = two_documents.
Proof.
  exact (proj2 (proj2 (proj2 (proj2 (proj2 (proj2
    (saveDocument_stored two_documents_db (js "c.pdf") None _
       two_documents_db_keys_generated two_documents_db_no_orphan))))))).
Defined.

(* ===================================================================== *)
(** * lib/db.js : export and import                                        *)
(* ===================================================================== *)

Section ImportExport.

Lemma foldl_import_document (entries : list (N * document))
    (store : gmap N document) (next : N) (idMap : gmap N N) :
  NoDup entries.*1 →
  let r := foldl import_document (store, next, idMap) entries in
  r.1.2 = (next + N.of_nat (length entries))%N
  ∧ (∀ k, (k < next)%N → r.1.1 !! k = store !! k)
  ∧ (∀ k, (next + N.of_nat (length entries) ≤ k)%N → r.1.1 !! k = store !! k)
  ∧ (∀ (i : nat) e, entries !! i = Some e →
       r.1.1 !! (next + N.of_nat i)%N = Some e.2
       ∧ r.2 !! e.1 = Some (next + N.of_nat i)%N)
  ∧ (∀ old, old ∉ entries.*1 → r.2 !! old = idMap !! old).
Proof.
  revert store next idMap.
  induction entries as [|e l IH]; intros store next idMap Hnodup; cbn zeta.
  - cbn [foldl fst snd length]. split; [lia|]. do 2 (split; [done|]).
    split; [by intros i e|done].
  - rewrite fmap_cons in Hnodup. apply NoDup_cons in Hnodup as [Hfresh Hnodup].
    cbn [foldl]. unfold import_document at 2.
    destruct (IH (<[next := e.2]> store) (next + 1)%N (<[e.1 := next]> idMap) Hnodup)
      as (Hnext & Hbelow & Habove & Hnew & Hold).
    cbn zeta in Hnext, Hbelow, Habove, Hnew, Hold.
    split; [rewrite Hnext; cbn [length]; lia|].
    split; [|split; [|split]].
    + intros k Hk. rewrite Hbelow by lia. apply lookup_insert_ne. lia.
    + intros k Hk. cbn [length] in Hk. rewrite Habove by lia.
      apply lookup_insert_ne. lia.
    + intros [|i] e'; cbn [lookup list_lookup].
      * intros [= ->]. replace (next + N.of_nat 0)%N with next by lia.
        rewrite Hbelow by lia. rewrite Hold by done.
        by rewrite !lookup_insert_eq.
      * intros Hi.
        replace (next + N.of_nat (S i))%N with (next + 1 + N.of_nat i)%N by lia.
        by apply Hnew.
    + intros old Hnot. rewrite fmap_cons in Hnot.
      apply not_elem_of_cons in Hnot as [Hne Hnot].
      rewrite Hold by done. by apply lookup_insert_ne.
Qed.

Lemma foldl_import_chunk (idMap : gmap N N) (entries : list (N * chunk))
    (store : gmap N chunk) (next : N) :
  let added := foldl (import_chunk idMap) (store, next) entries in
  added.2 = (next + N.of_nat (length entries))%N
  ∧ (∀ k, (k < next)%N → added.1 !! k = store !! k)
  ∧ (∀ k, (next + N.of_nat (length entries) ≤ k)%N → added.1 !! k = store !! k)
  ∧ (∀ (i : nat) e, entries !! i = Some e →
       added.1 !! (next + N.of_nat i)%N
       = Some {| docId := mapped_docId idMap (docId e.2);
                 chunk_content := chunk_content e.2;
                 embedding := embedding e.2;
                 ocrUsed := ocrUsed e.2 |}).
Proof.
  revert store next. induction entries as [|e l IH]; intros store next; cbn zeta.
  - cbn [foldl fst snd length]. split; [lia|]. do 2 (split; [done|]). by intros i e.
  - cbn [foldl]. unfold import_chunk at 2. cbn [fst snd].
    destruct (IH (<[next := {| docId := mapped_docId idMap (docId e.2);
                               chunk_content := chunk_content e.2;
                               embedding := embedding e.2;
                               ocrUsed := ocrUsed e.2 |}]> store) (next + 1)%N)
      as (Hnext & Hbelow & Habove & Hnew).
    cbn zeta in Hnext, Hbelow, Habove, Hnew.
    split; [rewrite Hnext; cbn [length]; lia|].
    split; [|split].
    + intros k Hk. rewrite Hbelow by lia. apply lookup_insert_ne. lia.
    + intros k Hk. cbn [length] in Hk. rewrite Habove by lia.
      apply lookup_insert_ne. lia.
    + intros [|i] e'; cbn [lookup list_lookup].
      * intros [= ->]. rewrite Hbelow by lia.
        replace (next + N.of_nat 0)%N with next by lia. apply lookup_insert_eq.
      * intros Hi. replace (next + N.of_nat (S i))%N with (next + 1 + N.of_nat i)%N by lia.
        by apply Hnew.
Qed.

Context (src dst : database) (clearExisting : bool).

(** X24.  Importing what [exportKnowledgeBase] returned for a database [src]
    into a database [dst] whose keys were all generated, resolves.  The
    exported documents are stored, in key order, under the next document keys
    of [dst]; the exported chunks are stored, in key order, under the next
    chunk keys, each with its content and embedding, and pointing to the new
    key of the document it belonged to; a chunk whose document was not in the
    export keeps its [docId].  The chat messages are appended.  What [dst]
    held is kept, or, with [clearExisting], removed.  The numbers returned are
    those of the exported documents, chunks and messages. *)
Theorem importKnowledgeBase_of_export :
  keys_generated dst →
  ∃ st' stats,
    importKnowledgeBase dst (Some (exportKnowledgeBase src)) clearExisting
    = Ok (st', stats)
    ∧ keys_generated st'
    ∧ documentsImported stats = Z.of_nat (size (documents (stores src)))
    ∧ chunksImported stats = Z.of_nat (size (chunks (stores src)))
    ∧ messagesImported stats = Z.of_nat (length (chatHistoryStore (stores src)))
    ∧ (∀ (i : nat) k d, getAll (documents (stores src)) !! i = Some (k, d) →
         documents (stores st') !! (nextDocumentKey dst + N.of_nat i)%N = Some d)
    ∧ (∀ (j : nat) k c, getAll (chunks (stores src)) !! j = Some (k, c) →
         ∃ c', chunks (stores st') !! (nextChunkKey dst + N.of_nat j)%N = Some c'
               ∧ chunk_content c' = chunk_content c
               ∧ embedding c' = embedding c
               ∧ ocrUsed c' = ocrUsed c
               ∧ (∀ (i : nat) d,
                    getAll (documents (stores src)) !! i = Some (docId c, d) →
                    docId c' = (nextDocumentKey dst + N.of_nat i)%N)
               ∧ (documents (stores src) !! docId c = None → docId c' = docId c))
    ∧ chatHistoryStore (stores st')
      = (if clearExisting then [] else chatHistoryStore (stores dst))
        ++ chatHistoryStore (stores src)
    ∧ (∀ k d, documents (stores dst) !! k = Some d →
         documents (stores st') !! k = if clearExisting then None else Some d)
    ∧ (∀ k c, chunks (stores dst) !! k = Some c →
         chunks (stores st') !! k = if clearExisting then None else Some c).
Proof.
  intros (Hdoc1 & Hchunk1 & Hdocs & Hchunks).
  unfold importKnowledgeBase, exportKnowledgeBase.
  cbn [mbind option_bind data ex_documents ex_chunks ex_chatHistory ex_settings
       default from_option id].
  set (st0 := if clearExisting then clearAllData dst else dst).
  assert (nextDocumentKey st0 = nextDocumentKey dst) as Hnd by (by destruct clearExisting).
  assert (nextChunkKey st0 = nextChunkKey dst) as Hnc by (by destruct clearExisting).
  assert (∀ k, documents (stores st0) !! k
               = if clearExisting then None else documents (stores dst) !! k) as Hd0.
  { intros k. unfold st0. destruct clearExisting; [apply lookup_empty|done]. }
  assert (∀ k, chunks (stores st0) !! k
               = if clearExisting then None else chunks (stores dst) !! k) as Hc0.
  { intros k. unfold st0. destruct clearExisting; [apply lookup_empty|done]. }
  assert (chatHistoryStore (stores st0)
          = if clearExisting then [] else chatHistoryStore (stores dst)) as Hh0.
  { unfold st0. by destruct clearExisting. }
  pose proof (foldl_import_document (getAll (documents (stores src)))
                (documents (stores st0)) (nextDocumentKey st0) ∅
                (getAll_keys_NoDup _)) as Himp.
  cbn zeta in Himp.
  destruct (foldl import_document _ _) as [[docStore nextDoc] idMap].
  cbn [fst snd] in Himp. destruct Himp as (Hnext & Hbelow & Habove & Hnew & Hold).
  pose proof (foldl_import_chunk idMap (getAll (chunks (stores src)))
                (chunks (stores st0)) (nextChunkKey st0)) as Hadd.
  cbn zeta in Hadd. destruct Hadd as (Hcnext & Hcbelow & Hcabove & Hcnew).
  rewrite Hnd in *. rewrite Hnc in *.
  repeat match goal with
         | H : context [length (getAll ?m)] |- _ => rewrite (getAll_length m) in H
         end.
  eexists _, _. split; [reflexivity|].
  cbn [stores documents chunks chatHistoryStore nextDocumentKey nextChunkKey
       documentsImported chunksImported messagesImported].
  rewrite ?getAll_length.
  split; [|do 3 (split; [done|]); split; [|split; [|split; [|split]]]].
  - unfold keys_generated.
    cbn [stores documents chunks nextDocumentKey nextChunkKey].
    rewrite Hnext, Hcnext. split; [lia|]. split; [lia|]. split.
    + intros k [d Hd].
      destruct (decide (nextDocumentKey dst + N.of_nat (size (documents (stores src))) ≤ k)%N)
        as [Hbig|]; [|lia].
      rewrite Habove, Hd0 in Hd by done. destruct clearExisting; [done|].
      specialize (Hdocs k ltac:(by rewrite Hd)). lia.
    + intros k [c Hc].
      destruct (decide (nextChunkKey dst + N.of_nat (size (chunks (stores src))) ≤ k)%N)
        as [Hbig|]; [|lia].
      rewrite Hcabove, Hc0 in Hc by done. destruct clearExisting; [done|].
      specialize (Hchunks k ltac:(by rewrite Hc)). lia.
  - intros i k d Hi. by apply Hnew in Hi as [? _].
  - intros j k c Hj. eexists. split; [by apply Hcnew in Hj|].
    cbn [fst snd docId chunk_content embedding ocrUsed].
    do 3 (split; [done|]). unfold mapped_docId. split.
    + intros i d Hi. apply Hnew in Hi as [_ Hi]. cbn [fst] in Hi. rewrite Hi.
      destruct (N.eqb_spec (nextDocumentKey dst + N.of_nat i) 0); [lia|done].
    + intros Hnone. rewrite Hold, lookup_empty; [done|].
      intros ([k' d'] & Hk & Hin%elem_of_getAll)%list_elem_of_fmap.
      cbn [fst] in Hk. subst k'. congruence.
  - by rewrite Hh0.
  - intros k d Hd. specialize (Hdocs k ltac:(by rewrite Hd)).
    rewrite Hbelow by done. rewrite Hd0. by destruct clearExisting.
  - intros k c Hc. specialize (Hchunks k ltac:(by rewrite Hc)).
    rewrite Hcbelow by done. rewrite Hc0. by destruct clearExisting.
Qed.

(** An import without [data] is rejected and nothing is written. *)
Lemma importKnowledgeBase_invalid (importData : option exportFile) :
  importData ≫= data = None →
  importKnowledgeBase dst importData clearExisting = Err invalid_import.
Proof. unfold importKnowledgeBase. by intros ->. Qed.

End ImportExport.

(** Restoring [two_documents_db] from its own export, after clearing: the
    chunks of documents 1 and 2 now belong to documents 3 and 4. *)
Lemma importKnowledgeBase_of_export_witness :
  ∃ st' stats,
    importKnowledgeBase two_documents_db (Some (exportKnowledgeBase two_documents_db)) true
    = Ok (st', stats)
    ∧ (getAll (documents (stores st'))).*1 = [3; 4]%N
    ∧ (λ kc, (kc.1, docId kc.2)) <$> getAll (chunks (stores st'))
      = [(4, 3); (5, 4); (6, 3)]%N.
Proof.
  destruct (importKnowledgeBase_of_export two_documents_db two_documents_db true
              two_documents_db_keys_generated) as (st' & stats & Hrun & _).
  exists st', stats. split; [exact Hrun|].
  vm_compute in Hrun. injection Hrun as <- _. split; vm_compute; reflexivity.
Defined.

(* ===================================================================== *)
(** * lib/pdf.js and App.jsx : parsing and uploading a file                *)
(* ===================================================================== *)

Section Upload.

Lemma foldl_zip_snd {A B C} (f : A → C → A) (l : list B) (k : list C) (acc : A) :
  (length k ≤ length l)%nat →
  foldl (λ acc ip, f acc ip.2) acc (zip l k) = foldl f acc k.
Proof.
  revert l acc. induction k as [|y k IH]; intros [|x l] acc Hlen; simpl in *;
    try done; try lia.
  apply IH. lia.
Qed.

Lemma foldl_append {A} (g : A → jsstring) (l : list A) (acc : jsstring) :
  foldl (λ text x, text ++ g x) acc l = acc ++ concat (g <$> l).
Proof.
  revert acc. induction l as [|x l IH]; intros acc; cbn [foldl fmap list_fmap concat].
  - by rewrite app_nil_r.
  - rewrite IH. by rewrite <- app_assoc.
Qed.

(** The text of the plain extraction: every page's strings joined by
    spaces, each page closed by a line feed. *)
Lemma plain_text (d : pdfDoc) :
  for_each_page d (numPages d) append_page []
  = Ok (concat ((λ page, join space (items page) ++ [10%N]) <$> d)).
Proof.
  rewrite for_each_page_ok by lia. f_equal. unfold append_page.
  pose proof (foldl_zip_snd (λ text page, text ++ join space (items page) ++ [10%N])
                (seqZ 1 (numPages d)) d []) as Hzip.
  cbn beta in Hzip. etrans; [apply Hzip|].
  - rewrite length_seqZ. unfold numPages. lia.
  - apply (foldl_append (λ page, join space (items page) ++ [10%N])).
Qed.

Lemma chunker_returns (text : jsstring) :
  ∃ chunks, chunkTextSemantic (length text) text 800 2 = Some chunks
            ∧ Forall (λ chunk, 50 < js_length (trim chunk)) chunks.
Proof.
  destruct (chunkTextSemantic_terminates text 800 2 ltac:(lia)) as [chunks Hchunks].
  exists chunks. split; [done|]. by eapply chunkTextSemantic_long_enough.
Qed.

(** The parser always returns: with a rejection or with chunks of more than
    50 characters. *)
Lemma parsePDFSmart_returns (d : pdfDoc) (groqApiKey : option jsstring)
    (ocrPage : Z → result jsstring) :
  ∃ outcome, parsePDFSmart d groqApiKey ocrPage = Some outcome
    ∧ ∀ r, outcome = Ok r → Forall (λ chunk, 50 < js_length (trim chunk)) (pr_chunks r).
Proof.
  unfold parsePDFSmart.
  destruct (extract_text d groqApiKey ocrPage) as [[text parse_stats]|e].
  - destruct (chunker_returns text) as (chunks & -> & Hlong).
    cbn [mbind option_bind]. eexists. split; [done|]. by intros r [= <-].
  - eexists. split; [done|]. by intros r [=].
Qed.

(** X25.  When the classifier does not call a document image based, or when no
    Groq key is set, [parsePDFSmart] resolves without a single request to the
    OCR service: the result is the same whatever that service would answer.
    The text is the text layer of all pages, each page closed by a line feed;
    the statistics say that OCR was not used; every chunk is longer than 50
    characters. *)
Theorem parsePDFSmart_without_ocr (d : pdfDoc) (groqApiKey : option jsstring)
    (verdict : detection) :
  detectImageBasedPDF d 3 = Ok verdict →
  isImageBased verdict && truthy groqApiKey = false →
  ∃ r, (∀ ocrPage, parsePDFSmart d groqApiKey ocrPage = Some (Ok r))
       ∧ pr_fullText r = concat ((λ page, join space (items page) ++ [10%N]) <$> d)
       ∧ ps_ocrUsed (pr_stats r) = false
       ∧ ps_ocrPages (pr_stats r) = 0
       ∧ ps_isImageBased (pr_stats r) = isImageBased verdict
       ∧ Forall (λ chunk, 50 < js_length (trim chunk)) (pr_chunks r).
Proof.
  intros Hverdict Hroute.
  destruct (chunker_returns (concat ((λ page, join space (items page) ++ [10%N]) <$> d)))
    as (chunks & Hchunks & Hlong).
  eexists {| pr_chunks := chunks |}. split.
  - intros ocrPage. unfold parsePDFSmart, extract_text.
    rewrite Hverdict. cbn [mbind result_bind]. rewrite Hroute, plain_text.
    cbn [mbind result_bind]. rewrite Hchunks. reflexivity.
  - by cbn.
Qed.

Lemma getEmbeddingsBatch_loop_length (provider : Z → Z → result (list float))
    (onProgress : bool) (total : Z) (texts : list jsstring) :
  ∀ (i : Z) (g : gemini) (results : list (option (list float)))
    (events : list batchEvent) all,
  (getEmbeddingsBatch_loop provider onProgress total texts i g results events).1.2
    = Ok all →
  length all = (length results + length texts)%nat.
Proof.
  induction texts as [|text texts IH]; intros i g results events all;
    cbn [getEmbeddingsBatch_loop].
  - cbn. intros [= <-]. lia.
  - destruct (getEmbedding g (provider i)) as [[g' [embedding|e]] requests].
    + intros Hrun. apply IH in Hrun. rewrite length_app in Hrun. cbn in *. lia.
    + cbn. done.
Qed.

Context (d : pdfDoc) (fileName : jsstring) (category groqApiKey : option jsstring)
        (ocrPage : Z → result jsstring) (provider : Z → Z → result (list float))
        (st : uploadState).

(** X26.  An upload always ends, with [isProcessing] reset, in one of two ways.
    Either the banner reports an error and neither the database nor the list
    of documents has changed: this is so when parsing rejects, when the parser
    returns no chunk, and when a single embedding fails, however many were
    computed before.  Or the banner reports success and the database is the
    old one with one document saved, whose chunks are the chunks of the parser
    in their order, each with the embedding computed for it, and the list of
    documents is reloaded from it. *)
Theorem handleUploadProcess_all_or_nothing :
  ∃ st',
    handleUploadProcess d fileName category groqApiKey ocrPage provider st = Some st'
    ∧ up_isProcessing st' = false
    ∧ ((status_type (up_status st') = status_error
        ∧ up_database st' = up_database st
        ∧ up_documents st' = up_documents st)
       ∨ (status_type (up_status st') = status_success
          ∧ ∃ r embeddings processed,
              parsePDFSmart d groqApiKey ocrPage = Some (Ok r)
              ∧ (getEmbeddingsBatch (up_embedder st) provider (pr_chunks r) true).1.2
                = Ok embeddings
              ∧ (0 < length (pr_chunks r))%nat
              ∧ length embeddings = length (pr_chunks r)
              ∧ length processed = length (pr_chunks r)
              ∧ (∀ (i : nat) text, pr_chunks r !! i = Some text →
                   ∃ c, processed !! i = Some c
                        ∧ nc_content c = text
                        ∧ embeddings !! i = Some (nc_embedding c)
                        ∧ nc_ocrUsed c = ps_ocrUsed (pr_stats r))
              ∧ up_database st'
                = (saveDocument (up_database st) fileName category processed).1
              ∧ up_documents st' = getAll (documents (stores (up_database st'))))).
Proof.
  unfold handleUploadProcess.
  destruct (parsePDFSmart_returns d groqApiKey ocrPage) as (outcome & -> & _).
  cbn [mbind option_bind]. eexists. split; [reflexivity|].
  destruct outcome as [r|e]; [|split; [done|by left]].
  destruct (Z.eqb_spec (Z.of_nat (length (pr_chunks r))) 0) as [Hnone|Hsome];
    [split; [done|by left]|].
  destruct (getEmbeddingsBatch _ _ _ _) as [[client [embeddings|e]] events] eqn:Hbatch;
    [|split; [done|by left]].
  split; [done|]. right. cbn [up_status up_database up_documents upload_success status_type].
  split; [done|].
  assert (length embeddings = length (pr_chunks r)) as Hlen.
  { unfold getEmbeddingsBatch in Hbatch.
    apply (getEmbeddingsBatch_loop_length provider true
             (Z.of_nat (length (pr_chunks r))) (pr_chunks r) 0
             (up_embedder st) [] [] embeddings).
    by rewrite Hbatch. }
  exists r, embeddings,
    (processed_chunks (pr_chunks r) embeddings (ps_ocrUsed (pr_stats r))).
  split; [done|]. split; [by rewrite Hbatch|]. split; [lia|]. split; [done|].
  split; [apply length_imap|]. split; [|done].
  intros i text Hi. unfold processed_chunks. rewrite list_lookup_imap, Hi.
  cbn [fmap option_fmap option_map]. eexists. split; [reflexivity|].
  cbn [nc_content nc_embedding nc_ocrUsed]. split; [done|]. split; [|done].
  destruct (lookup_lt_is_Some_2 embeddings i) as [v ->]; [|done].
  apply lookup_lt_Some in Hi. lia.
Qed.

End Upload.

(** Three pages of text are not image based. *)
Lemma parsePDFSmart_without_ocr_witness :
  ∃ r, (∀ ocrPage, parsePDFSmart three_text_pages (Some (js "gsk")) ocrPage = Some (Ok r))
       ∧ ps_ocrUsed (pr_stats r) = false.
Proof.
  destruct (parsePDFSmart_without_ocr three_text_pages (Some (js "gsk"))
              {| isImageBased := false;
                 textDensity := (Z_to_float 3000 / (0 + 612 * 792 + 612 * 792 + 612 * 792))%float;
                 totalTextLength := 3000;
                 pagesChecked := 3;
                 confidence := low |}
              ltac:(vm_compute; reflexivity) eq_refl)
    as (r & Hrun & _ & Hocr & _).
  by exists r.
Defined.

(* ===================================================================== *)
(** * lib/groq.js and PDFPageAnalyzer.jsx : the two modes of page analysis *)
(* ===================================================================== *)

Section Sums.

Context {A : Type} (f : A → Z).

Lemma foldl_sum_from (l : list A) (a : Z) :
  foldl (λ s x, s + f x) a l = a + foldl (λ s x, s + f x) 0 l.
Proof.
  revert a. induction l as [|x l IH]; intros a; cbn [foldl]; [lia|].
  rewrite (IH (a + f x)), (IH (0 + f x)). lia.
Qed.

Lemma foldl_sum_Permutation (l k : list A) :
  l ≡ₚ k → foldl (λ s x, s + f x) 0 l = foldl (λ s x, s + f x) 0 k.
Proof.
  induction 1 as [|x l k _ IH|x y l|l k m _ IH1 _ IH2]; cbn [foldl].
  - done.
  - rewrite (foldl_sum_from l), (foldl_sum_from k). lia.
  - rewrite (foldl_sum_from l (0 + f y + f x)), (foldl_sum_from l (0 + f x + f y)). lia.
  - congruence.
Qed.

End Sums.

Section Modes.

(** The units of a selection are among the units of the captured pages. *)
Lemma selected_units_le (l : list N) (m : gmap N jsstring) :
  NoDup l →
  foldl (λ s p, s + from_option js_length 0 (m !! p)) 0 l
  ≤ foldl (λ s b, s + js_length b) 0 (getAll m).*2.
Proof.
  revert m. induction l as [|p l IH]; intros m Hnodup; cbn [foldl].
  - clear. induction (getAll m).*2 as [|b k IHk]; cbn [foldl]; [lia|].
    rewrite foldl_sum_from. unfold js_length in *. lia.
  - apply NoDup_cons in Hnodup as [Hp Hnodup]. rewrite foldl_sum_from.
    destruct (m !! p) as [b|] eqn:Hb; cbn [from_option].
    + assert (foldl (λ s b, s + js_length b) 0 (getAll m).*2
              = js_length b + foldl (λ s b, s + js_length b) 0 (getAll (delete p m)).*2)
        as ->.
      { rewrite (foldl_sum_Permutation js_length (getAll m).*2
                   (b :: (getAll (delete p m)).*2)).
        - cbn [foldl]. rewrite foldl_sum_from. lia.
        - unfold getAll. rewrite !merge_sort_Permutation.
          rewrite <- (map_to_list_delete m p b Hb). by rewrite fmap_cons. }
      specialize (IH (delete p m) Hnodup).
      assert (∀ a, foldl (λ s q, s + from_option js_length 0 (m !! q)) a l
                   = foldl (λ s q, s + from_option js_length 0 (delete p m !! q)) a l)
        as Hsame.
      { clear IH Hnodup. induction l as [|q l IHl]; intros a; cbn [foldl]; [done|].
        apply not_elem_of_cons in Hp as [Hne Hp].
        rewrite lookup_delete_ne by done. by apply IHl. }
      rewrite Hsame. lia.
    + specialize (IH m Hnodup). lia.
Qed.

Lemma totalSize_selected_images (st : analyzer) :
  totalSize (selected_images st)
  = foldl (λ s p, s + from_option js_length 0 (pageImages st !! p)) 0 (selectedPages st).
Proof.
  unfold totalSize, selected_images. rewrite foldl_fmap.
  assert (∀ a l,
    foldl (λ s p, s + base64_length {| pageNum := Z.of_N p; base64 := pageImages st !! p;
                                       mimeType := Some (js "image/jpeg") |}) a l
    = foldl (λ s p, s + from_option js_length 0 (pageImages st !! p)) a l) as Hsame.
  { intros a l. revert a. induction l as [|p l IH]; intros a; cbn [foldl]; [done|].
    rewrite IH. f_equal. }
  apply Hsame.
Qed.

(** X27.  A message that the page analyzer sends as a single request passes
    every check of [chatWithPDFPages], provided the Groq key is set and no
    page is selected twice: between one and five images, and a payload of at
    most 3 MB of base64 text, below the 3.5 MB at which the request would be
    refused.  The oversize and page count rejections are thus never shown to
    a user of the analyzer. *)
Theorem handleSend_single_request_accepted (input : jsstring) (busy : bool)
    (st : analyzer) (groqApiKey : option jsstring) (images : list pageImage) :
  NoDup (selectedPages st) →
  truthy groqApiKey = true →
  handleSend_route input busy st = SingleRequest images →
  chatWithPDFPages_checks groqApiKey images = None
  ∧ 1 ≤ Z.of_nat (length images) ≤ 5
  ∧ totalSize images ≤ 3145728
  ∧ pageNum <$> images = Z.of_N <$> selectedPages st.
Proof.
  intros Hnodup Hkey. unfold handleSend_route.
  destruct (_ || _ || busy) eqn:Hguard; [done|].
  destruct (needsBatchMode st) eqn:Hmode; [done|]. intros [= <-].
  apply orb_false_iff in Hguard as [Hguard _].
  apply orb_false_iff in Hguard as [_ Hsome%Z.eqb_neq].
  unfold needsBatchMode in Hmode.
  apply orb_false_iff in Hmode as [Hsize%Qgtb_false Hcount%Z.ltb_ge].
  assert (length (selected_images st) = length (selectedPages st)) as Hlen.
  { unfold selected_images. apply length_fmap. }
  assert (totalSize (selected_images st) ≤ 3145728) as Htotal.
  { rewrite totalSize_selected_images.
    etrans; [apply selected_units_le, Hnodup|].
    unfold totalSizeMB in Hsize.
    set (units := foldl (λ s b, s + js_length b) 0 (getAll (pageImages st)).*2) in *.
    assert (inject_Z units <= inject_Z 3145728)%Q as Hle.
    { change (inject_Z 3145728) with 3145728%Q. clearbody units.
      revert Hsize. generalize (inject_Z units). intros q Hsize.
      unfold Qdiv in Hsize. change (/ 1024)%Q with (1 # 1024)%Q in Hsize. lra. }
    by rewrite Zle_Qle. }
  split; [|split; [lia|split; [done|]]].
  - unfold chatWithPDFPages_checks. rewrite Hkey. cbn [negb]. rewrite Hlen.
    rewrite (proj2 (Z.eqb_neq _ _) Hsome), (proj2 (Z.ltb_ge _ _) Hcount).
    by rewrite (proj2 (Z.ltb_ge _ _)) by lia.
  - unfold selected_images. rewrite <- list_fmap_compose. done.
Qed.

End Modes.

(** Two captured pages go out as a single request. *)
Lemma handleSend_single_request_accepted_witness :
  chatWithPDFPages_checks (Some (js "gsk")) (selected_images two_pages) = None.
Proof.
  refine (proj1 (handleSend_single_request_accepted (js "summarise") false two_pages
                   (Some (js "gsk")) (selected_images two_pages) _ eq_refl
                   ltac:(vm_compute; reflexivity))).
  refine (bool_decide_unpack (NoDup (selectedPages two_pages)) _). vm_compute. exact I.
Defined.

Section BatchAnalysis.

Context (svc : visionServices) (onProgress : bool).

Lemma requests_of_app (l k : list analysisEvent) :
  requests_of (l ++ k) = requests_of l ++ requests_of k.
Proof. apply filter_app. Qed.

Lemma requests_of_onProgress (stage : progressStage) (events : list analysisEvent) :
  requests_of (if onProgress then events ++ [AnProgress stage] else events)
  = requests_of events.
Proof.
  destruct onProgress; [|done]. rewrite requests_of_app. cbn. apply app_nil_r.
Qed.

Lemma requests_of_waitForRateLimit (g : Groq.client) :
  requests_of (Groq.waitForRateLimit g).2 = [].
Proof. unfold Groq.waitForRateLimit. by destruct (_ <? _). Qed.

Lemma elapsed_app (l k : list analysisEvent) :
  elapsed (l ++ k) = elapsed l + elapsed k.
Proof.
  induction l as [|e l IH]; [done|]. destruct e; cbn [app elapsed]; lia.
Qed.

Lemma sent_at_app (l k : list analysisEvent) (now : Z) :
  sent_at now (l ++ k) = sent_at now l ++ sent_at (now + elapsed l) k.
Proof.
  revert now. induction l as [|e l IH]; intros now.
  - cbn [app sent_at elapsed]. by replace (now + 0) with now by lia.
  - destruct e; cbn [app sent_at elapsed]; rewrite IH; try done;
      by replace (now + ms + elapsed l) with (now + (ms + elapsed l)) by lia.
Qed.

Lemma paced_app (l k : list Z) (last : Z) :
  paced last (l ++ k) = paced last l && paced (last_sent last l) k.
Proof.
  revert last. induction l as [|t l IH]; intros last; [done|].
  cbn [app paced last_sent]. by rewrite IH, andb_assoc.
Qed.

Lemma last_sent_app (l k : list Z) (last : Z) :
  last_sent last (l ++ k) = last_sent (last_sent last l) k.
Proof. revert last. induction l as [|t l IH]; intros last; [done|]. apply IH. Qed.

Lemma paced_run_nil (g : Groq.client) : paced_run g [] g.
Proof. unfold paced_run. cbn. repeat split. lia. Qed.

Lemma paced_run_app (g g1 g2 : Groq.client) (l k : list analysisEvent) :
  paced_run g l g1 → paced_run g1 k g2 → paced_run g (l ++ k) g2.
Proof.
  intros (Hc & Hp & Hl & Hk) (Hc' & Hp' & Hl' & Hk'). unfold paced_run.
  rewrite elapsed_app, sent_at_app, paced_app, last_sent_app, <- Hc, <- Hl, Hp, Hp'.
  repeat split; [lia | done | congruence].
Qed.

Lemma paced_run_progress (g : Groq.client) (stage : progressStage) :
  paced_run g (if onProgress then [AnProgress stage] else []) g.
Proof. destruct onProgress; unfold paced_run; cbn; repeat split; lia. Qed.

Lemma paced_run_pause (g : Groq.client) (ms : Z) :
  paced_run g [AnSleep ms] (Groq.elapse g ms).
Proof. unfold paced_run. cbn. repeat split. lia. Qed.

(** A request that passes through the rate limiter is sent at least two
    seconds after the one before it. *)
Lemma paced_run_request (g : Groq.client) (request : analysisEvent) (ms : Z) :
  sent_at (Groq.clock (Groq.waitForRateLimit g).1) [request]
  = [Groq.clock (Groq.waitForRateLimit g).1] →
  elapsed [request] = 0 →
  paced_run g ((Groq.waitForRateLimit g).2 ++ [request; AnResponse ms])
    (Groq.elapse (Groq.waitForRateLimit g).1 ms).
Proof.
  intros Hsent Hzero.
  destruct request; cbn [sent_at] in Hsent; try discriminate Hsent; clear Hsent Hzero;
    unfold Groq.waitForRateLimit, Groq.minDelayMs, paced_run;
    (destruct (Groq.clock g - Groq.lastRequestTime g <? 2000) eqn:Hlt;
     [apply Z.ltb_lt in Hlt | apply Z.ltb_ge in Hlt]);
    cbn [fst snd Groq.clock Groq.lastRequestTime Groq.groqApiKey Groq.elapse app
           sent_at elapsed paced last_sent];
    unfold Groq.minDelayMs; rewrite (proj2 (Z.leb_le _ _)) by lia;
    repeat split; lia.
Qed.

Lemma paced_run_analyzeBatch (g : Groq.client) (images : list pageImage)
    (index total : Z) :
  truthy (Groq.groqApiKey g) = true →
  paced_run g (analyzeBatch g svc images index total).2
    (analyzeBatch g svc images index total).1.1.
Proof.
  intros Hkey. unfold analyzeBatch. rewrite Hkey. cbn [negb].
  pose proof (paced_run_request g (AnBatchRequest index total (pageNum <$> images))
                (vision_ms svc images index) eq_refl eq_refl) as H.
  by destruct (Groq.waitForRateLimit g).
Qed.

Lemma paced_run_synthesize (g : Groq.client) (batchResults : list batchResult) :
  truthy (Groq.groqApiKey g) = true →
  paced_run g (synthesizeBatchResults g svc batchResults).2
    (synthesizeBatchResults g svc batchResults).1.1.1.
Proof.
  intros Hkey. unfold synthesizeBatchResults. rewrite Hkey. cbn [negb].
  pose proof (paced_run_request g (AnSynthesisRequest (sort_by_index batchResults))
                (synthesis_ms svc (sort_by_index batchResults)) eq_refl eq_refl) as H.
  by destruct (Groq.waitForRateLimit g).
Qed.

Lemma sort_by_index_batch_results (summaries : list jsstring)
    (todo : list (list pageImage)) (i : Z) :
  sort_by_index (batch_results summaries todo i) = batch_results summaries todo i.
Proof.
  revert todo i. induction summaries as [|s summaries IH]; intros [|batch rest] i;
    cbn [batch_results]; try done.
  unfold sort_by_index in *. cbn [foldr]. rewrite IH.
  destruct summaries as [|s' summaries], rest as [|batch' rest];
    cbn [batch_results insert_by_index]; try done.
  cbn [batchIndex]. by rewrite (proj2 (Z.ltb_ge _ _)) by lia.
Qed.

Lemma batch_results_pages (summaries : list jsstring) (todo : list (list pageImage))
    (i : Z) :
  length summaries = length todo →
  concat (br_pages <$> batch_results summaries todo i) = pageNum <$> concat todo.
Proof.
  revert todo i. induction summaries as [|s summaries IH]; intros [|batch rest] i Hlen;
    cbn in Hlen; try done.
  cbn [batch_results fmap list_fmap concat br_pages].
  rewrite fmap_app. f_equal. apply IH. lia.
Qed.

(** One turn of the loop: the batch is reported, analysed, and followed by
    the pause. *)
Lemma analyze_batches_step (g : Groq.client) (total : Z) (batch : list pageImage)
    (rest : list (list pageImage)) (i : Z) (batchResults : list batchResult)
    (events : list analysisEvent) :
  truthy (Groq.groqApiKey g) = true →
  ∃ (g1 : Groq.client) (seg : list analysisEvent),
    paced_run g seg g1
    ∧ requests_of seg = [AnBatchRequest i total (pageNum <$> batch)]
    ∧ match vision svc batch i with
      | Err e =>
          analyze_batches g svc onProgress total (batch :: rest) i batchResults events
          = (g1, Err e, events ++ seg)
      | Ok s =>
          analyze_batches g svc onProgress total (batch :: rest) i batchResults events
          = analyze_batches
              (if i <? total - 1 then Groq.elapse g1 2000 else g1) svc onProgress total
              rest (i + 1)
              (batchResults ++ [{| batchIndex := i; br_pages := pageNum <$> batch;
                                   summary := s |}])
              (events ++ seg ++ (if i <? total - 1 then [AnSleep 2000] else []))
      end.
Proof.
  intros Hkey.
  pose proof (paced_run_analyzeBatch g batch i total Hkey) as Hrun.
  cbn [analyze_batches]. revert Hrun. unfold analyzeBatch. rewrite Hkey. cbn [negb].
  pose proof (requests_of_waitForRateLimit g) as Hw.
  destruct (Groq.waitForRateLimit g) as [g' waits]. cbn [fst snd] in *. intros Hrun.
  exists (Groq.elapse g' (vision_ms svc batch i)),
    ((if onProgress
      then [AnProgress (StageBatch (i + 1) total (pageNum <$> batch))] else [])
       ++ waits ++ [AnBatchRequest i total (pageNum <$> batch);
                    AnResponse (vision_ms svc batch i)]).
  split; [|split].
  - eapply paced_run_app; [apply paced_run_progress | exact Hrun].
  - rewrite !requests_of_app, Hw. by destruct onProgress.
  - destruct (vision svc batch i) as [s|e]; cbn [mbind result_bind].
    + destruct (i <? total - 1); destruct onProgress;
        by rewrite <- ?app_assoc.
    + destruct onProgress; by rewrite <- ?app_assoc.
Qed.

Lemma analyze_batches_spec (total : Z) (todo : list (list pageImage)) :
  ∀ (g : Groq.client) (i : Z) (batchResults : list batchResult)
    (events : list analysisEvent),
  truthy (Groq.groqApiKey g) = true →
  let run := analyze_batches g svc onProgress total todo i batchResults events in
  (∃ seg, run.2 = events ++ seg ∧ paced_run g seg run.1.1)
  ∧ match run.1.2 with
    | Ok all =>
        ∃ summaries,
          length summaries = length todo
          ∧ (∀ (k : nat) batch s, todo !! k = Some batch → summaries !! k = Some s →
               vision svc batch (i + Z.of_nat k) = Ok s)
          ∧ all = batchResults ++ batch_results summaries todo i
          ∧ requests_of run.2 = requests_of events ++ batch_requests total todo i
    | Err e =>
        ∃ (k : nat) batch,
          todo !! k = Some batch
          ∧ vision svc batch (i + Z.of_nat k) = Err e
          ∧ (∀ (k' : nat) batch', (k' < k)%nat → todo !! k' = Some batch' →
               ∃ s, vision svc batch' (i + Z.of_nat k') = Ok s)
          ∧ requests_of run.2
            = requests_of events ++ batch_requests total (take k todo) i
              ++ [AnBatchRequest (i + Z.of_nat k) total (pageNum <$> batch)]
    end.
Proof.
  induction todo as [|batch rest IH]; intros g i batchResults events Hkey.
  - cbn. split.
    + exists []. split; [by rewrite app_nil_r | apply paced_run_nil].
    + exists []. by rewrite !app_nil_r.
  - destruct (analyze_batches_step g total batch rest i batchResults events Hkey)
      as (g1 & seg & Hseg & Hreq & Hstep).
    cbn zeta. destruct (vision svc batch i) as [s|e] eqn:Hvision.
    + rewrite Hstep.
      set (g2 := if i <? total - 1 then Groq.elapse g1 2000 else g1).
      set (pause := if i <? total - 1 then [AnSleep 2000] else []).
      assert (Hpause : paced_run g1 pause g2).
      { subst g2 pause. destruct (i <? total - 1);
          [apply paced_run_pause | apply paced_run_nil]. }
      assert (Hkey2 : truthy (Groq.groqApiKey g2) = true).
      { destruct Hseg as (_ & _ & _ & Hk1), Hpause as (_ & _ & _ & Hk2).
        by rewrite Hk2, Hk1. }
      specialize (IH g2 (i + 1)
                    (batchResults ++ [{| batchIndex := i; br_pages := pageNum <$> batch;
                                         summary := s |}])
                    (events ++ seg ++ pause) Hkey2).
      cbn zeta in IH.
      destruct (analyze_batches g2 svc onProgress total rest _ _ _)
        as [[g' [all|e]] evs]; cbn [fst snd] in *;
        destruct IH as [(seg' & -> & Hseg') IH]; (split;
          [exists (seg ++ pause ++ seg'); split; [by rewrite <- !app_assoc|];
           eapply paced_run_app; [exact Hseg|];
           eapply paced_run_app; [exact Hpause | exact Hseg']|]).
      * destruct IH as (summaries & Hlen & Hvis & -> & Hrq).
        exists (s :: summaries). split; [cbn; lia|]. split; [|split].
        -- intros [|k] batch' s'; cbn [lookup list_lookup].
           ++ intros [= <-] [= <-]. by replace (i + Z.of_nat 0) with i by lia.
           ++ intros Hb Hs. replace (i + Z.of_nat (S k)) with (i + 1 + Z.of_nat k) by lia.
              by eapply Hvis.
        -- cbn [batch_results]. by rewrite <- app_assoc.
        -- rewrite Hrq, !requests_of_app, Hreq. cbn [batch_requests]. subst pause.
           destruct (i <? total - 1); by rewrite <- !app_assoc.
      * destruct IH as (k & batch' & Hk & Hfail & Hbefore & Hrq).
        exists (S k), batch'. split; [done|]. split; [|split].
        -- by replace (i + Z.of_nat (S k)) with (i + 1 + Z.of_nat k) by lia.
        -- intros [|k'] b' Hlt; cbn [lookup list_lookup].
           ++ intros [= <-]. exists s. by replace (i + Z.of_nat 0) with i by lia.
           ++ intros Hb. replace (i + Z.of_nat (S k')) with (i + 1 + Z.of_nat k') by lia.
              apply (Hbefore k' b'); [lia|done].
        -- rewrite Hrq, !requests_of_app, Hreq. cbn [take batch_requests]. subst pause.
           replace (i + Z.of_nat (S k)) with (i + 1 + Z.of_nat k) by lia.
           destruct (i <? total - 1); by rewrite <- !app_assoc.
    + rewrite Hstep. cbn [fst snd]. split; [by exists seg|].
      exists 0%nat, batch. split; [done|].
      replace (i + Z.of_nat 0) with i by lia. split; [done|]. split; [intros; lia|].
      by rewrite requests_of_app, Hreq.
Qed.

Lemma createBatches_flatten (images : list pageImage) (maxSizeMB : Q) (maxImages : Z) :
  concat (createBatches images maxSizeMB maxImages) = images.
Proof.
  unfold createBatches.
  pose proof (createBatches_loop_concat maxSizeMB maxImages images
    {| batches := []; currentBatch := []; currentSize := 0 |}) as H.
  simpl in H. destruct (foldl _ _ images) as [bs cur sz]; simpl in *.
  destruct cur as [|img cur]; simpl.
  - by rewrite app_nil_r in H.
  - by rewrite concat_app; simpl; rewrite app_nil_r.
Qed.

Lemma batch_results_length (summaries : list jsstring) (todo : list (list pageImage))
    (i : Z) :
  length summaries = length todo →
  length (batch_results summaries todo i) = length todo.
Proof.
  revert todo i. induction summaries as [|s summaries IH]; intros [|b bs] i Hlen;
    cbn in *; try done. f_equal. apply IH. lia.
Qed.

(** X28.  A batch analysis with the Groq key set.  Every request passes
    through the rate limiter of groq.js, so that, whatever the state of the
    limiter and however long the model takes to answer, every request is sent
    at least two seconds after the one before it and after the time recorded
    in [RATE_LIMIT.lastRequestTime]; the clock moves on by the timeouts
    awaited and the time the answers take, and [lastRequestTime] ends as the
    time of the last request.  If the analysis resolves, every batch of
    [createBatches images 3 5] was sent to the vision model once, in order,
    the loop pausing two seconds after each batch but the last, and one
    synthesis request followed; the batch results list the pages of the
    batches, which together are the selected pages in their order.  If it
    rejects, either a batch failed, after which neither a later batch nor the
    synthesis was requested, or every batch was analysed and the synthesis
    failed. *)
Theorem batchAnalyzePDFPages_trace (g : Groq.client) (images : list pageImage) :
  truthy (Groq.groqApiKey g) = true →
  let batches := createBatches images 3 5 in
  let total := Z.of_nat (length batches) in
  let run := batchAnalyzePDFPages g svc images onProgress in
  paced (Groq.lastRequestTime g) (sent_at (Groq.clock g) run.2) = true
  ∧ Groq.clock run.1.1 = Groq.clock g + elapsed run.2
  ∧ Groq.lastRequestTime run.1.1
    = last_sent (Groq.lastRequestTime g) (sent_at (Groq.clock g) run.2)
  ∧ match run.1.2 with
    | Ok r =>
        ∃ summaries,
          length summaries = length batches
          ∧ (∀ (k : nat) batch s, batches !! k = Some batch → summaries !! k = Some s →
               vision svc batch (Z.of_nat k) = Ok s)
          ∧ ba_batchResults r = batch_results summaries batches 0
          ∧ concat (br_pages <$> ba_batchResults r) = pageNum <$> images
          ∧ totalBatches r = total
          ∧ synthesis svc (ba_batchResults r) = Ok (response r)
          ∧ requests_of run.2
            = batch_requests total batches 0 ++ [AnSynthesisRequest (ba_batchResults r)]
    | Err e =>
        (∃ (k : nat) batch,
           batches !! k = Some batch
           ∧ vision svc batch (Z.of_nat k) = Err e
           ∧ requests_of run.2
             = batch_requests total (take k batches) 0
               ++ [AnBatchRequest (Z.of_nat k) total (pageNum <$> batch)])
        ∨ (∃ batchResults,
             synthesis svc batchResults = Err e
             ∧ length batchResults = length batches
             ∧ requests_of run.2
               = batch_requests total batches 0 ++ [AnSynthesisRequest batchResults])
    end.
Proof.
  intros Hkey. cbn zeta. unfold batchAnalyzePDFPages.
  set (batches := createBatches images 3 5).
  set (total := Z.of_nat (length batches)).
  set (start := if onProgress then [AnProgress (StageStart total)] else []).
  pose proof (analyze_batches_spec total batches g 0 [] start Hkey) as [Hpaced Hspec].
  cbn zeta in Hpaced, Hspec.
  assert (Hstart : requests_of start = []) by (subst start; by destruct onProgress).
  assert (Hstart' : paced_run g start g) by apply paced_run_progress.
  rewrite Hstart in Hspec.
  destruct (analyze_batches g svc onProgress total batches 0 [] start)
    as [[g1 [all|e]] evs]; cbn [fst snd] in *;
    destruct Hpaced as (seg & -> & Hseg).
  - destruct Hspec as (summaries & Hlen & Hvis & -> & Hreq). cbn [app] in *.
    assert (Hkey1 : truthy (Groq.groqApiKey g1) = true).
    { destruct Hseg as (_ & _ & _ & ->). done. }
    pose proof (paced_run_synthesize g1 (batch_results summaries batches 0) Hkey1) as Hsyn.
    pose proof (requests_of_waitForRateLimit g1) as Hwaits.
    revert Hsyn. unfold synthesizeBatchResults. rewrite Hkey1. cbn [negb].
    rewrite sort_by_index_batch_results.
    destruct (Groq.waitForRateLimit g1) as [g2 waits]. cbn [fst snd] in *. intros Hsyn.
    set (reqs := waits ++ [AnSynthesisRequest (batch_results summaries batches 0);
                           AnResponse (synthesis_ms svc (batch_results summaries batches 0))])
      in *.
    assert (Hrq : requests_of reqs
                  = [AnSynthesisRequest (batch_results summaries batches 0)]).
    { subst reqs. by rewrite requests_of_app, Hwaits. }
    set (before := if onProgress then (start ++ seg) ++ [AnProgress StageSynthesize]
                   else start ++ seg).
    assert (Hbefore : paced_run g before g1).
    { replace before
        with ((start ++ seg) ++ (if onProgress then [AnProgress StageSynthesize] else []))
        by (subst before; destruct onProgress; by rewrite ?app_nil_r).
      eapply paced_run_app; [eapply paced_run_app; eassumption|].
      apply paced_run_progress. }
    assert (Hrb : requests_of before = batch_requests total batches 0).
    { subst before. by rewrite requests_of_onProgress. }
    destruct (synthesis svc _) as [answer|e] eqn:Hsynth; cbn [fst snd].
    + assert (Hrun : paced_run g
                (before ++ reqs ++ (if onProgress then [AnProgress StageComplete] else []))
                (Groq.elapse g2 (synthesis_ms svc (batch_results summaries batches 0)))).
      { eapply paced_run_app; [exact Hbefore|].
        eapply paced_run_app; [exact Hsyn | apply paced_run_progress]. }
      destruct Hrun as (Hc & Hp & Hl & _). split; [exact Hp|]. split; [exact Hc|].
      split; [exact Hl|].
      exists summaries. cbn [ba_batchResults totalBatches response].
      split; [done|]. split; [done|]. split; [done|].
      split.
      { rewrite batch_results_pages by done. unfold batches.
        by rewrite createBatches_flatten. }
      split; [done|]. split; [done|].
      rewrite !requests_of_app, Hrb, Hrq.
      destruct onProgress; cbn; by rewrite ?app_nil_r.
    + assert (Hrun : paced_run g (before ++ reqs)
                (Groq.elapse g2 (synthesis_ms svc (batch_results summaries batches 0)))).
      { eapply paced_run_app; [exact Hbefore | exact Hsyn]. }
      destruct Hrun as (Hc & Hp & Hl & _). split; [exact Hp|]. split; [exact Hc|].
      split; [exact Hl|].
      right. eexists. split; [exact Hsynth|]. split.
      * by apply batch_results_length.
      * by rewrite requests_of_app, Hrb, Hrq.
  - assert (Hrun : paced_run g (start ++ seg) g1) by (eapply paced_run_app; eassumption).
    destruct Hrun as (Hc & Hp & Hl & _). split; [exact Hp|]. split; [exact Hc|].
    split; [exact Hl|].
    left. destruct Hspec as (k & batch & Hk & Hfail & _ & Hreq).
    exists k, batch. split; [done|]. split; [done|]. by rewrite Hreq.
Qed.

End BatchAnalysis.

(** Seven selected pages are analysed in two batches by a client that has
    not sent anything yet; a batch is answered after 500 ms, so the rate
    limiter holds the synthesis request back for 1500 ms. *)
Lemma batchAnalyzePDFPages_trace_witness :
  batchAnalyzePDFPages Groq.fresh answering (selected_images seven_pages) true
  = ({| Groq.groqApiKey := Some (js "gsk"); Groq.lastRequestTime := 104500;
        Groq.clock := 107500 |},
     Ok {| response := js "answer";
           ba_batchResults :=
             [ {| batchIndex := 0; br_pages := [1; 2; 3; 4; 5]; summary := js "summary" |};
               {| batchIndex := 1; br_pages := [6; 7]; summary := js "summary" |} ];
           totalBatches := 2 |},
     [ AnProgress (StageStart 2);
       AnProgress (StageBatch 1 2 [1; 2; 3; 4; 5]);
       AnBatchRequest 0 2 [1; 2; 3; 4; 5]; AnResponse 500; AnSleep 2000;
       AnProgress (StageBatch 2 2 [6; 7]);
       AnBatchRequest 1 2 [6; 7]; AnResponse 500;
       AnProgress StageSynthesize;
       AnRateLimitWait 1500;
       AnSynthesisRequest
         [ {| batchIndex := 0; br_pages := [1; 2; 3; 4; 5]; summary := js "summary" |};
           {| batchIndex := 1; br_pages := [6; 7]; summary := js "summary" |} ];
       AnResponse 3000;
       AnProgress StageComplete ])
  ∧ sent_at 100000
      (batchAnalyzePDFPages Groq.fresh answering (selected_images seven_pages) true).2
    = [100000; 102500; 104500]
  ∧ paced 0
      (sent_at 100000
         (batchAnalyzePDFPages Groq.fresh answering (selected_images seven_pages) true).2)
    = true.
Proof.
  split; [vm_compute; reflexivity|]. split; [vm_compute; reflexivity|].
  exact (proj1 (batchAnalyzePDFPages_trace answering true Groq.fresh
                  (selected_images seven_pages) eq_refl)).
Defined.
